(** * type-guardian: the inference engine and the tree-mutating fixers

    A shallow embedding of the Python sources

      - [type_guardian/inference/type_inferrer.py]  (module [TypeInferrer])
      - [type_guardian/fixers/optional_fixer.py]    (module [OptionalFixer])
      - [type_guardian/fixers/missing_hints.py]     (module [MissingHintsFixer])
      - [type_guardian/fixers/collection_fixer.py]  (module [CollectionFixer])
      - [type_guardian/fixers/import_fixer.py]      (module [ImportFixer])

    together with the part of CPython's [ast] module these sources call
    ([ast.walk], [ast.iter_fields], [ast.iter_child_nodes],
    [ast.copy_location]), followed by the properties of the specification
    that are settled on it. *)

From Stdlib Require Import String ZArith Ascii.
From stdpp Require Import base option list strings gmap sets sorting.

Set Warnings "-register-all".
Open Scope string_scope.
Open Scope list_scope.
Open Scope nat_scope.

(* ===================================================================== *)
(** * The Python syntax tree                                              *)
(* ===================================================================== *)

Module PyAst.

(** Source-location attributes of a node ([lineno], [col_offset],
    [end_lineno], [end_col_offset]).  A node built by a fixer carries none
    of them until [copy_location] fills them in; this is what
    [hasattr(node, 'lineno')] observes. *)
Record location := Loc {
  lineno : nat;
  col_offset : nat;
  end_lineno : nat;
  end_col_offset : nat
}.

(** Python objects reachable from a tree.  An [ast.AST] instance is a
    [VNode]: its identity ([uid], what [is] compares), its class name, its
    location attributes and its fields in [_fields] order.  Reading an
    attribute that is not set yields [VNone] (the default of optional
    fields). *)
Inductive value : Type :=
| VNone
| VBool (b : bool)
| VInt (z : Z)
| VFloat (repr : string)
| VComplex (repr : string)
| VStr (s : string)
| VBytes (s : string)
| VEllipsis
| VList (items : list value)
| VNode (uid : nat) (cls : string) (loc : option location)
        (fields : list (string * value)).

Definition is_node (v : value) : bool :=
  match v with VNode _ _ _ _ => true | _ => false end.

Definition is_none (v : value) : bool :=
  match v with VNone => true | _ => false end.

(** [isinstance(v, ast.<c>)] for a concrete node class [c]. *)
Definition isinstance (v : value) (c : string) : bool :=
  match v with VNode _ k _ _ => String.eqb k c | _ => false end.

Definition isinstance_any (v : value) (cs : list string) : bool :=
  existsb (isinstance v) cs.

(** [type(v).__name__] *)
Definition type_name (v : value) : string :=
  match v with
  | VNone => "NoneType"
  | VBool _ => "bool"
  | VInt _ => "int"
  | VFloat _ => "float"
  | VComplex _ => "complex"
  | VStr _ => "str"
  | VBytes _ => "bytes"
  | VEllipsis => "ellipsis"
  | VList _ => "list"
  | VNode _ k _ _ => k
  end.

(** [a is b], for [b] a node: nodes are identical when they are the same
    object. *)
Definition is_ (a b : value) : bool :=
  match a, b with
  | VNode u _ _ _, VNode u' _ _ _ => Nat.eqb u u'
  | _, _ => false
  end.

Definition uid_of (v : value) : nat :=
  match v with VNode u _ _ _ => u | _ => 0 end.

Definition loc_of (v : value) : option location :=
  match v with VNode _ _ l _ => l | _ => None end.

(** [node.lineno], [None] when [hasattr(node, 'lineno')] is false. *)
Definition lineno_of (v : value) : option nat := lineno <$> loc_of v.

(** [ast.iter_fields] *)
Definition iter_fields (n : value) : list (string * value) :=
  match n with VNode _ _ _ fs => fs | _ => [] end.

Fixpoint lookup_field (fs : list (string * value)) (f : string) : value :=
  match fs with
  | [] => VNone
  | (g, v) :: rest => if String.eqb g f then v else lookup_field rest f
  end.

(** [node.<f>] *)
Definition attr (n : value) (f : string) : value :=
  lookup_field (iter_fields n) f.

Definition attr_list (n : value) (f : string) : list value :=
  match attr n f with VList l => l | _ => [] end.

Definition attr_str (n : value) (f : string) : string :=
  match attr n f with VStr s => s | _ => "" end.

(** The child nodes a single field contributes, in order. *)
Definition field_children (v : value) : list value :=
  match v with
  | VNode _ _ _ _ => [v]
  | VList l => List.filter is_node l
  | _ => []
  end.

(** [ast.iter_child_nodes] *)
Definition iter_child_nodes (n : value) : list value :=
  flat_map (λ p, field_children (snd p)) (iter_fields n).

(** Number of nodes below (and including) a value; the number of steps
    [ast.walk] needs. *)
Fixpoint node_count (v : value) : nat :=
  match v with
  | VNode _ _ _ fs => S (list_sum (map (λ p, node_count (snd p)) fs))
  | VList l => list_sum (map node_count l)
  | _ => 0
  end.

(** [ast.walk]: breadth first, [todo] is the deque.
<<
    todo = deque([node])
    while todo:
        node = todo.popleft()
        todo.extend(iter_child_nodes(node))
        yield node
>> *)
Fixpoint walk_queue (fuel : nat) (todo : list value) : list value :=
  match fuel, todo with
  | S k, n :: rest => n :: walk_queue k (rest ++ iter_child_nodes n)
  | _, _ => []
  end.

Definition walk (t : value) : list value := walk_queue (node_count t) [t].

(** The same traversal, remembering where each node sits: a path is the
    list of child indices (in [iter_child_nodes] order) from the root. *)
Definition path := list nat.

Definition children_at (p : path) (n : value) : list (path * value) :=
  imap (λ i c, (p ++ [i], c)) (iter_child_nodes n).

Fixpoint walk_paths_queue (fuel : nat) (todo : list (path * value))
  : list (path * value) :=
  match fuel, todo with
  | S k, (p, n) :: rest =>
      (p, n) :: walk_paths_queue k (rest ++ children_at p n)
  | _, _ => []
  end.

Definition walk_paths (t : value) : list (path * value) :=
  walk_paths_queue (node_count t) [([], t)].

(** Overwriting the [i]-th child slot of a node: an element of a list
    field ([value[i] = new]) or a singular field ([setattr]). *)
Fixpoint set_in_items (l : list value) (i : nat) (new : value) : list value :=
  match l with
  | [] => []
  | x :: xs =>
      if is_node x then
        match i with
        | 0 => new :: xs
        | S j => x :: set_in_items xs j new
        end
      else x :: set_in_items xs i new
  end.

Fixpoint set_in_fields (fs : list (string * value)) (i : nat) (new : value)
  : list (string * value) :=
  match fs with
  | [] => []
  | (f, v) :: rest =>
      let k := length (field_children v) in
      if decide (i < k) then
        (f, match v with VList l => VList (set_in_items l i new) | _ => new end)
          :: rest
      else (f, v) :: set_in_fields rest (i - k) new
  end.

Definition set_child (n : value) (i : nat) (new : value) : value :=
  match n with
  | VNode u k l fs => VNode u k l (set_in_fields fs i new)
  | _ => n
  end.

(** In-place update of the object at a path. *)
Fixpoint update_at (p : path) (f : value → value) (t : value) : value :=
  match p with
  | [] => f t
  | i :: p' =>
      match iter_child_nodes t !! i with
      | Some c => set_child t i (update_at p' f c)
      | None => t
      end
  end.

(** [setattr(node, f, v)] on a field the node has. *)
Fixpoint store_field (fs : list (string * value)) (f : string) (v : value)
  : list (string * value) :=
  match fs with
  | [] => [(f, v)]
  | (g, w) :: rest =>
      if String.eqb g f then (g, v) :: rest else (g, w) :: store_field rest f v
  end.

Definition setattr (n : value) (f : string) (v : value) : value :=
  match n with
  | VNode u k l fs => VNode u k l (store_field fs f v)
  | _ => n
  end.

(** Classes whose [_attributes] are empty: they carry no location. *)
Definition unlocated_classes : list string :=
  [ "Module"; "Interactive"; "Expression"; "FunctionType";
    "Load"; "Store"; "Del"; "And"; "Or";
    "Add"; "Sub"; "Mult"; "MatMult"; "Div"; "Mod"; "Pow"; "LShift";
    "RShift"; "BitOr"; "BitXor"; "BitAnd"; "FloorDiv";
    "Invert"; "Not"; "UAdd"; "USub";
    "Eq"; "NotEq"; "Lt"; "LtE"; "Gt"; "GtE"; "Is"; "IsNot"; "In"; "NotIn";
    "comprehension"; "arguments"; "withitem"; "match_case"; "TypeIgnore" ].

Definition has_location_attrs (c : string) : bool :=
  negb (existsb (String.eqb c) unlocated_classes).

(** [ast.copy_location(new_node, old_node)]: the attributes both classes
    declare and [old_node] has are copied. *)
Definition copy_location (new old : value) : value :=
  match new, old with
  | VNode u k _ fs, VNode _ k' (Some l) _ =>
      if has_location_attrs k && has_location_attrs k'
      then VNode u k (Some l) fs else new
  | _, _ => new
  end.

(** The search both loops of every [_replace_node] perform:
<<
    for parent in ast.walk(tree):
        for field, value in ast.iter_fields(parent):
            if isinstance(value, list):
                for i, item in enumerate(value):
                    if item is old_node: ...
            elif value is old_node: ...
>>
    [find_slot] is the first child slot of one parent that holds [old_node],
    [scan_parents] the first parent, in walk order, that has one. *)
Definition find_slot (parent old : value) : option nat :=
  fst <$> list_find (λ c, is_ c old = true) (iter_child_nodes parent).

Fixpoint scan_parents (parents : list (path * value)) (old : value)
  : option (path * nat) :=
  match parents with
  | [] => None
  | (p, parent) :: rest =>
      match find_slot parent old with
      | Some i => Some (p, i)
      | None => scan_parents rest old
      end
  end.

(** The largest identity in use; objects created later are distinct from
    every node of the tree. *)
Definition max_uid (t : value) : nat := max_list (uid_of <$> walk t).

(** [ast.unparse] looks up [node.lineno] for every statement that can
    carry a type comment (its [get_type_comment]).  On such a node without
    location attributes -- one a fixer built and no [copy_location]
    completed -- the lookup raises [AttributeError]. *)
Definition type_comment_classes : list string :=
  [ "FunctionDef"; "AsyncFunctionDef"; "Assign"; "For"; "AsyncFor";
    "With"; "AsyncWith" ].

Definition unparse_raises (t : value) : bool :=
  existsb (λ n, isinstance_any n type_comment_classes
                && negb (bool_decide (is_Some (lineno_of n)))) (walk t).

(** ** Node constructors, fields in [_fields] order *)

Definition at_line (l : nat) : option location := Some (Loc l 0 l 0).

Definition Load : value := VNode 0 "Load" None [].
Definition Store : value := VNode 0 "Store" None [].
Definition Op (name : string) : value := VNode 0 name None [].

Definition Module_ (u : nat) (body : list value) : value :=
  VNode u "Module" None [("body", VList body); ("type_ignores", VList [])].

Definition arguments_ (u : nat) (args : list value) : value :=
  VNode u "arguments" None
    [("posonlyargs", VList []); ("args", VList args); ("vararg", VNone);
     ("kwonlyargs", VList []); ("kw_defaults", VList []); ("kwarg", VNone);
     ("defaults", VList [])].

Definition arg_ (u : nat) (l : option location) (name : string) (ann : value)
  : value :=
  VNode u "arg" l
    [("arg", VStr name); ("annotation", ann); ("type_comment", VNone)].

Definition FunctionDef_ (u : nat) (l : option location) (name : string)
    (args : value) (body : list value) (returns : value) : value :=
  VNode u "FunctionDef" l
    [("name", VStr name); ("args", args); ("body", VList body);
     ("decorator_list", VList []); ("returns", returns);
     ("type_comment", VNone); ("type_params", VList [])].

Definition Return_ (u : nat) (l : option location) (v : value) : value :=
  VNode u "Return" l [("value", v)].

Definition Assign_ (u : nat) (l : option location) (targets : list value)
    (v : value) : value :=
  VNode u "Assign" l
    [("targets", VList targets); ("value", v); ("type_comment", VNone)].

Definition AnnAssign_ (u : nat) (l : option location)
    (target annotation v : value) : value :=
  VNode u "AnnAssign" l
    [("target", target); ("annotation", annotation); ("value", v);
     ("simple", VInt 1)].

Definition Expr_ (u : nat) (l : option location) (v : value) : value :=
  VNode u "Expr" l [("value", v)].

Definition If_ (u : nat) (l : option location) (test : value)
    (body orelse : list value) : value :=
  VNode u "If" l
    [("test", test); ("body", VList body); ("orelse", VList orelse)].

Definition For_ (u : nat) (l : option location) (target iter : value)
    (body : list value) : value :=
  VNode u "For" l
    [("target", target); ("iter", iter); ("body", VList body);
     ("orelse", VList []); ("type_comment", VNone)].

Definition Pass_ (u : nat) (l : option location) : value :=
  VNode u "Pass" l [].

Definition alias_ (u : nat) (l : option location) (name : string) : value :=
  VNode u "alias" l [("name", VStr name); ("asname", VNone)].

Definition Import_ (u : nat) (l : option location) (names : list value)
  : value :=
  VNode u "Import" l [("names", VList names)].


Definition Constant_ (u : nat) (l : option location) (v : value) : value :=
  VNode u "Constant" l [("value", v); ("kind", VNone)].

Definition Name_ (u : nat) (l : option location) (id : string) (ctx : value)
  : value :=
  VNode u "Name" l [("id", VStr id); ("ctx", ctx)].

Definition Attribute_ (u : nat) (l : option location) (v : value)
    (a : string) (ctx : value) : value :=
  VNode u "Attribute" l [("value", v); ("attr", VStr a); ("ctx", ctx)].


Definition Call_ (u : nat) (l : option location) (func : value)
    (args : list value) : value :=
  VNode u "Call" l
    [("func", func); ("args", VList args); ("keywords", VList [])].

Definition List_ (u : nat) (l : option location) (elts : list value) : value :=
  VNode u "List" l [("elts", VList elts); ("ctx", Load)].

Definition BinOp_ (u : nat) (l : option location) (left op right : value)
  : value :=
  VNode u "BinOp" l [("left", left); ("op", op); ("right", right)].

Definition Compare_ (u : nat) (l : option location) (left : value)
    (ops comparators : list value) : value :=
  VNode u "Compare" l
    [("left", left); ("ops", VList ops); ("comparators", VList comparators)].

Definition IfExp_ (u : nat) (l : option location) (test body orelse : value)
  : value :=
  VNode u "IfExp" l [("test", test); ("body", body); ("orelse", orelse)].

End PyAst.

Export PyAst.

(** CPython library functions the sources call and that live outside the
    repository: [ast.unparse], and [ast.parse(s, mode='eval').body] with
    [None] standing for [SyntaxError].  The nodes the parser returns are
    new objects; their identities are taken as the parser gives them. *)
Class PyLib := {
  unparse : value → string;
  parse_eval : string → option value
}.

(* ===================================================================== *)
(** * Python strings, sets of strings and diagnostics                     *)
(* ===================================================================== *)

Module PyStr.

(** Strings are compared as Python compares them, code point by code point
    (for the UTF-8 bytes of a [string], byte by byte). *)
Definition str_le (a b : string) : Prop := String.leb a b = true.

#[global] Instance str_le_dec a b : Decision (str_le a b).
Proof. unfold str_le. apply _. Defined.

#[global] Instance str_le_total : Total str_le.
Proof. intros a b. apply String.leb_total. Qed.

(** [sorted(s)] for a set or list of strings *)
Definition sorted (l : list string) : list string := merge_sort str_le l.

(** [', '.join(l)] *)
Definition join (l : list string) : string := String.concat ", " l.

(** [s in l] for a tuple or set literal of strings *)
Definition in_list (s : string) (l : list string) : bool :=
  existsb (String.eqb s) l.

(** [needle in s] *)
Fixpoint contains (needle s : string) : bool :=
  String.prefix needle s ||
  match s with
  | EmptyString => false
  | String _ rest => contains needle rest
  end.

Definition lower_ascii (c : ascii) : ascii :=
  let n := nat_of_ascii c in
  if (65 <=? n)%nat && (n <=? 90)%nat then ascii_of_nat (n + 32) else c.

(** [s.lower()], on ASCII letters *)
Fixpoint lower (s : string) : string :=
  match s with
  | EmptyString => EmptyString
  | String c rest => String (lower_ascii c) (lower rest)
  end.

End PyStr.

Export PyStr.

(** A parsed diagnostic (the [error] dictionaries of [parser.py]), with the
    keys the fixers read. *)
Record error := Error {
  file : string;
  line : nat;
  message : string;
  category : string;
  context : gmap string string
}.

(* ===================================================================== *)
(** * type_guardian/inference/type_inferrer.py                            *)
(* ===================================================================== *)

Module TypeInferrer.

(** ** The inferrer's state and control

    [self.type_cache] is threaded through every call; the interpreter's
    recursion budget is explicit, and exhausting it is [RecursionError]
    (the mutual recursion of [_infer_expr_type] and [_lookup_variable_type]
    does not terminate on [x = x]).  [AttributeError] is the exception
    [ast.unparse] raises in the runner's write-back; like
    [RecursionError] it is caught nowhere and ends the run. *)
Inductive outcome (A : Type) : Type :=
| Ok (a : A)
| RecursionError
| AttributeError.
Arguments Ok {A} a.
Arguments RecursionError {A}.
Arguments AttributeError {A}.

Definition M (A : Type) : Type :=
  gmap string string → outcome (A * gmap string string).

Definition ret {A} (a : A) : M A := λ c, Ok (a, c).

Definition bind {A B} (m : M A) (k : A → M B) : M B :=
  λ c, match m c with
       | Ok (a, c') => k a c'
       | RecursionError => RecursionError
       | AttributeError => AttributeError
       end.

Definition raise {A} : M A := λ _, RecursionError.

Definition raise_attribute_error {A} : M A := λ _, AttributeError.

Definition cache_get (name : string) : M (option string) :=
  λ c, Ok (c !! name, c).

Definition cache_set (name ty : string) : M unit :=
  λ c, Ok (tt, <[name := ty]> c).

Notation "'let*' x ':=' m 'in' k" := (bind m (λ x, k))
  (at level 10, x pattern, m at level 100, k at level 200, only parsing).

Fixpoint mapM {A B} (f : A → M B) (l : list A) : M (list B) :=
  match l with
  | [] => ret []
  | x :: xs => let* y := f x in let* ys := mapM f xs in ret (y :: ys)
  end.

(** ** Strings and sets of type names *)

(** Truthiness of an [Optional[str]]. *)
Definition truthy (o : option string) : bool :=
  match o with
  | Some s => negb (String.eqb s "")
  | None => false
  end.

(** The set built from the results that are not [None]
    ([s.discard(None)]). *)
Definition discard_none (l : list (option string)) : gset string :=
  list_to_set (omap id l).

(** [s.pop() if len(s) == 1 else dflt] *)
Definition pop_single (s : gset string) (dflt : string) : string :=
  match elements s with
  | [t] => t
  | _ => dflt
  end.

Section Inferrer.
Context `{PyLib}.
Variable strict : bool.

Definition _python_type_to_typing (py_type : string) : string :=
  if String.eqb py_type "NoneType" then "None"
  else if String.eqb py_type "list" then "List[Any]"
  else if String.eqb py_type "dict" then "Dict[str, Any]"
  else if String.eqb py_type "set" then "Set[Any]"
  else if String.eqb py_type "tuple" then "Tuple[Any, ...]"
  else py_type.

Definition _unify_types (types : gset string) : string :=
  if decide (types = ∅) then "Any" else
  let types : gset string := filter (λ t, t ≠ "Any") types in
  if decide (types = ∅) then "Any" else
  match elements types with
  | [t] => t
  | _ =>
      if decide (types ⊆ {["int"; "float"]}) then
        if decide ("float" ∈ types) then "float" else "int"
      else "Union[" +:+ join (sorted (elements types)) +:+ "]"
  end.

Definition _find_assignments (var_name : string) (tree : value)
  : list value :=
  flat_map (λ node,
    if isinstance node "Assign" then
      flat_map (λ target,
        if isinstance target "Name" && String.eqb (attr_str target "id") var_name
        then [node] else []) (attr_list node "targets")
    else []) (walk tree).

Definition _find_function (func_name : string) (tree : value)
  : option value :=
  snd <$> list_find (λ node,
    isinstance node "FunctionDef" = true ∧ attr_str node "name" = func_name)
    (walk tree).

(** ['Any' if not self.strict else None] *)
Definition any_or_none : option string :=
  if strict then None else Some "Any".

Definition known_constructors : list string :=
  ["str"; "int"; "float"; "bool"; "list"; "dict"; "set"].

Definition is_numeric (o : option string) : bool :=
  match o with
  | Some s => in_list s ["int"; "float"]
  | None => false
  end.

Definition is_float (o : option string) : bool :=
  match o with
  | Some s => String.eqb s "float"
  | None => false
  end.

(** The body of [_lookup_variable_type], over the recursive call it makes. *)
Definition lookup_with (infer : value → value → M (option string))
    (var_name : string) (context : value) : M (option string) :=
  let* cached := cache_get var_name in
  match cached with
  | Some ty => ret (Some ty)
  | None =>
      match _find_assignments var_name context with
      | first :: _ =>
          let* var_type := infer (attr first "value") context in
          if truthy var_type then
            let* _ := cache_set var_name (default "" var_type) in
            ret var_type
          else ret None
      | [] => ret None
      end
  end.

Fixpoint _infer_expr_type (depth : nat) (expr context : value)
  : M (option string) :=
  match depth with
  | 0 => raise
  | S d =>
    if isinstance expr "Constant" then
      ret (Some (_python_type_to_typing (type_name (attr expr "value"))))
    else if isinstance expr "Name" then
      lookup_with (_infer_expr_type d) (attr_str expr "id") context
    else if isinstance expr "Call" then
      if isinstance (attr expr "func") "Name" then
        let func_name := attr_str (attr expr "func") "id" in
        if in_list func_name known_constructors then
          ret (Some (_python_type_to_typing func_name))
        else
          match _find_function func_name context with
          | Some func_def =>
              if is_node (attr func_def "returns")
              then ret (Some (unparse (attr func_def "returns")))
              else ret any_or_none
          | None => ret any_or_none
          end
      else ret any_or_none
    else if isinstance expr "List" then
      match attr_list expr "elts" with
      | [] => ret (Some "List[Any]")
      | elts =>
          let* tys := mapM (λ e, _infer_expr_type d e context) elts in
          match elements (discard_none tys) with
          | [t] => ret (Some ("List[" +:+ t +:+ "]"))
          | _ => ret (Some "List[Any]")
          end
      end
    else if isinstance expr "Dict" then
      let* kts := mapM (λ k, _infer_expr_type d k context)
                 (List.filter is_node (attr_list expr "keys")) in
      let* vts := mapM (λ v, _infer_expr_type d v context)
                 (attr_list expr "values") in
      let key_type := pop_single (discard_none kts) "str" in
      let val_type := pop_single (discard_none vts) "Any" in
      ret (Some ("Dict[" +:+ key_type +:+ ", " +:+ val_type +:+ "]"))
    else if isinstance expr "Set" then
      match attr_list expr "elts" with
      | [] => ret (Some "Set[Any]")
      | elts =>
          let* tys := mapM (λ e, _infer_expr_type d e context) elts in
          match elements (discard_none tys) with
          | [t] => ret (Some ("Set[" +:+ t +:+ "]"))
          | _ => ret (Some "Set[Any]")
          end
      end
    else if isinstance expr "Tuple" then
      let* tys := mapM (λ e, _infer_expr_type d e context)
                      (attr_list expr "elts") in
      if forallb truthy tys
      then ret (Some ("Tuple[" +:+ join (omap id tys) +:+ "]"))
      else ret (Some "Tuple[Any, ...]")
    else if isinstance expr "BinOp" then
      let* left_type := _infer_expr_type d (attr expr "left") context in
      let* right_type := _infer_expr_type d (attr expr "right") context in
      if isinstance_any (attr expr "op") ["Add"; "Sub"; "Mult"; "Div"]
         && (is_numeric left_type || is_numeric right_type)
      then ret (Some (if is_float left_type || is_float right_type
                      then "float" else "int"))
      else ret any_or_none
    else if isinstance expr "Compare" then ret (Some "bool")
    else if isinstance expr "BoolOp" then ret (Some "bool")
    else if isinstance expr "IfExp" then
      let* body_type := _infer_expr_type d (attr expr "body") context in
      let* else_type := _infer_expr_type d (attr expr "orelse") context in
      match body_type, else_type with
      | Some b, Some e =>
          if truthy body_type && truthy else_type then
            if String.eqb b e then ret (Some b)
            else ret (Some (_unify_types {[b; e]}))
          else ret any_or_none
      | _, _ => ret any_or_none
      end
    else ret any_or_none
  end.

Definition _lookup_variable_type (depth : nat) (var_name : string)
    (context : value) : M (option string) :=
  lookup_with (_infer_expr_type depth) var_name context.

(** ** [infer_return_type] *)

(** The loop over [ast.walk(func)]: the set [return_types] and the flag
    [has_none_return]. *)
Fixpoint return_loop (depth : nat) (func : value) (nodes : list value)
    (return_types : gset string) (has_none_return : bool)
  : M (gset string * bool) :=
  match nodes with
  | [] => ret (return_types, has_none_return)
  | node :: rest =>
      if isinstance node "Return" then
        if is_none (attr node "value") then
          return_loop depth func rest return_types true
        else
          let* ret_type := _infer_expr_type depth (attr node "value") func in
          if truthy ret_type
          then return_loop depth func rest
                 ({[default "" ret_type]} ∪ return_types) has_none_return
          else return_loop depth func rest return_types has_none_return
      else return_loop depth func rest return_types has_none_return
  end.

Definition infer_return_type (depth : nat) (func : value)
  : M (option string) :=
  let* (return_types, has_none_return) :=
    return_loop depth func (walk func) ∅ false in
  if bool_decide (return_types = ∅) && negb has_none_return
  then ret (Some "None")
  else if bool_decide (return_types = ∅) then ret (Some "None")
  else
    match elements return_types with
    | [ret_type] =>
        if has_none_return
        then ret (Some ("Optional[" +:+ ret_type +:+ "]"))
        else ret (Some ret_type)
    | _ =>
        let unified := _unify_types return_types in
        if has_none_return
        then ret (Some ("Optional[" +:+ unified +:+ "]"))
        else ret (Some unified)
    end.

(** ** [infer_param_type] *)

(** The dictionaries [_analyze_param_usage] appends. *)
Inductive pattern : Type :=
| method_call (method : string)
| subscript (key_type : option string)
| iteration
| binop (op : string).

Fixpoint analyze_loop (depth : nat) (param_name : string) (func : value)
    (nodes : list value) (patterns : list pattern) : M (list pattern) :=
  match nodes with
  | [] => ret patterns
  | node :: rest =>
      if isinstance node "Call" then
        if isinstance (attr node "func") "Attribute"
           && isinstance (attr (attr node "func") "value") "Name"
           && String.eqb (attr_str (attr (attr node "func") "value") "id")
                         param_name
        then analyze_loop depth param_name func rest
               (patterns ++ [method_call (attr_str (attr node "func") "attr")])
        else analyze_loop depth param_name func rest patterns
      else if isinstance node "Subscript" then
        if isinstance (attr node "value") "Name"
           && String.eqb (attr_str (attr node "value") "id") param_name
        then
          let* key_type := _infer_expr_type depth (attr node "slice") func in
          analyze_loop depth param_name func rest
            (patterns ++ [subscript key_type])
        else analyze_loop depth param_name func rest patterns
      else if isinstance node "For" then
        if isinstance (attr node "iter") "Name"
           && String.eqb (attr_str (attr node "iter") "id") param_name
        then analyze_loop depth param_name func rest (patterns ++ [iteration])
        else analyze_loop depth param_name func rest patterns
      else if isinstance node "BinOp" then
        if isinstance (attr node "left") "Name"
           && String.eqb (attr_str (attr node "left") "id") param_name
        then analyze_loop depth param_name func rest
               (patterns ++ [binop (type_name (attr node "op"))])
        else analyze_loop depth param_name func rest patterns
      else analyze_loop depth param_name func rest patterns
  end.

Definition _analyze_param_usage (depth : nat) (param_name : string)
    (func : value) : M (list pattern) :=
  analyze_loop depth param_name func (walk func) [].

Fixpoint _infer_from_patterns (patterns : list pattern) : option string :=
  match patterns with
  | [] => any_or_none
  | method_call method :: rest =>
      if in_list method ["lower"; "upper"; "strip"; "split"; "replace"]
      then Some "str"
      else if in_list method ["append"; "extend"; "pop"; "remove"]
      then Some "List[Any]"
      else if in_list method ["get"; "keys"; "values"; "items"]
      then Some "Dict[str, Any]"
      else _infer_from_patterns rest
  | subscript key_type :: rest =>
      match key_type with
      | Some k =>
          if String.eqb k "int" then Some "List[Any]"
          else if String.eqb k "str" then Some "Dict[str, Any]"
          else _infer_from_patterns rest
      | None => _infer_from_patterns rest
      end
  | iteration :: _ => Some "Iterable[Any]"
  | binop op :: rest =>
      if in_list op ["Add"; "Sub"; "Mult"; "Div"] then Some "int"
      else _infer_from_patterns rest
  end.

Definition infer_param_type (depth : nat) (param_name : string)
    (func : value) : M (option string) :=
  let* patterns := _analyze_param_usage depth param_name func in
  match patterns with
  | [] => ret any_or_none
  | _ => ret (_infer_from_patterns patterns)
  end.

(** ** [infer_variable_type] *)

Fixpoint assignment_types (depth : nat) (tree : value)
    (assignments : list value) (types : gset string) : M (gset string) :=
  match assignments with
  | [] => ret types
  | assign :: rest =>
      let* value_type := _infer_expr_type depth (attr assign "value") tree in
      if truthy value_type
      then assignment_types depth tree rest
             ({[default "" value_type]} ∪ types)
      else assignment_types depth tree rest types
  end.

Definition infer_variable_type (depth : nat) (var_name : string)
    (context tree : value) : M (option string) :=
  let* first := (if isinstance context "Assign"
     then _infer_expr_type depth (attr context "value") tree
     else ret None) in
  if truthy first && negb (bool_decide (first = Some "Any")) then ret first
  else
    let* types :=
      assignment_types depth tree (_find_assignments var_name tree) ∅ in
    if decide (types = ∅) then ret any_or_none
    else ret (Some (_unify_types types)).

(** [_type_str_to_ast]; the fallback [ast.Name(id='Any', ctx=ast.Load())]
    is a new object, [fresh] is its identity. *)
Definition _type_str_to_ast (fresh : nat) (type_str : string) : value :=
  match parse_eval type_str with
  | Some node => node
  | None => Name_ fresh None "Any" (VNode (S fresh) "Load" None [])
  end.

End Inferrer.
End TypeInferrer.

(* ===================================================================== *)
(** * type_guardian/fixers/optional_fixer.py                              *)
(* ===================================================================== *)

Module OptionalFixer.

Definition can_fix (err : error) (tree : value) : bool :=
  String.eqb (category err) "optional_none".

Definition _find_node_at_line (tree : value) (line : nat) : option value :=
  snd <$> list_find (λ node, lineno_of node = Some line) (walk tree).

Definition _checks_none (test : value) (var_name : string) : bool :=
  isinstance test "Compare"
  && (isinstance (attr test "left") "Name"
      && String.eqb (attr_str (attr test "left") "id") var_name)
  && existsb (λ op, isinstance_any op ["IsNot"; "Is"]) (attr_list test "ops")
  && existsb (λ c, isinstance c "Constant" && is_none (attr c "value"))
       (attr_list test "comparators").

Definition _node_in_body (node : value) (body : list value) : bool :=
  existsb (λ item, existsb (λ child, is_ child node) (walk item)) body.

Definition _is_already_guarded (tree node : value) (var_name : string)
  : bool :=
  existsb (λ parent,
    isinstance parent "If"
    && _checks_none (attr parent "test") var_name
    && _node_in_body node (attr_list parent "body")) (walk tree).

Definition _replace_node (tree old_node new_node : value) : value :=
  match scan_parents (walk_paths tree) old_node with
  | Some (p, i) =>
      update_at p (λ parent,
        set_child parent i (copy_location new_node old_node)) tree
  | None => tree
  end.

(** The objects [_fix_optional_attribute_access] creates, numbered from
    [u] in the order Python creates them. *)
Definition none_check (u : nat) (var_name : string) : value :=
  VNode (u + 4) "Compare" None
    [("left", VNode (u + 1) "Name" None
                [("id", VStr var_name); ("ctx", VNode u "Load" None [])]);
     ("ops", VList [VNode (u + 2) "IsNot" None []]);
     ("comparators", VList [VNode (u + 3) "Constant" None [("value", VNone)]])].

Definition conditional (u : nat) (var_name : string) (node : value) : value :=
  VNode (u + 6) "IfExp" None
    [("test", none_check u var_name);
     ("body", node);
     ("orelse", VNode (u + 5) "Constant" None [("value", VNone)])].

Definition _fix_optional_attribute_access (node tree : value) (err : error)
  : value * bool :=
  if negb (isinstance (attr node "value") "Name") then (tree, false)
  else
    let var_name := attr_str (attr node "value") "id" in
    if _is_already_guarded tree node var_name then (tree, false)
    else
      (_replace_node tree node (conditional (S (max_uid tree)) var_name node),
       true).

Definition _fix_optional_call (node tree : value) (err : error)
  : value * bool :=
  if isinstance (attr node "func") "Attribute"
  then _fix_optional_attribute_access (attr node "func") tree err
  else (tree, false).

Definition fix_ (err : error) (tree : value) : value * bool :=
  match _find_node_at_line tree (line err) with
  | None => (tree, false)
  | Some node =>
      if isinstance node "Attribute"
      then _fix_optional_attribute_access node tree err
      else if isinstance node "Call"
      then _fix_optional_call node tree err
      else (tree, false)
  end.

End OptionalFixer.

(* ===================================================================== *)
(** * type_guardian/fixers/missing_hints.py                               *)
(* ===================================================================== *)

Module MissingHintsFixer.
Import TypeInferrer.

Section Fixer.
Context `{PyLib}.
Variable strict : bool.

Definition can_fix (err : error) (tree : value) : bool :=
  String.eqb (category err) "missing_type_hint".

(** [_find_node_at_line], with the place of the node found: the fixer
    goes on to assign to its attributes. *)
Definition _find_node_at_line (tree : value) (line : nat)
  : option (path * value) :=
  snd <$> list_find (λ pn, lineno_of (snd pn) = Some line) (walk_paths tree).

Definition _type_str_to_ast (fresh : nat) (type_str : string) : value :=
  TypeInferrer._type_str_to_ast fresh type_str.

(** This class's [_replace_node] has no [ast.copy_location] call. *)
Definition _replace_node (tree old_node new_node : value) : value :=
  match scan_parents (walk_paths tree) old_node with
  | Some (p, i) => update_at p (λ parent, set_child parent i new_node) tree
  | None => tree
  end.

(** [arg.annotation = ann] for the [i]-th element of [node.args.args]. *)
Definition set_arg_annotation (node : value) (i : nat) (ann : value) : value :=
  let arguments := attr node "args" in
  match attr_list arguments "args" !! i with
  | Some arg =>
      setattr node "args"
        (setattr arguments "args"
           (VList (<[i := setattr arg "annotation" ann]>
                     (attr_list arguments "args"))))
  | None => node
  end.

(** The loop [for arg in node.args.args] of [_fix_function_hints]; [i] is
    the position reached, [n] the number of arguments left. *)
Fixpoint param_loop (depth fresh : nat) (n i : nat) (node : value)
    (modified : bool) : M (value * bool) :=
  match n with
  | 0 => ret (node, modified)
  | S n' =>
      match attr_list (attr node "args") "args" !! i with
      | None => ret (node, modified)
      | Some arg =>
          if is_node (attr arg "annotation")
          then param_loop depth fresh n' (S i) node modified
          else
            let* param_type :=
              infer_param_type strict depth (attr_str arg "arg") node in
            if truthy param_type
            then param_loop depth fresh n' (S i)
                   (set_arg_annotation node i
                      (_type_str_to_ast fresh (default "" param_type)))
                   true
            else param_loop depth fresh n' (S i) node modified
      end
  end.

Definition _fix_function_hints (depth : nat) (p : path) (node tree : value)
    (err : error) : M (value * bool) :=
  let fresh := S (max_uid tree) in
  let* (node, modified) :=
    (if contains "return type" (lower (message err))
        && negb (is_node (attr node "returns"))
     then
       let* return_type := infer_return_type strict depth node in
       if truthy return_type
       then ret (setattr node "returns"
                   (_type_str_to_ast fresh (default "" return_type)), true)
       else ret (node, false)
     else ret (node, false)) in
  let* (node, modified) :=
    param_loop depth fresh (length (attr_list (attr node "args") "args")) 0
      node modified in
  ret (update_at p (λ _, node) tree, modified).

Definition _fix_variable_hint (depth : nat) (node tree : value) (err : error)
  : M (value * bool) :=
  match attr_list node "targets" with
  | [target] =>
      if negb (isinstance target "Name") then ret (tree, false)
      else
        let var_name := attr_str target "id" in
        let* var_type := infer_variable_type strict depth var_name node tree in
        if negb (truthy var_type) then ret (tree, false)
        else
          let fresh := S (max_uid tree) in
          let ann_assign :=
            AnnAssign_ (fresh + 2) None target
              (_type_str_to_ast fresh (default "" var_type))
              (attr node "value") in
          ret (_replace_node tree node ann_assign, true)
  | _ => ret (tree, false)
  end.

Definition fix_ (depth : nat) (err : error) (tree : value)
  : M (value * bool) :=
  match _find_node_at_line tree (line err) with
  | None => ret (tree, false)
  | Some (p, node) =>
      if isinstance node "FunctionDef"
      then _fix_function_hints depth p node tree err
      else if isinstance node "Assign"
      then _fix_variable_hint depth node tree err
      else ret (tree, false)
  end.

End Fixer.
End MissingHintsFixer.

(* ===================================================================== *)
(** * type_guardian/fixers/collection_fixer.py                            *)
(* ===================================================================== *)

Module CollectionFixer.

Definition can_fix (err : error) (tree : value) : bool :=
  String.eqb (category err) "collection_type".

Definition has_target (node : value) (var_name : string) : bool :=
  existsb (λ target,
    isinstance target "Name" && String.eqb (attr_str target "id") var_name)
    (attr_list node "targets").

Definition _find_assignment (tree : value) (var_name : string) (line : nat)
  : option value :=
  snd <$> list_find (λ node,
    isinstance node "Assign" = true ∧ lineno_of node = Some line
    ∧ has_target node var_name = true) (walk tree).

Definition _get_expr_type (node : value) : option string :=
  if isinstance node "Constant" then Some (type_name (attr node "value"))
  else if isinstance node "Name" then None
  else if isinstance node "Call" then
    if isinstance (attr node "func") "Name"
    then Some (attr_str (attr node "func") "id")
    else None
  else None.

(** The set of the types [_get_expr_type] finds for a list of expressions,
    those that are [None] or empty left out ([if elt_type:]). *)
Definition expr_types (l : list value) : gset string :=
  list_to_set (List.filter (λ s, negb (String.eqb s "")) (omap _get_expr_type l)).

Definition _infer_from_literal (node : value) : option string :=
  if isinstance_any node ["List"; "Set"] then
    match attr_list node "elts" with
    | [] => None
    | elts =>
        let types := expr_types elts in
        match elements types with
        | [] => None
        | [t] => Some t
        | _ => Some ("Union[" +:+ join (sorted (elements types)) +:+ "]")
        end
    end
  else None.

(** [zip(node.keys, node.values)]; a key is [None] for a [**mapping] item. *)
Definition _infer_dict_types (node : value) : option string * option string :=
  match attr_list node "keys" with
  | [] => (None, None)
  | keys =>
      let pairs := zip keys (attr_list node "values") in
      let key_types := expr_types (List.filter is_node (fst <$> pairs)) in
      let val_types := expr_types (snd <$> pairs) in
      (Some (match elements key_types with [t] => t | _ => "str" end),
       Some (match elements val_types with [t] => t | _ => "Any" end))
  end.

(** The first arguments of the [var_name.append(..)] and
    [var_name.add(..)] calls of the tree. *)
Definition appended_args (tree : value) (var_name : string) : list value :=
  flat_map (λ node,
    if isinstance node "Call"
       && isinstance (attr node "func") "Attribute"
       && isinstance (attr (attr node "func") "value") "Name"
       && String.eqb (attr_str (attr (attr node "func") "value") "id") var_name
       && in_list (attr_str (attr node "func") "attr") ["append"; "add"]
    then match attr_list node "args" with
         | a :: _ => [a]
         | [] => []
         end
    else []) (walk tree).

Definition _infer_from_usage (tree : value) (var_name : string)
  : option string :=
  let appended_types := expr_types (appended_args tree var_name) in
  match elements appended_types with
  | [] => None
  | [t] => Some ("List[" +:+ t +:+ "]")
  | _ =>
      Some ("List[Union[" +:+ join (sorted (elements appended_types)) +:+ "]]")
  end.

Definition truthy (o : option string) : bool := TypeInferrer.truthy o.

Definition literal_default (v : value) : option string :=
  if isinstance v "List" then Some "List[Any]"
  else if isinstance v "Dict" then Some "Dict[str, Any]"
  else if isinstance v "Set" then Some "Set[Any]"
  else None.

Definition usage_or_default (node tree : value) (var_name : string)
  : option string :=
  let usage_type := _infer_from_usage tree var_name in
  if truthy usage_type then usage_type
  else literal_default (attr node "value").

Definition _infer_collection_type (node tree : value) (var_name : string)
  : option string :=
  let v := attr node "value" in
  if isinstance_any v ["List"; "Set"] then
    let element_type := _infer_from_literal v in
    if truthy element_type then
      let container := if isinstance v "List" then "List" else "Set" in
      Some (container +:+ "[" +:+ default "" element_type +:+ "]")
    else usage_or_default node tree var_name
  else if isinstance v "Dict" then
    match _infer_dict_types v with
    | (Some key_type, Some val_type) =>
        if truthy (Some key_type) && truthy (Some val_type)
        then Some ("Dict[" +:+ key_type +:+ ", " +:+ val_type +:+ "]")
        else usage_or_default node tree var_name
    | _ => usage_or_default node tree var_name
    end
  else usage_or_default node tree var_name.

Section Fixer.
Context `{PyLib}.

Definition _type_str_to_ast (fresh : nat) (type_str : string) : value :=
  TypeInferrer._type_str_to_ast fresh type_str.

Definition _replace_node (tree old_node new_node : value) : value :=
  match scan_parents (walk_paths tree) old_node with
  | Some (p, i) =>
      update_at p (λ parent,
        set_child parent i (copy_location new_node old_node)) tree
  | None => tree
  end.

(** [ast.AnnAssign(target=node.targets[0], annotation=..., value=node.value,
    simple=1)] *)
Definition ann_assign (fresh : nat) (node : value) (collection_type : string)
  : value :=
  AnnAssign_ (fresh + 2) None
    (default VNone (head (attr_list node "targets")))
    (_type_str_to_ast fresh collection_type)
    (attr node "value").

Definition fix_ (err : error) (tree : value) : value * bool :=
  match context err !! "name" with
  | None => (tree, false)
  | Some var_name =>
      if String.eqb var_name "" then (tree, false)
      else
        match _find_assignment tree var_name (line err) with
        | None => (tree, false)
        | Some node =>
            let collection_type := _infer_collection_type node tree var_name in
            if negb (truthy collection_type) then (tree, false)
            else
              (_replace_node tree node
                 (ann_assign (S (max_uid tree)) node
                    (default "" collection_type)),
               true)
        end
  end.

End Fixer.
End CollectionFixer.

(* ===================================================================== *)
(** * type_guardian/fixers/import_fixer.py                                *)
(* ===================================================================== *)

Module ImportFixer.

Definition TYPING_IMPORTS : gset string :=
  list_to_set
    [ "List"; "Dict"; "Set"; "Tuple"; "Optional"; "Union"; "Any";
      "TypeVar"; "Generic"; "Protocol"; "Callable"; "Iterable";
      "Sequence"; "Mapping"; "Type"; "ClassVar"; "Final" ].

(** [tree.body] *)
Definition body (tree : value) : list value := attr_list tree "body".

(** What one node of the inner walk adds to [needed]. *)
Definition annotation_names (child : value) : list string :=
  if isinstance child "Name" then
    if bool_decide (attr_str child "id" ∈ TYPING_IMPORTS)
    then [attr_str child "id"] else []
  else if isinstance child "Subscript" then
    if isinstance (attr child "value") "Name"
       && bool_decide (attr_str (attr child "value") "id" ∈ TYPING_IMPORTS)
    then [attr_str (attr child "value") "id"] else []
  else [].

Definition is_typevar_assign (node : value) : bool :=
  isinstance node "Assign"
  && isinstance (attr node "value") "Call"
  && isinstance (attr (attr node "value") "func") "Name"
  && String.eqb (attr_str (attr (attr node "value") "func") "id") "TypeVar".

Definition _find_needed_imports (tree : value) : gset string :=
  list_to_set
    (flat_map (λ node,
       (if isinstance_any node ["FunctionDef"; "arg"; "AnnAssign"]
        then flat_map annotation_names (walk node) else [])
       ++ (if is_typevar_assign node then ["TypeVar"] else []))
     (walk tree)).

Definition is_typing_from (node : value) : bool :=
  isinstance node "ImportFrom" && String.eqb (attr_str node "module") "typing".

Definition alias_names (node : value) : list string :=
  (λ alias, attr_str alias "name") <$> attr_list node "names".

(** The loop of [_find_existing_imports]; [None] is the early
    [return self.TYPING_IMPORTS.copy()]. *)
Fixpoint alias_loop (names : list string) (existing : gset string)
  : option (gset string) :=
  match names with
  | [] => Some existing
  | name :: rest =>
      if String.eqb name "*" then None
      else alias_loop rest ({[name]} ∪ existing)
  end.

Fixpoint existing_loop (nodes : list value) (existing : gset string)
  : gset string :=
  match nodes with
  | [] => existing
  | node :: rest =>
      if isinstance node "ImportFrom" then
        if String.eqb (attr_str node "module") "typing" then
          match alias_loop (alias_names node) existing with
          | None => TYPING_IMPORTS
          | Some existing' => existing_loop rest existing'
          end
        else existing_loop rest existing
      else if isinstance node "Import" then
        if in_list "typing" (alias_names node) then TYPING_IMPORTS
        else existing_loop rest existing
      else existing_loop rest existing
  end.

Definition _find_existing_imports (tree : value) : gset string :=
  existing_loop (body tree) ∅.

Definition is_import (node : value) : bool :=
  isinstance_any node ["Import"; "ImportFrom"].

Definition starts_with_docstring (b : list value) : bool :=
  match b with
  | first :: _ =>
      isinstance first "Expr" && isinstance (attr first "value") "Constant"
  | [] => false
  end.

(** [for i, node in enumerate(tree.body[insert_pos:], start=insert_pos)] *)
Fixpoint first_non_import (i : nat) (nodes : list value) : nat :=
  match nodes with
  | [] => i
  | node :: rest => if is_import node then first_non_import (S i) rest else i
  end.

Definition _find_import_position (tree : value) : nat :=
  let insert_pos := if starts_with_docstring (body tree) then 1 else 0 in
  first_non_import insert_pos (drop insert_pos (body tree)).

(** [ast.alias(name=name, asname=None) for name in sorted(names)], the new
    objects numbered from [fresh]. *)
Definition new_aliases (fresh : nat) (names : gset string) : list value :=
  imap (λ i name, alias_ (fresh + i) None name) (sorted (elements names)).

(** [node.names.extend(..)] *)
Definition extend_names (fresh : nat) (node : value) (imports : gset string)
  : value :=
  let existing_names : gset string := list_to_set (alias_names node) in
  let new_names := imports ∖ existing_names in
  if decide (new_names = ∅) then node
  else setattr node "names"
         (VList (attr_list node "names" ++ new_aliases fresh new_names)).

(** The loop of [_add_import_statement] over [tree.body]: the first typing
    import is extended, [None] when there is none. *)
Fixpoint extend_first (fresh : nat) (nodes : list value) (imports : gset string)
  : option (list value) :=
  match nodes with
  | [] => None
  | node :: rest =>
      if is_typing_from node
      then Some (extend_names fresh node imports :: rest)
      else cons node <$> extend_first fresh rest imports
  end.

(** [l.insert(i, x)] *)
Definition list_insert_at {A} (i : nat) (x : A) (l : list A) : list A :=
  take i l ++ x :: drop i l.

Definition _add_import_statement (tree : value) (imports : gset string)
  : value :=
  let fresh := S (max_uid tree) in
  let insert_pos := _find_import_position tree in
  match extend_first fresh (body tree) imports with
  | Some body' => setattr tree "body" (VList body')
  | None =>
      let import_node :=
        VNode (fresh + size imports) "ImportFrom" None
          [("module", VStr "typing");
           ("names", VList (new_aliases fresh imports));
           ("level", VInt 0)] in
      setattr tree "body"
        (VList (list_insert_at insert_pos import_node (body tree)))
  end.

Definition add_missing_imports (tree : value) : value * nat :=
  let needed_imports := _find_needed_imports tree in
  let existing_imports := _find_existing_imports tree in
  let missing := needed_imports ∖ existing_imports in
  if decide (missing = ∅) then (tree, 0)
  else (_add_import_statement tree missing, size missing).

(** ** [merge_typing_imports] *)

(** [all_typing_names]: the names, other than [*], of the aliases of the
    module-level [from typing import ...] statements. *)
Definition all_typing_names (nodes : list value) : gset string :=
  list_to_set
    (flat_map (λ node,
       if is_typing_from node
       then List.filter (λ name, negb (String.eqb name "*")) (alias_names node)
       else []) nodes).

(** [other_nodes]: the statements that are no typing import, in order. *)
Definition other_nodes (nodes : list value) : list value :=
  List.filter (λ node, negb (is_typing_from node)) nodes.

Definition merge_typing_imports (tree : value) : value :=
  let fresh := S (max_uid tree) in
  let names := all_typing_names (body tree) in
  let others := other_nodes (body tree) in
  if decide (names = ∅) then setattr tree "body" (VList others)
  else
    let merged_import :=
      VNode (fresh + size names) "ImportFrom" None
        [("module", VStr "typing");
         ("names", VList (new_aliases fresh names));
         ("level", VInt 0)] in
    let insert_pos := if starts_with_docstring others then 1 else 0 in
    setattr tree "body"
      (VList (list_insert_at insert_pos merged_import others)).

End ImportFixer.

(** ** [ImportOptimizer] *)

Module ImportOptimizer.
Import ImportFixer.

Definition _find_used_names (tree : value) : gset string :=
  list_to_set
    (flat_map (λ node,
       if isinstance node "Name" then [attr_str node "id"] else [])
     (walk tree)).

(** [alias.name in used_names or alias.name == '*'] *)
Definition is_used (used_names : gset string) (alias : value) : bool :=
  bool_decide (attr_str alias "name" ∈ used_names)
  || String.eqb (attr_str alias "name") "*".

(** One iteration of the loop over [tree.body]: what the statement
    contributes to [new_body]. *)
Definition keep_used (used_names : gset string) (node : value) : list value :=
  if is_typing_from node then
    match List.filter (is_used used_names) (attr_list node "names") with
    | [] => []
    | used_aliases => [setattr node "names" (VList used_aliases)]
    end
  else [node].

Definition remove_unused_imports (tree : value) : value :=
  let used_names := _find_used_names tree in
  setattr tree "body" (VList (flat_map (keep_used used_names) (body tree))).

End ImportOptimizer.

(* ===================================================================== *)
(** * type_guardian/fixers/generic_fixer.py                               *)
(* ===================================================================== *)

Module GenericFixer.

Definition can_fix (err : error) (tree : value) : bool :=
  String.eqb (category err) "generic_type".

Definition _find_node_at_line (tree : value) (line : nat)
  : option (path * value) :=
  snd <$> list_find (λ pn, lineno_of (snd pn) = Some line) (walk_paths tree).

Definition is_typevar_def (node : value) : bool :=
  isinstance node "Assign"
  && isinstance (attr node "value") "Call"
  && isinstance (attr (attr node "value") "func") "Name"
  && String.eqb (attr_str (attr (attr node "value") "func") "id") "TypeVar"
  && match attr_list node "targets" with
     | first :: _ => isinstance first "Name"
     | [] => false
     end.

(** [T = TypeVar('T')], built from new objects numbered from [u]. *)
Definition typevar_assign (u : nat) (type_var_name : string) : value :=
  VNode (u + 6) "Assign" None
    [("targets",
      VList [VNode (u + 1) "Name" None
               [("id", VStr type_var_name); ("ctx", VNode u "Store" None [])]]);
     ("value",
      VNode (u + 5) "Call" None
        [("func", VNode (u + 3) "Name" None
                    [("id", VStr "TypeVar"); ("ctx", VNode (u + 2) "Load" None [])]);
         ("args", VList [VNode (u + 4) "Constant" None
                           [("value", VStr type_var_name)]]);
         ("keywords", VList [])])].

(** The loop that looks for the insertion point: after the last import
    that comes before the first function definition. *)
Fixpoint typevar_position (i insert_pos : nat) (nodes : list value) : nat :=
  match nodes with
  | [] => insert_pos
  | node :: rest =>
      if isinstance_any node ["Import"; "ImportFrom"]
      then typevar_position (S i) (S i) rest
      else if isinstance node "FunctionDef" then insert_pos
      else typevar_position (S i) insert_pos rest
  end.

(** [_find_or_create_typevar]: the name, the tree after the possible
    insertion and, when a declaration was inserted, its index in
    [tree.body]. *)
Definition _find_or_create_typevar (tree func : value)
  : string * value * option nat :=
  match list_find (λ node, is_typevar_def node = true) (walk tree) with
  | Some (_, node) =>
      (attr_str (default VNone (head (attr_list node "targets"))) "id",
       tree, None)
  | None =>
      let type_var_name := "T" in
      let b := attr_list tree "body" in
      let insert_pos := typevar_position 0 0 b in
      ("T",
       setattr tree "body"
         (VList (ImportFixer.list_insert_at insert_pos
                   (typevar_assign (S (max_uid tree)) type_var_name) b)),
       Some insert_pos)
  end.

Definition _needs_type_param (annotation : value) : bool :=
  isinstance annotation "Name"
  && in_list (attr_str annotation "id")
       ["List"; "Dict"; "Set"; "Tuple"; "Optional"; "Union"].

Definition new_name (u : nat) (id : string) : value :=
  VNode (S u) "Name" None [("id", VStr id); ("ctx", VNode u "Load" None [])].

Definition _add_type_param (u : nat) (annotation : value) (type_var : string)
  : value :=
  if isinstance annotation "Name" then
    let generic_type := attr_str annotation "id" in
    if in_list generic_type ["List"; "Set"; "Optional"] then
      VNode (u + 5) "Subscript" None
        [("value", new_name u generic_type);
         ("slice", new_name (u + 2) type_var);
         ("ctx", VNode (u + 4) "Load" None [])]
    else if String.eqb generic_type "Dict" then
      VNode (u + 8) "Subscript" None
        [("value", new_name u "Dict");
         ("slice",
          VNode (u + 6) "Tuple" None
            [("elts", VList [new_name (u + 2) "str"; new_name (u + 4) type_var]);
             ("ctx", VNode (u + 7) "Load" None [])]);
         ("ctx", VNode (u + 9) "Load" None [])]
    else annotation
  else annotation.

(** The loop [for arg in node.args.args]. *)
Fixpoint param_loop (u : nat) (type_var : string) (n i : nat) (node : value)
    (modified : bool) : value * bool :=
  match n with
  | 0 => (node, modified)
  | S n' =>
      match attr_list (attr node "args") "args" !! i with
      | None => (node, modified)
      | Some arg =>
          if is_node (attr arg "annotation")
             && _needs_type_param (attr arg "annotation")
          then param_loop (u + 10) type_var n' (S i)
                 (MissingHintsFixer.set_arg_annotation node i
                    (_add_type_param u (attr arg "annotation") type_var))
                 true
          else param_loop u type_var n' (S i) node modified
      end
  end.

(** A declaration inserted at index [pos] of [tree.body] moves the nodes
    that follow it. *)
Definition shift_path (pos : option nat) (p : path) : path :=
  match pos, p with
  | Some k, i :: rest => if (k <=? i)%nat then S i :: rest else p
  | _, _ => p
  end.

Definition _fix_generic_function (p : path) (node tree : value) (err : error)
  : value * bool :=
  let '(type_var_name, tree, inserted) := _find_or_create_typevar tree node in
  if String.eqb type_var_name "" then (tree, false)
  else
    let u := S (max_uid tree) in
    let n := length (attr_list (attr node "args") "args") in
    let '(node, modified) := param_loop u type_var_name n 0 node false in
    let '(node, modified) :=
      if is_node (attr node "returns")
         && _needs_type_param (attr node "returns")
      then (setattr node "returns"
              (_add_type_param (u + 10 * n) (attr node "returns")
                 type_var_name), true)
      else (node, modified) in
    (update_at (shift_path inserted p) (λ _, node) tree, modified).

Definition fix_ (err : error) (tree : value) : value * bool :=
  match _find_node_at_line tree (line err) with
  | None => (tree, false)
  | Some (p, node) =>
      if isinstance node "FunctionDef"
      then _fix_generic_function p node tree err
      else (tree, false)
  end.

(** This class's [_replace_node] (it has no caller) has no
    [ast.copy_location] call either. *)
Definition _replace_node (tree old_node new_node : value) : value :=
  match scan_parents (walk_paths tree) old_node with
  | Some (p, i) => update_at p (λ parent, set_child parent i new_node) tree
  | None => tree
  end.

End GenericFixer.

(* ===================================================================== *)
(** * type_guardian/runner.py: [TypeGuardianRunner.auto_fix_all]          *)
(* ===================================================================== *)

Module Runner.
Import TypeInferrer.

(** The counters of the [results] dictionary and the review list. *)
Inductive review_entry : Type :=
| syntax_error (file : string)
| unhandled (err : error).

Record results := Results {
  hints_added : nat;
  optional_fixed : nat;
  imports_added : nat;
  generics_fixed : nat;
  manual_review : list review_entry
}.

Definition no_results : results := Results 0 0 0 0 [].

(** What a run hands to the file system: a tree, written as
    [ast.unparse] of it, or a text. *)
Inductive content : Type :=
| Source (tree : value)
| Text (s : string).

(** The newline character. *)
Definition nl : string := String "010"%char "".

(** [errors_by_file]: a dictionary keeps the order in which its keys were
    first inserted. *)
Fixpoint add_error (err : error) (groups : list (string * list error))
  : list (string * list error) :=
  match groups with
  | [] => [(file err, [err])]
  | (f, errs) :: rest =>
      if String.eqb f (file err) then (f, errs ++ [err]) :: rest
      else (f, errs) :: add_error err rest
  end.

Definition errors_by_file (errors : list error) : list (string * list error) :=
  foldl (λ groups err, add_error err groups) [] errors.

Section Run.
Context `{PyLib}.

(** Reading and parsing a file: [None] when the path does not exist,
    [Some None] when [ast.parse] raises [SyntaxError]. *)
Variable read_tree : string → option (option value).
Variable dry_run : bool.
Variable strict : bool.
Variable depth : nat.

(** The loop [for error in file_errors], one iteration.  The one
    [hint_fixer] of the run is the monad's state. *)
Definition apply_error (err : error) (st : value * bool * results)
  : M (value * bool * results) :=
  let '(tree, modified, res) := st in
  let cat := category err in
  if String.eqb cat "missing_type_hint" then
    if MissingHintsFixer.can_fix err tree then
      let* (tree', fixed) := MissingHintsFixer.fix_ strict depth err tree in
      if (fixed : bool)
      then ret (tree', true,
                Results (S (hints_added res)) (optional_fixed res)
                  (imports_added res) (generics_fixed res) (manual_review res))
      else ret (tree', modified, res)
    else ret st
  else if String.eqb cat "optional_none" then
    if OptionalFixer.can_fix err tree then
      let '(tree', fixed) := OptionalFixer.fix_ err tree in
      if (fixed : bool)
      then ret (tree', true,
                Results (hints_added res) (S (optional_fixed res))
                  (imports_added res) (generics_fixed res) (manual_review res))
      else ret (tree', modified, res)
    else ret st
  else if String.eqb cat "generic_type" then
    if GenericFixer.can_fix err tree then
      let '(tree', fixed) := GenericFixer.fix_ err tree in
      if (fixed : bool)
      then ret (tree', true,
                Results (hints_added res) (optional_fixed res)
                  (imports_added res) (S (generics_fixed res))
                  (manual_review res))
      else ret (tree', modified, res)
    else ret st
  else if String.eqb cat "collection_type" then
    if CollectionFixer.can_fix err tree then
      let '(tree', fixed) := CollectionFixer.fix_ err tree in
      if (fixed : bool)
      then ret (tree', true,
                Results (S (hints_added res)) (optional_fixed res)
                  (imports_added res) (generics_fixed res) (manual_review res))
      else ret (tree', modified, res)
    else ret st
  else
    ret (tree, modified,
         Results (hints_added res) (optional_fixed res) (imports_added res)
           (generics_fixed res) (manual_review res ++ [unhandled err])).

Fixpoint apply_errors (errs : list error) (st : value * bool * results)
  : M (value * bool * results) :=
  match errs with
  | [] => ret st
  | err :: rest => let* st' := apply_error err st in apply_errors rest st'
  end.

(** One iteration of [for file, file_errors in errors_by_file.items()];
    [written] collects the trees unparsed back to their files (none in a
    dry run).  The write-back calls [ast.unparse(tree)]: when that raises,
    the exception leaves [auto_fix_all] and no result is returned; what
    was written before stays on disk, which this outcome does not
    record. *)
Definition process_file (fe : string * list error)
    (st : results * list (string * value)) : M (results * list (string * value)) :=
  let '(f, file_errors) := fe in
  let '(res, written) := st in
  match read_tree f with
  | None => ret st
  | Some None =>
      ret (Results (hints_added res) (optional_fixed res) (imports_added res)
             (generics_fixed res) (manual_review res ++ [syntax_error f]),
           written)
  | Some (Some tree) =>
      let* (tree, modified, res) := apply_errors file_errors (tree, false, res) in
      if (modified : bool) then
        let '(tree, added) := ImportFixer.add_missing_imports tree in
        let res :=
          Results (hints_added res) (optional_fixed res)
            (imports_added res + added) (generics_fixed res)
            (manual_review res) in
        if dry_run then ret (res, written)
        else if unparse_raises tree then raise_attribute_error
        else ret (res, written ++ [(f, tree)])
      else ret (res, written)
  end.

Fixpoint process_files (files : list (string * list error))
    (st : results * list (string * value)) : M (results * list (string * value)) :=
  match files with
  | [] => ret st
  | fe :: rest => let* st' := process_file fe st in process_files rest st'
  end.

(** [_create_backup]: the note it writes under [backup_dir], for
    [timestamp] the reading [datetime.now().strftime('%Y%m%d-%H%M%S')] of
    the clock. *)
Variable timestamp : string.

Definition _create_backup : string * content :=
  (".type-guardian/backups/" +:+ timestamp +:+ "/README.txt",
   Text ("Backup created at " +:+ timestamp +:+ nl
         +:+ "Use git to restore if needed" +:+ nl)).

(** [auto_fix_all], with everything the run hands to the file system, in
    order: the backup note, written before anything else unless the run
    is a dry run, then the trees written back.  The fixers are created
    once, before the loop over the files; the new [MissingHintsFixer]
    starts from an empty [type_cache]. *)
Definition auto_fix_all (errors : list error)
  : outcome (results * list (string * content)) :=
  let backup := if dry_run then [] else [_create_backup] in
  match process_files (errors_by_file errors) (no_results, []) ∅ with
  | Ok (res, written, _) =>
      Ok (res, backup ++ (prod_map id Source <$> written))
  | RecursionError => RecursionError
  | AttributeError => AttributeError
  end.

End Run.
(** ** [apply_fix] *)

(** A fix suggestion: the dictionaries [TypePatternDatabase.get_fix]
    builds, with the keys [apply_fix] reads. *)
Record fix_ := Fix {
  fix_file : string;
  fix_line : Z;
  old : string;
  new : string
}.

Section ApplyFix.

(** [str.strip] and the lines [readlines] returns for a path, [None] when
    the path does not exist. *)
Variable strip : string → string.
Variable readlines : string → option (list string).

(** [apply_fix]: the result and, when the file is written back, the lines
    given to [writelines]. *)
Definition apply_fix (fx : fix_) : bool * option (list string) :=
  match readlines (fix_file fx) with
  | None => (false, None)
  | Some lines =>
      let line_num := (fix_line fx - 1)%Z in
      if (line_num <? 0)%Z || (Z.of_nat (length lines) <=? line_num)%Z
      then (false, None)
      else
        match lines !! Z.to_nat line_num with
        | None => (false, None)
        | Some old_line =>
            let new_line := new fx +:+ nl in
            if bool_decide (strip old_line = strip (old fx))
            then (true, Some (<[Z.to_nat line_num := new_line]> lines))
            else (false, None)
        end
  end.

End ApplyFix.

End Runner.

(* ===================================================================== *)
(** * type_guardian/parser.py: categories and groupings                   *)
(* ===================================================================== *)

Module MypyParser.

(** The double quote character. *)
Definition dq : string := String "034"%char "".

(** [self.error_categories]; a dictionary is scanned in the order its keys
    were inserted. *)
Definition error_categories : list (string * string) :=
  [ ("missing return type", "missing_type_hint");
    ("missing type annotation", "missing_type_hint");
    ("need type annotation", "missing_type_hint");
    ("item " +:+ dq +:+ "none" +:+ dq +:+ " of " +:+ dq +:+ "optional",
     "optional_none");
    ("optional[", "optional_none");
    ("argument .* has incompatible type", "type_mismatch");
    ("incompatible return value type", "return_type_mismatch");
    ("has type " +:+ dq +:+ "any" +:+ dq, "any_type");
    ("need type parameter", "generic_type");
    ("list[", "collection_type");
    ("dict[", "collection_type");
    ("set[", "collection_type") ].

Definition _categorize_error (message : string) : string :=
  let message_lower := lower message in
  match list_find (λ pc, contains (fst pc) message_lower = true)
          error_categories with
  | Some (_, (_, category)) => category
  | None => "unknown"
  end.

(** The loop shared by [group_by_file] and [group_by_category]:
<<
    if key not in grouped: grouped[key] = []
    grouped[key].append(error)
>> *)
Fixpoint add_to_group {A} (k : string) (x : A)
    (grouped : list (string * list A)) : list (string * list A) :=
  match grouped with
  | [] => [(k, [x])]
  | (k', xs) :: rest =>
      if String.eqb k' k then (k', xs ++ [x]) :: rest
      else (k', xs) :: add_to_group k x rest
  end.

Definition group_by {A} (key : A → string) (errors : list A)
  : list (string * list A) :=
  foldl (λ grouped x, add_to_group (key x) x grouped) [] errors.

Definition group_by_file (errors : list error) : list (string * list error) :=
  group_by file errors.

Definition group_by_category (errors : list error)
  : list (string * list error) :=
  group_by category errors.

Definition fixable_categories : list string :=
  ["missing_type_hint"; "optional_none"; "collection_type"; "generic_type"].

Definition filter_fixable (errors : list error) : list error :=
  List.filter (λ e, in_list (category e) fixable_categories) errors.

End MypyParser.

(* ===================================================================== *)
(** * Vocabulary of the specification                                     *)
(* ===================================================================== *)

(** ** Walk *)

(** [n] occurs in the tree below [t] (or is [t]). *)
Inductive subnode (n : value) : value → Prop :=
| subnode_here : subnode n n
| subnode_below t c : c ∈ iter_child_nodes t → subnode n c → subnode n t.

(** The node a path leads to. *)
Fixpoint node_at (p : path) (t : value) : option value :=
  match p with
  | [] => Some t
  | i :: p' => iter_child_nodes t !! i ≫= node_at p'
  end.

(** ** Unification *)
Import TypeInferrer.

(** The members left after the ["Any"] members are dropped. *)
Definition without_any (S : gset string) : gset string :=
  filter (λ t, t ≠ "Any") S.

(** ** NullableAccess *)
Import OptionalFixer.

(** The attribute access [OptionalFixer.fix] works on for a diagnostic at
    [line]: the node found at the line when it is an [Attribute], the
    callee of the node found when it is a [Call] of an [Attribute]. *)
Definition located_access (tree : value) (line : nat) (access : value) : Prop :=
  ∃ node, _find_node_at_line tree line = Some node
    ∧ ((isinstance node "Attribute" = true ∧ access = node)
       ∨ (isinstance node "Call" = true
          ∧ isinstance (attr node "func") "Attribute" = true
          ∧ access = attr node "func")).

(** [access] lies in the body (the then-branch) of an [if] statement of the
    tree whose test compares the name [v] against [None] with [is] or
    [is not]. *)
Definition guarded_by_if (tree access : value) (v : string) : Prop :=
  ∃ parent item,
    subnode parent tree
    ∧ isinstance parent "If" = true
    ∧ _checks_none (attr parent "test") v = true
    ∧ item ∈ attr_list parent "body"
    ∧ subnode access item.

(** [access] is nested inside a conditional of the tree, statement or
    expression, whose test compares [v] against [None]. *)
Definition nested_in_none_conditional (tree access : value) (v : string)
  : Prop :=
  ∃ parent c,
    subnode parent tree
    ∧ isinstance_any parent ["If"; "IfExp"] = true
    ∧ _checks_none (attr parent "test") v = true
    ∧ c ∈ iter_child_nodes parent
    ∧ subnode access c.

(** [y = (foo(
           user.email)
         if user is not None else None)] *)
Definition guarded_expr_access : value :=
  Attribute_ 10 (at_line 2) (Name_ 11 (at_line 2) "user" Load) "email" Load.

Definition guarded_expr_test : value :=
  Compare_ 5 (at_line 3) (Name_ 6 (at_line 3) "user" Load) [Op "IsNot"]
    [Constant_ 7 (at_line 3) VNone].

Definition guarded_expr_tree (arg : value) : value :=
  Module_ 1
    [Assign_ 2 (at_line 1) [Name_ 3 (at_line 1) "y" Store]
       (IfExp_ 4 (at_line 1) guarded_expr_test
          (Call_ 8 (at_line 1) (Name_ 9 (at_line 1) "foo" Load) [arg])
          (Constant_ 12 (at_line 3) VNone))].

(** [if user is not None:
        x = foo(
            user.email)] *)
Definition guarded_stmt_tree : value :=
  Module_ 1
    [If_ 2 (at_line 1)
       (Compare_ 3 (at_line 1) (Name_ 4 (at_line 1) "user" Load) [Op "IsNot"]
          [Constant_ 5 (at_line 1) VNone])
       [Assign_ 6 (at_line 2) [Name_ 7 (at_line 2) "x" Store]
          (Call_ 8 (at_line 2) (Name_ 9 (at_line 2) "foo" Load)
             [Attribute_ 10 (at_line 3) (Name_ 11 (at_line 3) "user" Load)
                "email" Load])]
       []].

Definition nullable_error_at (l : nat) : error :=
  Error "m.py" l "Item None of Optional[User] has no attribute email"
    "optional_none" {["name" := "user"]}.

(** ** ReturnTypes *)
Import TypeInferrer.

(** The expressions of the [return] statements that have one, in the order
    [ast.walk] meets them. *)
Definition returned_exprs (func : value) : list value :=
  flat_map (λ node,
    if isinstance node "Return" && negb (is_none (attr node "value"))
    then [attr node "value"] else []) (walk func).

(** Some [return] statement has no value. *)
Definition has_bare_return (func : value) : bool :=
  existsb (λ node, isinstance node "Return" && is_none (attr node "value"))
    (walk func).

(** The set of the types inference produced ([None] and the empty string
    are no types). *)
Definition collected (tys : list (option string)) : gset string :=
  list_to_set (omap id (List.filter truthy tys)).

(** What the code returns for the collected types and the bare-return
    flag. *)
Definition return_type_of (types : gset string) (bare : bool) : string :=
  if decide (types = ∅) then "None"
  else if bare then "Optional[" +:+ _unify_types types +:+ "]"
  else _unify_types types.

(** What the claim says it returns: ["None"] only when there is no
    [return] with a value. *)
Definition claimed_return_type (value_returns : list value)
    (tys : list (option string)) (bare : bool) : string :=
  match value_returns with
  | [] => "None"
  | _ => if bare then "Optional[" +:+ _unify_types (collected tys) +:+ "]"
         else _unify_types (collected tys)
  end.

(** No variable lookup of the context can start a nested inference: every
    name is cached or never assigned. *)
Definition lookups_settled (context : value) (c : gmap string string) : Prop :=
  ∀ v, c !! v = None → _find_assignments v context = [].

(** ** Cache *)
Import TypeInferrer.

(** A computation of the inferrer keeps every entry of [type_cache] it
    starts with. *)
Definition extends {A} (m : M A) : Prop :=
  ∀ c a c', m c = Ok (a, c') → c ⊆ c'.

(** A computation ends normally and leaves the cache as it found it. *)
Definition settles {A} (m : M A) (c : gmap string string) : Prop :=
  ∃ a, m c = Ok (a, c).

(** ** Inference *)
Import TypeInferrer.

(** A library instance for closed examples: an annotation is unparsed to
    the identifier it names, and every type string parses to a [Name]. *)
Definition names_only : PyLib :=
  {| unparse := λ v, attr_str v "id";
     parse_eval := λ s, Some (VNode 0 "Name" None
                                [("id", VStr s); ("ctx", VNode 0 "Load" None [])]) |}.

(** [def f(x):
        return x] *)
Definition returns_its_parameter : value :=
  FunctionDef_ 1 (at_line 1) "f" (arguments_ 2 [arg_ 3 (at_line 1) "x" VNone])
    [Return_ 4 (at_line 2) (Name_ 5 (at_line 2) "x" Load)] VNone.

(** [def f(c):
        if c:
            return 5
        return 3.14] *)
Definition returns_int_or_float : value :=
  FunctionDef_ 1 (at_line 1) "f" (arguments_ 2 [arg_ 3 (at_line 1) "c" VNone])
    [If_ 4 (at_line 2) (Name_ 5 (at_line 2) "c" Load)
       [Return_ 6 (at_line 3) (Constant_ 7 (at_line 3) (VInt 5))] [];
     Return_ 8 (at_line 4) (Constant_ 9 (at_line 4) (VFloat "3.14"))] VNone.

(** [def f():
        return "x"] *)
Definition returns_a_string : value :=
  FunctionDef_ 1 (at_line 1) "f" (arguments_ 2 [])
    [Return_ 3 (at_line 2) (Constant_ 4 (at_line 2) (VStr "x"))] VNone.

(** [def add(x, y):
        return x + y] *)
Definition returns_a_sum : value :=
  FunctionDef_ 1 (at_line 1) "add"
    (arguments_ 2 [arg_ 3 (at_line 1) "x" VNone; arg_ 4 (at_line 1) "y" VNone])
    [Return_ 5 (at_line 2)
       (BinOp_ 6 (at_line 2) (Name_ 7 (at_line 2) "x" Load) (Op "Add")
          (Name_ 8 (at_line 2) "y" Load))] VNone.

(** The type a usage pattern stands for in the fixed tables, if any. *)
Definition pattern_type (p : pattern) : option string :=
  match p with
  | method_call m =>
      if in_list m ["lower"; "upper"; "strip"; "split"; "replace"]
      then Some "str"
      else if in_list m ["append"; "extend"; "pop"; "remove"]
      then Some "List[Any]"
      else if in_list m ["get"; "keys"; "values"; "items"]
      then Some "Dict[str, Any]"
      else None
  | subscript (Some k) =>
      if String.eqb k "int" then Some "List[Any]"
      else if String.eqb k "str" then Some "Dict[str, Any]"
      else None
  | subscript None => None
  | iteration => Some "Iterable[Any]"
  | binop op =>
      if in_list op ["Add"; "Sub"; "Mult"; "Div"] then Some "int" else None
  end.

(** The type of the first pattern, in the order given, that the tables
    recognise. *)
Definition first_recognised (ps : list pattern) : option string :=
  head (omap pattern_type ps).

(** The shape tests of [_analyze_param_usage] on one node: a method call
    on the parameter, a subscript of it, a loop over it, a binary
    operation with it on the left. *)
Definition uses_param (param_name : string) (node : value) : bool :=
  let is_param v :=
    isinstance v "Name" && String.eqb (attr_str v "id") param_name in
  (isinstance node "Call" && isinstance (attr node "func") "Attribute"
   && is_param (attr (attr node "func") "value"))
  || (isinstance node "Subscript" && is_param (attr node "value"))
  || (isinstance node "For" && is_param (attr node "iter"))
  || (isinstance node "BinOp" && is_param (attr node "left")).

Section UsageAt.
Context `{PyLib}.
Variable strict : bool.

(** The pattern one node of the scan contributes. *)
Definition usage_at (depth : nat) (param_name : string) (func node : value)
  : M (option pattern) :=
  if negb (uses_param param_name node) then ret None
  else if isinstance node "Call" then
    ret (Some (method_call (attr_str (attr node "func") "attr")))
  else if isinstance node "Subscript" then
    let* key_type := _infer_expr_type strict depth (attr node "slice") func in
    ret (Some (subscript key_type))
  else if isinstance node "For" then ret (Some iteration)
  else ret (Some (binop (type_name (attr node "op")))).

End UsageAt.

(** [p.<method>()] as an expression statement at line [l]; objects
    numbered from [u]. *)
Definition method_stmt (u l : nat) (p method : string) (args : list value)
  : value :=
  Expr_ u (at_line l)
    (Call_ (u + 1) (at_line l)
       (Attribute_ (u + 2) (at_line l) (Name_ (u + 3) (at_line l) p Load)
          method Load) args).

(** [def f(p):
        p.foo()
        p.<method>()] *)
Definition calls_foo_then (method : string) : value :=
  FunctionDef_ 1 (at_line 1) "f" (arguments_ 2 [arg_ 3 (at_line 1) "p" VNone])
    [method_stmt 10 2 "p" "foo" []; method_stmt 20 3 "p" method []] VNone.

(** [def f(p):
        p.append(1)] *)
Definition appends_to_parameter : value :=
  FunctionDef_ 1 (at_line 1) "f" (arguments_ 2 [arg_ 3 (at_line 1) "p" VNone])
    [method_stmt 10 2 "p" "append" [Constant_ 14 (at_line 2) (VInt 1)]] VNone.

(** [def f():
        return []] *)
Definition returns_empty_list : value :=
  FunctionDef_ 1 (at_line 1) "f" (arguments_ 2 [])
    [Return_ 3 (at_line 2) (List_ 4 (at_line 2) [])] VNone.

(** [x = []] *)
Definition assigns_empty_list : value :=
  Assign_ 2 (at_line 1) [Name_ 3 (at_line 1) "x" Store] (List_ 4 (at_line 1) []).

(** ** Batch *)
Import TypeInferrer.

(** Two files of one batch.
    [a.py]:  [x = 1]   / [y = x]
    [b.py]:  [x = "s"] / [z = x]  *)
Definition file_assigning (v : value) (target : string) : value :=
  Module_ 1
    [Assign_ 2 (at_line 1) [Name_ 3 (at_line 1) "x" Store]
       (Constant_ 4 (at_line 1) v);
     Assign_ 5 (at_line 2) [Name_ 6 (at_line 2) target Store]
       (Name_ 7 (at_line 2) "x" Load)].

Definition two_files (f : string) : option (option value) :=
  if String.eqb f "a.py" then Some (Some (file_assigning (VInt 1) "y"))
  else if String.eqb f "b.py" then Some (Some (file_assigning (VStr "s") "z"))
  else None.

Definition missing_hint (f : string) (l : nat) : error :=
  Error f l "Need type annotation for variable" "missing_type_hint" ∅.

(** The annotation of the second statement of a written file. *)
Definition second_annotation (written : list (string * value)) (f : string)
  : list string :=
  flat_map (λ fw,
    if String.eqb (fst fw) f
    then match attr_list (snd fw) "body" with
         | [_; stmt] => [attr_str (attr stmt "annotation") "id"]
         | _ => []
         end
    else []) written.

(** The trees a run wrote back. *)
Definition written_files
    (r : outcome (Runner.results * list (string * value) * gmap string string))
  : list (string * value) :=
  match r with
  | Ok (_, written, _) => written
  | RecursionError => []
  | AttributeError => []
  end.

Abbreviation run_batch files :=
  (@Runner.process_files names_only two_files false false 10 files
     (Runner.no_results, []) ∅) (only parsing).

(** ** Collections *)
Import CollectionFixer.

(** The element type a set of types stands for: nothing, its only member,
    or the [Union] of its members in sorted order. *)
Definition element_type (types : gset string) : option string :=
  match elements types with
  | [] => None
  | [t] => Some t
  | _ => Some ("Union[" +:+ join (sorted (elements types)) +:+ "]")
  end.

(** The annotation a set of appended types stands for: [List] of its only
    member, [List] of the sorted [Union] of its members, [List[Any]] when
    nothing was appended. *)
Definition list_of (types : gset string) : string :=
  match elements types with
  | [] => "List[Any]"
  | [t] => "List[" +:+ t +:+ "]"
  | _ => "List[Union[" +:+ join (sorted (elements types)) +:+ "]]"
  end.

(** The type read off an expression: the name of a constant's type, the
    callee's name for a call of a named constructor; nothing else has
    one. *)
Definition read_off (e : value) (t : string) : Prop :=
  (isinstance e "Constant" = true ∧ t = type_name (attr e "value"))
  ∨ (isinstance e "Call" = true ∧ isinstance (attr e "func") "Name" = true
     ∧ t = attr_str (attr e "func") "id").

(** [types] is the set of the types read off the expressions [es]. *)
Definition types_read_off (es : list value) (types : gset string) : Prop :=
  ∀ t, t ∈ types ↔ t ≠ "" ∧ ∃ e, e ∈ es ∧ read_off e t.

(** [a] is the first argument of a call [var_name.append(a, ...)] or
    [var_name.add(a, ...)] somewhere in the tree. *)
Definition appended (tree : value) (var_name : string) (a : value) : Prop :=
  ∃ call,
    subnode call tree
    ∧ isinstance call "Call" = true
    ∧ isinstance (attr call "func") "Attribute" = true
    ∧ isinstance (attr (attr call "func") "value") "Name" = true
    ∧ attr_str (attr (attr call "func") "value") "id" = var_name
    ∧ (attr_str (attr call "func") "attr" = "append"
       ∨ attr_str (attr call "func") "attr" = "add")
    ∧ head (attr_list call "args") = Some a.

(** [types] is the set of the types read off what is appended or added to
    [var_name] anywhere in the tree. *)
Definition appended_types (tree : value) (var_name : string)
    (types : gset string) : Prop :=
  ∀ t, t ∈ types ↔ t ≠ "" ∧ ∃ a, appended tree var_name a ∧ read_off a t.





(** ** Imports *)
Import ImportFixer.





(** The names [add_missing_imports] finds missing. *)
Definition missing_imports (tree : value) : gset string :=
  _find_needed_imports tree ∖ _find_existing_imports tree.






(** ** Replacement *)

(** [x = 1] at line 1, and the annotated assignment a fixer builds for it
    (a new object, without location attributes). *)
Definition plain_assign : value :=
  Assign_ 2 (at_line 1) [Name_ 3 (at_line 1) "x" Store]
    (Constant_ 4 (at_line 1) (VInt 1)).

Definition promoted_assign : value :=
  AnnAssign_ 9 None (Name_ 3 (at_line 1) "x" Store)
    (Name_ 7 None "int" Load) (Constant_ 4 (at_line 1) (VInt 1)).

(** ** Grouping and the batch *)

(** [grouped] splits [l] by [key]: one group per key that occurs, each
    group the elements with that key, in the order of [l]. *)
Definition partitioned_by {A} (key : A → string) (l : list A)
    (grouped : list (string * list A)) : Prop :=
  NoDup grouped.*1
  ∧ (∀ k xs, (k, xs) ∈ grouped → xs ≠ [] ∧ xs = filter (λ x, key x = k) l)
  ∧ (∀ x, x ∈ l → key x ∈ grouped.*1).

(** The fixes a run counted. *)
Definition fixes_applied (res : Runner.results) : nat :=
  Runner.hints_added res + Runner.optional_fixed res
  + Runner.generics_fixed res.

(** The diagnostics [filter_fixable] keeps. *)
Definition fixable (e : error) : bool :=
  in_list (category e) MypyParser.fixable_categories.

(** What one file of a batch adds to [manual_review]. *)
Definition review_of (read_tree : string → option (option value))
    (fe : string * list error) : list Runner.review_entry :=
  match read_tree fe.1 with
  | None => []
  | Some None => [Runner.syntax_error fe.1]
  | Some (Some _) =>
      Runner.unhandled <$> List.filter (λ e, negb (fixable e)) fe.2
  end.

(** ** Trees *)

(** [old] (an object identity) sits in a child slot of some node of the
    tree. *)
Definition occurs_below (tree old : value) : Prop :=
  ∃ parent c,
    subnode parent tree ∧ c ∈ iter_child_nodes parent ∧ is_ c old = true.

(** ** Function definitions *)

(** [node.args.args] *)
Definition args_of (node : value) : list value :=
  attr_list (attr node "args") "args".

(** [def f(a: int, b):
        b.lower()] *)
Definition half_annotated : value :=
  Module_ 1
    [FunctionDef_ 2 (at_line 1) "f"
       (arguments_ 3 [arg_ 4 (at_line 1) "a" (Name_ 5 (at_line 1) "int" Load);
                      arg_ 6 (at_line 1) "b" VNone])
       [method_stmt 10 2 "b" "lower" []] VNone].

Definition missing_return_type : error :=
  Error "m.py" 1 "Function is missing a return type annotation"
    "missing_type_hint" ∅.

(** ** Typing imports *)

(** A statement that makes [_find_existing_imports] answer with the whole
    vocabulary: [from typing import *] or [import typing]. *)
Definition imports_all (node : value) : Prop :=
  (ImportFixer.is_typing_from node = true
   ∧ "*" ∈ ImportFixer.alias_names node)
  ∨ (isinstance node "Import" = true
     ∧ "typing" ∈ ImportFixer.alias_names node).

(** The names the [from typing import ...] statements list. *)
Definition listed_names (nodes : list value) : gset string :=
  list_to_set
    (flat_map (λ node, if ImportFixer.is_typing_from node
                       then ImportFixer.alias_names node else []) nodes).

(** A node that adds nothing to [_find_needed_imports]. *)
Definition adds_no_name (x : value) : Prop :=
  isinstance_any x ["FunctionDef"; "arg"; "AnnAssign"] = false
  ∧ ImportFixer.is_typevar_assign x = false
  ∧ ImportFixer.annotation_names x = [].

(** ** Generic parameters *)

(** [def f(x):
        pass] *)
Definition plain_function_module : value :=
  Module_ 1
    [FunctionDef_ 2 (at_line 1) "f" (arguments_ 3 [arg_ 4 (at_line 1) "x" VNone])
       [Pass_ 5 (at_line 2)] VNone].

Definition generic_error : error :=
  Error "m.py" 1 "Missing type parameters for generic type" "generic_type" ∅.

(** The tree declares a type variable: [_find_or_create_typevar] finds an
    assignment of a [TypeVar(...)] call to a name. *)
Definition declares_typevar (tree : value) : Prop :=
  ∃ node, node ∈ walk tree ∧ GenericFixer.is_typevar_def node = true.



(** ** Levels of a tree *)

(** The nodes one level further down, with their paths, in the order the
    traversal queues them. *)
Definition next_level (xs : list (path * value)) : list (path * value) :=
  flat_map (λ pn, children_at pn.1 pn.2) xs.

(** The queue [xs] followed by the [d] levels below it. *)
Fixpoint levels (d : nat) (xs : list (path * value)) : list (path * value) :=
  match d with
  | 0 => xs
  | S d => xs ++ levels d (next_level xs)
  end.

(** What the traversal yields at [p] once the slot at [q] has been
    overwritten by [new]: the node changes only when [p] is on the way to
    [q]. *)
Definition patched (q : path) (new : value) (pn : path * value)
  : path * value :=
  (pn.1,
   if decide (take (length pn.1) q = pn.1)
   then update_at (drop (length pn.1) q) (λ _, new) pn.2
   else pn.2).

(** Exactly one node the traversal yields has the identity of [node]. *)
Definition held_once (tree node : value) : Prop :=
  length (List.filter (λ n, is_ n node) (walk tree)) = 1.

(** ** Collections held in a set *)

(** [seen = set()] at line 1, and with [seen.add(User())] at line 2. *)
Definition seen_assign : value :=
  Assign_ 2 (at_line 1) [Name_ 3 (at_line 1) "seen" Store]
    (Call_ 4 (at_line 1) (Name_ 5 (at_line 1) "set" Load) []).

Definition seen_then_add : value :=
  Module_ 1
    [seen_assign;
     method_stmt 10 2 "seen" "add"
       [Call_ 15 (at_line 2) (Name_ 16 (at_line 2) "User" Load) []]].

(** ** Bare generic annotations *)



(* ===================================================================== *)
(** * Properties                                                          *)
(* ===================================================================== *)

(** ** Walk *)

Section Walk.

Lemma field_children_count v :
  list_sum (map node_count (field_children v)) ≤ node_count v.
Proof.
  destruct v as [| | | | | | | |items|]; simpl; try lia.
  induction items as [|x xs IH]; simpl; [lia|].
  destruct (is_node x); simpl; lia.
Qed.

Lemma iter_child_nodes_count n :
  is_node n = true →
  list_sum (map node_count (iter_child_nodes n)) < node_count n.
Proof.
  destruct n as [| | | | | | | | |u k l fs]; try done. intros _.
  unfold iter_child_nodes. simpl.
  assert (list_sum (map node_count (flat_map (λ p, field_children p.2) fs))
          ≤ list_sum (map (λ p, node_count p.2) fs)); [|lia].
  induction fs as [|[f v] fs IH]; simpl; [lia|].
  rewrite map_app, list_sum_app.
  pose proof (field_children_count v). lia.
Qed.

Lemma field_children_nodes v c : c ∈ field_children v → is_node c = true.
Proof.
  destruct v; simpl; try by intros ?%elem_of_nil.
  - intros Hc%list_elem_of_In. by apply filter_In in Hc as [_ ?].
  - by intros ->%list_elem_of_singleton.
Qed.

Lemma iter_child_nodes_nodes n c : c ∈ iter_child_nodes n → is_node c = true.
Proof.
  unfold iter_child_nodes. intros Hc%list_elem_of_In.
  apply in_flat_map in Hc as ([f v] & _ & Hc).
  by apply (field_children_nodes v), list_elem_of_In.
Qed.

Lemma node_count_pos n : is_node n = true → 0 < node_count n.
Proof. destruct n; try done. simpl. lia. Qed.

Lemma subnode_count n t : subnode n t → node_count n ≤ node_count t ∨ is_node t = false.
Proof.
  induction 1 as [|t c Hc Hn IH]; [lia|].
  destruct (is_node t) eqn:Ht; [left|by right].
  pose proof (iter_child_nodes_count t Ht) as Hlt.
  apply list_elem_of_In, in_split in Hc as (l1 & l2 & E). rewrite E in Hlt.
  rewrite map_app, list_sum_app in Hlt. simpl in Hlt.
  destruct IH as [IH|IH]; [lia|].
  assert (is_node c = true); [|congruence].
  apply (iter_child_nodes_nodes t). rewrite E. set_solver.
Qed.

(** Every node below a queued node is visited, when the budget covers the
    queue. *)
Lemma walk_queue_complete fuel todo n q :
  list_sum (map node_count todo) ≤ fuel →
  Forall (λ x, is_node x = true) todo →
  q ∈ todo → subnode n q → n ∈ walk_queue fuel todo.
Proof.
  revert todo n q. induction fuel as [|k IH]; intros todo n q Hsz Hnodes Hq Hsub.
  - destruct todo as [|x xs]; [by apply elem_of_nil in Hq|].
    apply Forall_cons in Hnodes as [Hx _]. apply node_count_pos in Hx.
    simpl in Hsz. lia.
  - destruct todo as [|x xs]; [by apply elem_of_nil in Hq|]. simpl.
    apply Forall_cons in Hnodes as [Hx Hxs].
    pose proof (iter_child_nodes_count x Hx) as Hlt. simpl in Hsz.
    assert (list_sum (map node_count (xs ++ iter_child_nodes x)) ≤ k) as Hsz'.
    { rewrite map_app, list_sum_app. lia. }
    assert (Forall (λ x, is_node x = true) (xs ++ iter_child_nodes x)) as Hn'.
    { apply Forall_app. split; [done|].
      apply Forall_forall. intros c. apply iter_child_nodes_nodes. }
    apply elem_of_cons in Hq as [->|Hq].
    + destruct Hsub as [|t c Hc Hsub]; [left|].
      right. eapply (IH _ _ c); [done..| |done]. set_solver.
    + right. eapply (IH _ _ q); [done..| |done]. set_solver.
Qed.

Lemma walk_queue_sound fuel todo n :
  n ∈ walk_queue fuel todo → ∃ q, q ∈ todo ∧ subnode n q.
Proof.
  revert todo. induction fuel as [|k IH]; intros todo; simpl.
  - by intros ?%elem_of_nil.
  - destruct todo as [|x xs]; [by intros ?%elem_of_nil|].
    intros [->|Hn]%elem_of_cons.
    + exists x. split; [left|constructor].
    + apply IH in Hn as (q & Hq & Hsub).
      apply elem_of_app in Hq as [Hq|Hq].
      * exists q. split; [by right|done].
      * exists x. split; [left|]. by eapply subnode_below.
Qed.

(** [ast.walk] yields exactly the nodes of the tree. *)
Lemma walk_subnode t n : is_node t = true → n ∈ walk t ↔ subnode n t.
Proof.
  intros Ht. split.
  - intros (q & ->%list_elem_of_singleton & Hsub)%walk_queue_sound. done.
  - intros Hsub. eapply (walk_queue_complete _ _ _ t); [|by repeat constructor| |done].
    + simpl. lia.
    + by left.
Qed.

Lemma subnode_trans n c t : subnode n c → subnode c t → subnode n t.
Proof.
  intros Hn Hc. induction Hc as [|t c' Hc' Hc IH]; [done|].
  eapply subnode_below; [done|]. by apply IH.
Qed.

Lemma subnode_is_node n t : subnode n t → is_node t = true → is_node n = true.
Proof.
  induction 1 as [|t c Hc Hn IH]; [done|]. intros _.
  apply IH. by apply (iter_child_nodes_nodes t).
Qed.

(** The traversal with paths visits the same nodes in the same order. *)
Lemma children_at_snd p n : snd <$> children_at p n = iter_child_nodes n.
Proof.
  unfold children_at. generalize (iter_child_nodes n). intros l.
  rewrite fmap_imap. unfold compose. simpl.
  induction l as [|x l IH] using rev_ind; [done|].
  rewrite imap_app. simpl. rewrite IH. done.
Qed.

Lemma walk_paths_queue_snd fuel todo :
  snd <$> walk_paths_queue fuel todo = walk_queue fuel (snd <$> todo).
Proof.
  revert todo. induction fuel as [|k IH]; intros todo; [done|].
  destruct todo as [|[p n] rest]; [done|]. simpl.
  rewrite IH, fmap_app, children_at_snd. done.
Qed.

Lemma walk_paths_snd t : snd <$> walk_paths t = walk t.
Proof. apply walk_paths_queue_snd. Qed.

Lemma node_at_subnode p t n : node_at p t = Some n → subnode n t.
Proof.
  revert t. induction p as [|i p IH]; intros t; simpl.
  - intros [= ->]. constructor.
  - destruct (iter_child_nodes t !! i) as [c|] eqn:Hc; [simpl|done].
    intros Hn. eapply subnode_below; [|by apply IH].
    by eapply list_elem_of_lookup_2.
Qed.

End Walk.

(** ** Unification *)
Import TypeInferrer.

Section Unify.
Implicit Types (S T : gset string) (t : string).

Lemma elements_single_inv T t : elements T = [t] → T = {[t]}.
Proof.
  intros E. apply set_eq. intros x.
  rewrite <- elem_of_elements, E. set_solver.
Qed.

Lemma elements_nil_inv T : elements T = [] → T = ∅.
Proof. intros E. by apply elements_empty_inv in E; apply leibniz_equiv. Qed.

Lemma unify_unfold S :
  _unify_types S =
  let T := without_any S in
  if decide (T = ∅) then "Any" else
  match elements T with
  | [t] => t
  | _ => if decide (T ⊆ {["int"; "float"]})
         then if decide ("float" ∈ T) then "float" else "int"
         else "Union[" +:+ join (sorted (elements T)) +:+ "]"
  end.
Proof.
  unfold _unify_types, without_any. simpl.
  destruct (decide (S = ∅)) as [->|]; [|done].
  rewrite decide_True; [done|]. apply set_eq. set_solver.
Qed.

Lemma unify_singleton t : _unify_types {[t]} = t.
Proof.
  rewrite unify_unfold. unfold without_any. simpl.
  destruct (decide (t = "Any")) as [->|Hne].
  - rewrite decide_True; [done|]. apply set_eq. set_solver.
  - assert (filter (λ t0, t0 ≠ "Any") ({[t]} : gset string) = {[t]}) as ->.
    { apply set_eq. set_solver. }
    rewrite decide_False by set_solver.
    by rewrite elements_singleton.
Qed.

Lemma sorted_permutation l : sorted l ≡ₚ l.
Proof. apply merge_sort_Permutation. Qed.

Lemma sorted_Sorted l : Sorted str_le (sorted l).
Proof. apply Sorted_merge_sort, _. Qed.

(** C2. [unify] drops every ["Any"] member; an empty remainder gives
    ["Any"], a single remaining member is returned unchanged, a nonempty
    remainder within [{"int", "float"}] gives ["float"] when ["float"] is
    present and ["int"] otherwise, and every other remainder gives
    ["Union[...]"] over its members in sorted order; the four sample
    values of the specification follow. *)
Theorem unify_types_spec S :
  let T := without_any S in
  (T = ∅ → _unify_types S = "Any")
  ∧ (∀ t, T = {[t]} → _unify_types S = t)
  ∧ (T ≠ ∅ → T ⊆ {["int"; "float"]} →
     _unify_types S = if decide ("float" ∈ T) then "float" else "int")
  ∧ (1 < size T → ¬ T ⊆ {["int"; "float"]} →
     ∃ l, l ≡ₚ elements T ∧ Sorted str_le l
          ∧ _unify_types S = "Union[" +:+ join l +:+ "]")
  ∧ _unify_types {["int"; "float"]} = "float"
  ∧ _unify_types {["str"]} = "str"
  ∧ _unify_types {["Any"]} = "Any"
  ∧ _unify_types ∅ = "Any".
Proof.
  intros T. rewrite unify_unfold. fold T. cbv zeta.
  refine (conj _ (conj _ (conj _ (conj _ _)))); [| | | |by vm_compute].
  - intros ->. by rewrite decide_True.
  - intros t ->. rewrite decide_False by set_solver.
    by rewrite elements_singleton.
  - intros Hne Hsub. rewrite decide_False by done.
    destruct (elements T) as [|t [|t' l]] eqn:E.
    + by apply elements_nil_inv in E.
    + apply elements_single_inv in E. rewrite E in *.
      assert (t = "int" ∨ t = "float") as [-> | ->] by set_solver.
      * rewrite decide_False; [done|]. set_solver.
      * rewrite decide_True; [done|]. set_solver.
    + by rewrite decide_True.
  - intros Hsz Hsub.
    assert (T ≠ ∅) as Hne.
    { intros E. rewrite E, size_empty in Hsz. lia. }
    rewrite decide_False by done.
    destruct (elements T) as [|t [|t' l]] eqn:E.
    + by apply elements_nil_inv in E.
    + apply elements_single_inv in E. rewrite E, size_singleton in Hsz. lia.
    + rewrite decide_False by done.
      exists (sorted (t :: t' :: l)).
      split; [apply sorted_permutation|]. split; [apply sorted_Sorted|done].
Qed.

(** C3. Unifying the output of [unify] with itself yields the output. *)
Theorem unify_types_idempotent S :
  _unify_types {[ _unify_types S ]} = _unify_types S.
Proof. apply unify_singleton. Qed.

End Unify.

(** ** NullableAccess *)
Import OptionalFixer.

Lemma isinstance_is_node v c : isinstance v c = true → is_node v = true.
Proof. by destruct v. Qed.

Lemma is_refl v : is_node v = true → is_ v v = true.
Proof. destruct v; try done. intros _. apply Nat.eqb_refl. Qed.

Lemma subnode_of_leaf n t : subnode n t → is_node t = false → n = t.
Proof.
  destruct 1 as [|t c Hc _]; [done|]. intros Ht.
  destruct t; try by apply elem_of_nil in Hc. done.
Qed.

Lemma walk_sound t n : n ∈ walk t → subnode n t.
Proof.
  by intros (q & ->%list_elem_of_singleton & Hsub)%walk_queue_sound.
Qed.

Lemma lineno_is_node n l : lineno_of n = Some l → is_node n = true.
Proof. by destruct n. Qed.

Lemma find_node_elem tree line node :
  _find_node_at_line tree line = Some node →
  node ∈ walk tree ∧ lineno_of node = Some line.
Proof.
  unfold _find_node_at_line. intros Hf.
  apply fmap_Some in Hf as ([i x] & Hf & ->).
  apply list_find_Some in Hf as (Hi & Hl & _).
  split; [by eapply list_elem_of_lookup_2|done].
Qed.

Lemma find_node_is_node tree line node :
  _find_node_at_line tree line = Some node → is_node tree = true.
Proof.
  intros [Hin Hl]%find_node_elem.
  apply walk_sound in Hin. apply lineno_is_node in Hl.
  destruct (is_node tree) eqn:Ht; [done|].
  apply subnode_of_leaf in Hin; [|done]. congruence.
Qed.

Lemma guarded_by_if_detected tree access v :
  is_node tree = true → is_node access = true →
  guarded_by_if tree access v → _is_already_guarded tree access v = true.
Proof.
  intros Ht Ha (parent & item & Hp & Hif & Htest & Hitem & Hsub).
  unfold _is_already_guarded. apply existsb_exists.
  exists parent. split; [by apply list_elem_of_In, walk_subnode|].
  rewrite Hif, Htest. simpl.
  unfold _node_in_body. apply existsb_exists.
  exists item. split; [by apply list_elem_of_In|].
  apply existsb_exists. exists access. split; [|by apply is_refl].
  apply list_elem_of_In, walk_subnode; [|done].
  destruct (is_node item) eqn:Hi; [done|].
  apply subnode_of_leaf in Hsub; [|done]. congruence.
Qed.

Ltac by_path p := apply (node_at_subnode p); vm_compute; reflexivity.

(** C1, as amended.  When the access the fixer locates lies in the body of
    an [if] statement whose test compares the receiver's name against
    [None] with [is] or [is not], [fix] returns the tree unchanged and
    reports that nothing was applied. *)
Theorem optional_fix_guarded_by_if err tree access :
  located_access tree (line err) access →
  guarded_by_if tree access (attr_str (attr access "value") "id") →
  fix_ err tree = (tree, false).
Proof.
  intros (node & Hfind & Hshape) Hguard.
  pose proof (find_node_is_node _ _ _ Hfind) as Ht.
  assert (isinstance access "Attribute" = true) as Hattr by naive_solver.
  assert (_fix_optional_attribute_access access tree err = (tree, false)) as E.
  { unfold _fix_optional_attribute_access.
    destruct (isinstance (attr access "value") "Name"); [simpl|done].
    rewrite guarded_by_if_detected; eauto using isinstance_is_node. }
  unfold fix_. rewrite Hfind.
  destruct Hshape as [[Hn ->]|(Hcall & Hfunc & ->)].
  - by rewrite Hn.
  - assert (isinstance node "Attribute" = false) as ->.
    { destruct node; try done. simpl in *.
      apply String.eqb_eq in Hcall as ->. done. }
    rewrite Hcall. unfold _fix_optional_call. by rewrite Hfunc.
Qed.

Lemma optional_fix_guarded_by_if_witness :
  fix_ (nullable_error_at 3) guarded_stmt_tree = (guarded_stmt_tree, false).
Proof.
  apply (optional_fix_guarded_by_if (nullable_error_at 3) guarded_stmt_tree
           (Attribute_ 10 (at_line 3) (Name_ 11 (at_line 3) "user" Load)
              "email" Load)).
  - eexists. split; [by vm_compute|]. left. by vm_compute.
  - exists (default VNone (node_at [0] guarded_stmt_tree)),
           (default VNone (node_at [0; 1] guarded_stmt_tree)).
    split; [by_path [0]|].
    split; [by vm_compute|]. split; [by vm_compute|].
    split; [apply list_elem_of_In; vm_compute; left; reflexivity|].
    by_path [1; 1].
Defined.

(** The claim as stated fails: an access already nested in the body of
    [... if user is not None else None] is located, and is wrapped in a
    second conditional expression on [user]. *)
Lemma optional_fix_wraps_inside_conditional_expression :
  located_access (guarded_expr_tree guarded_expr_access) 2 guarded_expr_access
  ∧ nested_in_none_conditional (guarded_expr_tree guarded_expr_access)
      guarded_expr_access "user"
  ∧ fix_ (nullable_error_at 2) (guarded_expr_tree guarded_expr_access)
    = (guarded_expr_tree
         (copy_location (conditional 13 "user" guarded_expr_access)
            guarded_expr_access),
       true)
  ∧ guarded_expr_tree
      (copy_location (conditional 13 "user" guarded_expr_access)
         guarded_expr_access)
    ≠ guarded_expr_tree guarded_expr_access.
Proof.
  split; [|split; [|split]].
  - eexists. split; [by vm_compute|]. left. by vm_compute.
  - exists (default VNone
              (node_at [0; 1] (guarded_expr_tree guarded_expr_access))),
           (default VNone
              (node_at [0; 1; 1] (guarded_expr_tree guarded_expr_access))).
    split; [by_path [0; 1]|].
    split; [by vm_compute|]. split; [by vm_compute|].
    split; [apply list_elem_of_In; vm_compute; right; left; reflexivity|].
    by_path [1].
  - by vm_compute.
  - by vm_compute.
Qed.

(** ** ReturnTypes *)
Import TypeInferrer.

(** ** Vocabulary for [infer_return_type] *)

Section Monad.
Context {A B : Type}.

Lemma bind_Ok (m : M A) (k : A → M B) c b c'' :
  bind m k c = Ok (b, c'') ↔ ∃ a c', m c = Ok (a, c') ∧ k a c' = Ok (b, c'').
Proof.
  unfold bind. destruct (m c) as [[a c']| |]; [|naive_solver..].
  split; [eauto|]. by intros (? & ? & [= <- <-] & ?).
Qed.

Lemma bind_ret_l (a : A) (k : A → M B) c : bind (ret a) k c = k a c.
Proof. done. Qed.

End Monad.

Section ReturnType.
Context `{PyLib}.
Variable strict : bool.

Lemma return_loop_spec depth func nodes types bare c :
  return_loop strict depth func nodes types bare c =
  match mapM (λ e, _infer_expr_type strict depth e func)
             (flat_map (λ node,
                if isinstance node "Return" && negb (is_none (attr node "value"))
                then [attr node "value"] else []) nodes) c with
  | Ok (tys, c') =>
      Ok (collected tys ∪ types,
          bare || existsb (λ node, isinstance node "Return"
                                   && is_none (attr node "value")) nodes, c')
  | RecursionError => RecursionError
  | AttributeError => AttributeError
  end.
Proof.
  revert types bare c. induction nodes as [|node rest IH]; intros types bare c.
  - simpl. unfold ret, collected. simpl. rewrite orb_false_r.
    do 2 f_equal. f_equal. apply leibniz_equiv. set_solver.
  - simpl. destruct (isinstance node "Return"); simpl; [|apply IH].
    destruct (is_none (attr node "value")); simpl.
    + rewrite IH. destruct (mapM _ _ c) as [[tys c']| |]; [|done..].
      by rewrite orb_true_r.
    + unfold bind at 1 2.
      destruct (_infer_expr_type strict depth (attr node "value") func c)
        as [[ty c1]| |]; [|done..].
      destruct (truthy ty) eqn:Hty.
      * rewrite IH. unfold bind.
        destruct (mapM _ _ c1) as [[tys c']| |]; [|done..].
        unfold ret, collected. simpl. rewrite Hty.
        destruct ty as [t|]; [|done]. simpl.
        do 2 f_equal. f_equal. apply leibniz_equiv. set_solver.
      * rewrite IH. unfold bind.
        destruct (mapM _ _ c1) as [[tys c']| |]; [|done..].
        unfold ret, collected. simpl. by rewrite Hty.
Qed.

Lemma decide_return_type types bare :
  (if bool_decide (types = ∅) && negb bare then "None"
   else if bool_decide (types = ∅) then "None"
   else match elements types with
        | [t] => if bare then "Optional[" +:+ t +:+ "]" else t
        | _ => if bare then "Optional[" +:+ _unify_types types +:+ "]"
               else _unify_types types
        end) = return_type_of types bare.
Proof.
  unfold return_type_of. case_bool_decide as Hempty.
  - rewrite decide_True by done. by destruct bare.
  - rewrite decide_False by done. simpl.
    destruct (elements types) as [|t [|t' l]] eqn:E; try done.
    apply elements_single_inv in E as ->. by rewrite unify_singleton.
Qed.

Lemma infer_return_type_eq depth func c :
  infer_return_type strict depth func c =
  (let* tys := mapM (λ e, _infer_expr_type strict depth e func)
                    (returned_exprs func) in
   ret (Some (return_type_of (collected tys) (has_bare_return func)))) c.
Proof.
  unfold infer_return_type, bind. rewrite return_loop_spec.
  fold (returned_exprs func). fold (has_bare_return func).
  destruct (mapM _ _ c) as [[tys c']| |]; [|done..]. simpl.
  assert (collected tys ∪ ∅ = collected tys) as -> by (apply leibniz_equiv; set_solver).
  rewrite <- decide_return_type.
  destruct (bool_decide _), (has_bare_return func); simpl; try done;
    destruct (elements _) as [|? [|? ?]]; done.
Qed.

End ReturnType.

(** ** Cache *)
Import TypeInferrer.

Lemma extends_ret {A} (a : A) : extends (ret a).
Proof. by intros c a' c' [= _ <-]. Qed.

Lemma extends_raise {A} : extends (@raise A).
Proof. by intros c a c'. Qed.

Lemma extends_bind {A B} (m : M A) (k : A → M B) :
  extends m → (∀ a, extends (k a)) → extends (bind m k).
Proof.
  intros Hm Hk c b c'' (a & c' & H1 & H2)%bind_Ok.
  etrans; [by eapply Hm|by eapply Hk].
Qed.

Lemma extends_raise_attribute_error {A} : extends (@raise_attribute_error A).
Proof. by intros c a c'. Qed.

Lemma extends_mapM {A B} (f : A → M B) l :
  (∀ x, extends (f x)) → extends (mapM f l).
Proof.
  intros Hf. induction l as [|x l IH]; simpl; [apply extends_ret|].
  apply extends_bind; [done|]. intros y.
  apply extends_bind; [done|]. intros ys. apply extends_ret.
Qed.

Lemma extends_cache_get name : extends (cache_get name).
Proof. by intros c a c' [= _ <-]. Qed.

Ltac extends_step :=
  first
    [ apply extends_ret
    | apply extends_raise
    | apply extends_raise_attribute_error
    | apply extends_cache_get
    | apply extends_mapM; intros ?
    | apply extends_bind; [|intros ?] ].

Section InferExtends.
Context `{PyLib}.
Variable strict : bool.

Lemma extends_lookup_with infer var_name context :
  (∀ e, extends (infer e context)) →
  extends (lookup_with infer var_name context).
Proof.
  intros Hinfer c r c'. unfold lookup_with, bind at 1, cache_get.
  destruct (c !! var_name) as [ty|] eqn:Hc; [by intros [= _ <-]|].
  destruct (_find_assignments var_name context) as [|first ?];
    [by intros [= _ <-]|].
  unfold bind at 1.
  destruct (infer (attr first "value") context c) as [[ty c1]| |] eqn:Hi; [|done..].
  apply Hinfer in Hi.
  destruct (truthy ty); [|by intros [= _ <-]].
  unfold bind, cache_set, ret. intros [= _ <-].
  by apply insert_subseteq_r.
Qed.

Lemma extends_infer_expr_type depth expr context :
  extends (_infer_expr_type strict depth expr context).
Proof.
  revert expr context. induction depth as [|d IH]; intros expr context;
    [apply extends_raise|].
  simpl.
  repeat first
    [ apply IH
    | apply extends_lookup_with; intros ?
    | extends_step
    | match goal with
      | |- extends (if ?b then _ else _) => destruct b
      | |- extends (match ?x with _ => _ end) => destruct x
      end ].
Qed.

End InferExtends.

Lemma settles_ret {A} (a : A) c : settles (ret a) c.
Proof. by exists a. Qed.

Lemma settles_bind {A B} (m : M A) (k : A → M B) c :
  settles m c → (∀ a, settles (k a) c) → settles (bind m k) c.
Proof.
  intros [a Hm] Hk. destruct (Hk a) as [b Hb].
  exists b. unfold bind. by rewrite Hm.
Qed.

Lemma settles_mapM {A B} (f : A → M B) l c :
  (∀ x, x ∈ l → settles (f x) c) → settles (mapM f l) c.
Proof.
  induction l as [|x l IH]; intros Hf; simpl; [apply settles_ret|].
  apply settles_bind; [apply Hf; by left|]. intros y.
  apply settles_bind; [apply IH; intros; apply Hf; by right|].
  intros ys. apply settles_ret.
Qed.

Section Counting.

Lemma lookup_field_count fs f :
  node_count (lookup_field fs f) ≤ list_sum (map (λ p, node_count p.2) fs).
Proof.
  induction fs as [|[g v] fs IH]; simpl; [lia|].
  destruct (String.eqb g f); simpl; lia.
Qed.

Lemma attr_count n f : is_node n = true → node_count (attr n f) < node_count n.
Proof.
  destruct n as [| | | | | | | | |u k l fs]; try done. intros _.
  unfold attr. simpl. pose proof (lookup_field_count fs f). lia.
Qed.

Lemma elem_count (l : list value) x :
  x ∈ l → node_count x ≤ list_sum (map node_count l).
Proof.
  induction 1 as [|x y l _ IH]; simpl; lia.
Qed.

Lemma attr_list_count n f x :
  x ∈ attr_list n f → node_count x < node_count n.
Proof.
  unfold attr_list. destruct (attr n f) as [| | | | | | | |l|] eqn:E;
    try by intros ?%elem_of_nil.
  intros Hx%elem_count.
  destruct (is_node n) eqn:Hn.
  - pose proof (attr_count n f Hn) as Hlt. rewrite E in Hlt. simpl in Hlt. lia.
  - by destruct n.
Qed.

Lemma elem_of_filter_nodes (l : list value) x :
  x ∈ List.filter is_node l → x ∈ l.
Proof. intros Hx%list_elem_of_In. by apply filter_In in Hx as [?%list_elem_of_In _]. Qed.

End Counting.

Section InferSettles.
Context `{PyLib}.
Variable strict : bool.

Lemma settles_lookup_with infer var_name context c :
  lookups_settled context c → settles (lookup_with infer var_name context) c.
Proof.
  intros Hs. unfold lookup_with, settles, bind, cache_get.
  destruct (c !! var_name) as [ty|] eqn:Hc; [by eexists|].
  rewrite (Hs _ Hc). by eexists.
Qed.

Lemma settles_infer_expr_type depth expr context c :
  lookups_settled context c → node_count expr < depth →
  settles (_infer_expr_type strict depth expr context) c.
Proof.
  intros Hs. revert expr. induction depth as [|d IH]; intros expr Hd; [lia|].
  destruct (is_node expr) eqn:Hn;
    [|destruct expr; try done; apply settles_ret].
  pose proof (attr_count expr) as Hattr.
  pose proof (attr_list_count expr) as Hlist.
  simpl.
  repeat first
    [ apply settles_ret
    | apply settles_lookup_with; assumption
    | apply IH; first [ specialize (Hattr "left" Hn); lia
                      | specialize (Hattr "right" Hn); lia
                      | specialize (Hattr "body" Hn); lia
                      | specialize (Hattr "orelse" Hn); lia ]
    | apply settles_bind; [|intros ?]
    | match goal with
      | |- settles (mapM _ _) _ =>
          apply settles_mapM; intros x Hx; apply IH;
          first [ apply elem_of_filter_nodes in Hx | idtac ];
          first [ apply Hlist in Hx; lia
                | match goal with
                  | E : attr_list expr ?f = _ |- _ =>
                      assert (x ∈ attr_list expr f) as Hx'
                        by (rewrite E; set_solver);
                      apply Hlist in Hx'; lia
                  end ]
      | E : attr_list expr ?f = ?v :: _
        |- settles (_infer_expr_type strict d ?v context) c =>
          apply IH;
          assert (v ∈ attr_list expr f) as Hx' by (rewrite E; set_solver);
          apply Hlist in Hx'; lia
      | |- settles (if ?b then _ else _) _ => destruct b
      | |- settles (match ?x with _ => _ end) _ => destruct x eqn:?
      end ].
Qed.

End InferSettles.

(** ** Operations *)
Import TypeInferrer.

Ltac extends_auto :=
  repeat first
    [ extends_step
    | match goal with
      | |- extends (if ?b then _ else _) => destruct b
      | |- extends (match ?x with _ => _ end) => destruct x
      end ].

Section OperationsExtend.
Context `{PyLib}.
Variable strict : bool.

Lemma extends_return_loop depth func nodes types bare :
  extends (return_loop strict depth func nodes types bare).
Proof.
  revert types bare. induction nodes as [|node rest IH]; intros types bare;
    simpl; [apply extends_ret|].
  repeat first
    [ apply IH | apply extends_infer_expr_type | extends_step
    | match goal with
      | |- extends (if ?b then _ else _) => destruct b
      end ].
Qed.

Lemma extends_infer_return_type depth func :
  extends (infer_return_type strict depth func).
Proof.
  unfold infer_return_type.
  apply extends_bind; [apply extends_return_loop|]. intros [types bare].
  extends_auto.
Qed.

Lemma extends_analyze_loop depth param func nodes patterns :
  extends (analyze_loop strict depth param func nodes patterns).
Proof.
  revert patterns. induction nodes as [|node rest IH]; intros patterns;
    simpl; [apply extends_ret|].
  repeat first
    [ apply IH | apply extends_infer_expr_type | extends_step
    | match goal with
      | |- extends (if ?b then _ else _) => destruct b
      end ].
Qed.

Lemma extends_infer_param_type depth param func :
  extends (infer_param_type strict depth param func).
Proof.
  unfold infer_param_type, _analyze_param_usage.
  apply extends_bind; [apply extends_analyze_loop|]. intros ps.
  extends_auto.
Qed.

Lemma extends_assignment_types depth tree assignments types :
  extends (assignment_types strict depth tree assignments types).
Proof.
  revert types. induction assignments as [|a rest IH]; intros types;
    simpl; [apply extends_ret|].
  apply extends_bind; [apply extends_infer_expr_type|]. intros ty.
  destruct (truthy ty); apply IH.
Qed.

Lemma extends_infer_variable_type depth var_name context tree :
  extends (infer_variable_type strict depth var_name context tree).
Proof.
  unfold infer_variable_type.
  apply extends_bind.
  { destruct (isinstance context "Assign");
      [apply extends_infer_expr_type|apply extends_ret]. }
  intros first. destruct (_ && _); [apply extends_ret|].
  apply extends_bind; [apply extends_assignment_types|]. intros types.
  extends_auto.
Qed.

Lemma extends_hints_param_loop depth fresh n i node modified :
  extends (MissingHintsFixer.param_loop strict depth fresh n i node modified).
Proof.
  revert i node modified. induction n as [|n IH]; intros i node modified;
    simpl; [apply extends_ret|].
  repeat first
    [ apply IH | apply extends_infer_param_type | extends_step
    | match goal with
      | |- extends (if ?b then _ else _) => destruct b
      | |- extends (match ?x with _ => _ end) => destruct x
      end ].
Qed.

Lemma extends_hints_fix depth err tree :
  extends (MissingHintsFixer.fix_ strict depth err tree).
Proof.
  unfold MissingHintsFixer.fix_, MissingHintsFixer._fix_function_hints,
    MissingHintsFixer._fix_variable_hint.
  repeat first
    [ apply extends_hints_param_loop | apply extends_infer_return_type
    | apply extends_infer_variable_type | extends_step
    | match goal with
      | |- extends (if ?b then _ else _) => destruct b
      | |- extends (match ?x with _ => _ end) => destruct x
      end ].
Qed.

Variable read_tree : string → option (option value).
Variable dry_run : bool.

Lemma extends_apply_error depth err st :
  extends (Runner.apply_error strict depth err st).
Proof.
  unfold Runner.apply_error.
  repeat first
    [ apply extends_hints_fix | extends_step
    | match goal with
      | |- extends (if ?b then _ else _) => destruct b
      | |- extends (match ?x with _ => _ end) => destruct x
      end ].
Qed.

Lemma extends_apply_errors depth errs st :
  extends (Runner.apply_errors strict depth errs st).
Proof.
  revert st. induction errs as [|err rest IH]; intros st; simpl;
    [apply extends_ret|].
  apply extends_bind; [apply extends_apply_error|done].
Qed.

Lemma extends_process_file depth fe st :
  extends (Runner.process_file read_tree dry_run strict depth fe st).
Proof.
  unfold Runner.process_file.
  repeat first
    [ apply extends_apply_errors | extends_step
    | match goal with
      | |- extends (if ?b then _ else _) => destruct b
      | |- extends (match ?x with _ => _ end) => destruct x
      end ].
Qed.

Lemma extends_process_files depth files st :
  extends (Runner.process_files read_tree dry_run strict depth files st).
Proof.
  revert st. induction files as [|fe rest IH]; intros st; simpl;
    [apply extends_ret|].
  apply extends_bind; [apply extends_process_file|done].
Qed.

Lemma process_files_app depth files1 files2 st c :
  Runner.process_files read_tree dry_run strict depth (files1 ++ files2) st c =
  bind (Runner.process_files read_tree dry_run strict depth files1 st)
       (Runner.process_files read_tree dry_run strict depth files2) c.
Proof.
  revert st c. induction files1 as [|fe rest IH]; intros st c; simpl; [done|].
  unfold bind.
  destruct (Runner.process_file _ _ _ _ fe st c) as [[st' c']| |]; [|done..].
  by rewrite IH.
Qed.

End OperationsExtend.

(** ** Inference *)
Import TypeInferrer.

Lemma mapM_settled {A B} (f : A → M B) l tys c :
  Forall2 (λ x y, f x c = Ok (y, c)) l tys → mapM f l c = Ok (tys, c).
Proof.
  induction 1 as [|x y l tys Hx _ IH]; [done|].
  simpl. unfold bind. by rewrite Hx, IH.
Qed.

Lemma settled_results {A B} (f : A → M B) l c :
  (∀ x, x ∈ l → settles (f x) c) →
  ∃ tys, Forall2 (λ x y, f x c = Ok (y, c)) l tys.
Proof.
  induction l as [|x l IH]; intros Hf; [by exists []|].
  destruct (Hf x) as [y Hy]; [by left|].
  destruct IH as [tys Htys]; [intros; apply Hf; by right|].
  exists (y :: tys). by constructor.
Qed.

Section ReturnTypeTheorem.
Context `{PyLib}.

Lemma returned_expr_count func e :
  e ∈ returned_exprs func → node_count e < node_count func.
Proof.
  unfold returned_exprs. intros He%list_elem_of_In.
  apply in_flat_map in He as (node & Hnode%list_elem_of_In & He).
  destruct (isinstance node "Return") eqn:Hr; [|done]. simpl in He.
  destruct (is_none (attr node "value")); [done|].
  destruct He as [<-|[]].
  apply walk_sound in Hnode.
  pose proof (attr_count node "value" (isinstance_is_node _ _ Hr)).
  destruct (subnode_count _ _ Hnode) as [?|Hleaf]; [lia|].
  apply subnode_of_leaf in Hnode; [|done]. subst.
  by rewrite (isinstance_is_node _ _ Hr) in Hleaf.
Qed.

(** C4.  The code departs from the claim on a function that returns a
    value whose type it does not infer.  The claim answers ["None"] for
    a function without [return] statements or with bare ones only, and
    the unification of the types of the returned expressions otherwise.
    The code answers ["None"] whenever its set [return_types] is empty:
    the second [if not return_types], placed for the functions with bare
    returns only, also takes every function none of whose returned
    expressions gets a type.  So [def f(x): return x] is answered
    ["None"], in either mode, where the claim's answer is the
    unification of no type, ["Any"]; while [def add(x, y): return x + y],
    whose expression gets the fallback type, is answered ["Any"].  On the
    two functions the claim names the code answers as claimed. *)
Theorem infer_return_type_takes_untyped_value_for_none :
  (∀ strict depth func c tys c',
     mapM (λ e, _infer_expr_type strict depth e func) (returned_exprs func) c
     = Ok (tys, c') →
     collected tys = ∅ →
     infer_return_type strict depth func c = Ok (Some "None", c'))
  ∧ (∀ strict,
       returned_exprs returns_its_parameter = [Name_ 5 (at_line 2) "x" Load]
       ∧ has_bare_return returns_its_parameter = false
       ∧ mapM (λ e, @_infer_expr_type names_only strict 10 e
                      returns_its_parameter)
           (returned_exprs returns_its_parameter) ∅ = Ok ([None], ∅)
       ∧ @infer_return_type names_only strict 10 returns_its_parameter ∅
         = Ok (Some "None", ∅)
       ∧ claimed_return_type (returned_exprs returns_its_parameter) [None]
           false = "Any")
  ∧ @infer_return_type names_only false 10 returns_a_sum ∅
    = Ok (Some "Any", ∅)
  ∧ (∀ strict c,
       infer_return_type strict 2 returns_int_or_float c = Ok (Some "float", c)
       ∧ infer_return_type strict 2 returns_a_string c = Ok (Some "str", c)).
Proof.
  split_and!.
  - intros strict depth func c tys c' Hmap Hnone.
    rewrite infer_return_type_eq. unfold bind. rewrite Hmap.
    unfold ret, return_type_of. by rewrite Hnone, decide_True.
  - intros strict. by destruct strict; vm_compute.
  - by vm_compute.
  - intros strict c. by destruct strict.
Qed.

End ReturnTypeTheorem.

(** ** Vocabulary for [infer_param_type] *)

Section ParamType.
Context `{PyLib}.
Variable strict : bool.

Lemma infer_from_patterns_spec ps :
  _infer_from_patterns strict ps =
  match first_recognised ps with
  | Some t => Some t
  | None => any_or_none strict
  end.
Proof.
  unfold first_recognised.
  induction ps as [|p ps IH]; [done|].
  destruct p as [m|[k|]| |op];
    cbn [_infer_from_patterns omap list_omap pattern_type].
  - repeat (destruct (in_list m _); [done|]). apply IH.
  - destruct (String.eqb k "int"); [done|].
    destruct (String.eqb k "str"); [done|]. apply IH.
  - apply IH.
  - done.
  - destruct (in_list op _); [done|]. apply IH.
Qed.

Lemma mapM_cons_eq {A B} (f : A → M B) x l c :
  mapM f (x :: l) c =
  match f x c with
  | Ok (y, c1) =>
      match mapM f l c1 with
      | Ok (ys, c2) => Ok (y :: ys, c2)
      | RecursionError => RecursionError
      | AttributeError => AttributeError
      end
  | RecursionError => RecursionError
  | AttributeError => AttributeError
  end.
Proof.
  simpl. unfold bind. destruct (f x c) as [[y c1]| |]; [|done..].
  by destruct (mapM f l c1) as [[ys c2]| |].
Qed.

Lemma analyze_loop_spec depth param_name func nodes patterns c :
  analyze_loop strict depth param_name func nodes patterns c =
  (let* found := mapM (usage_at strict depth param_name func) nodes in
   ret (patterns ++ omap id found)) c.
Proof.
  revert patterns c. induction nodes as [|node rest IH]; intros patterns c.
  - simpl. unfold bind, ret. simpl. by rewrite app_nil_r.
  - unfold bind. rewrite mapM_cons_eq.
    cbn [analyze_loop]. unfold usage_at at 1, uses_param.
    assert (∀ o c1,
      analyze_loop strict depth param_name func rest
        (patterns ++ omap id [o]) c1 =
      match
        match mapM (usage_at strict depth param_name func) rest c1 with
        | Ok (ys, c2) => Ok (o :: ys, c2)
        | RecursionError => RecursionError
        | AttributeError => AttributeError
        end
      with
      | Ok (a, c') => Ok (patterns ++ omap id a, c')
      | RecursionError => RecursionError
      | AttributeError => AttributeError
      end) as Hnext.
    { intros o c1. rewrite IH. unfold bind, ret.
      destruct (mapM _ rest c1) as [[ys c2]| |]; [|done..].
      by destruct o; simpl; rewrite <- ?app_assoc. }
    clear IH.
    pose proof (Hnext None) as Hnone. simpl in Hnone.
    rewrite app_nil_r in Hnone.
    destruct node as [| | | | | | | | |u k l fs];
      try (cbn [isinstance andb orb negb]; apply Hnone).
    cbn [isinstance].
    destruct (String.eqb_spec k "Call") as [->|HC].
    { cbn [String.eqb Ascii.eqb Bool.eqb andb orb negb].
      destruct (isinstance _ "Attribute"), (isinstance _ "Name"),
        (String.eqb _ param_name); cbn [negb andb orb];
        first [apply Hnone | apply (Hnext (Some _))]. }
    destruct (String.eqb_spec k "Subscript") as [->|HS].
    { cbn [String.eqb Ascii.eqb Bool.eqb andb orb negb].
      destruct (isinstance _ "Name"), (String.eqb _ param_name);
        cbn [negb andb orb]; try apply Hnone.
      unfold bind at 1 2.
      destruct (_infer_expr_type _ _ _ _ c) as [[ty c1]| |]; [|done..].
      apply (Hnext (Some _)). }
    destruct (String.eqb_spec k "For") as [->|HF].
    { cbn [String.eqb Ascii.eqb Bool.eqb andb orb negb].
      destruct (isinstance _ "Name"), (String.eqb _ param_name);
        cbn [negb andb orb];
        first [apply Hnone | apply (Hnext (Some _))]. }
    destruct (String.eqb_spec k "BinOp") as [->|HB].
    { cbn [String.eqb Ascii.eqb Bool.eqb andb orb negb].
      destruct (isinstance _ "Name"), (String.eqb _ param_name);
        cbn [negb andb orb];
        first [apply Hnone | apply (Hnext (Some _))]. }
    cbn [negb andb orb]. apply Hnone.
Qed.

End ParamType.

Section ParamTypeTheorem.
Context `{PyLib}.

Lemma settles_usage_at strict depth param_name func node c :
  lookups_settled func c → node ∈ walk func → node_count func ≤ depth →
  settles (usage_at strict depth param_name func node) c.
Proof.
  intros Hs Hnode Hd. unfold usage_at.
  destruct (negb _); [apply settles_ret|].
  destruct (isinstance node "Call"); [apply settles_ret|].
  destruct (isinstance node "Subscript") eqn:Hsub.
  - apply settles_bind; [|intros; apply settles_ret].
    apply settles_infer_expr_type; [done|].
    pose proof (attr_count node "slice" (isinstance_is_node _ _ Hsub)).
    apply walk_sound in Hnode.
    destruct (subnode_count _ _ Hnode) as [?|Hleaf]; [lia|].
    apply subnode_of_leaf in Hnode; [|done]. subst.
    by rewrite (isinstance_is_node _ _ Hsub) in Hleaf.
  - destruct (isinstance node "For"); apply settles_ret.
Qed.

(** C5, as amended.  [infer_param_type] scans the function in walk
    (breadth-first) order, records the usage pattern of every node that
    uses the parameter, and answers with the type of the first recorded
    pattern that the fixed tables recognise; patterns the tables do not
    recognise are passed over.  When no node uses the parameter, or no
    recorded pattern is recognised, the answer is ["Any"], or no
    annotation in strict mode. *)
Theorem infer_param_type_amended :
  (∀ strict depth param_name func c,
     infer_param_type strict depth param_name func c =
     (let* found := mapM (usage_at strict depth param_name func) (walk func) in
      ret (match first_recognised (omap id found) with
           | Some t => Some t
           | None => any_or_none strict
           end)) c)
  ∧ (∀ strict depth param_name func c,
       Forall (λ node, uses_param param_name node = false) (walk func) →
       infer_param_type strict depth param_name func c
       = Ok (if strict then None else Some "Any", c))
  ∧ (∀ strict depth param_name func c,
       lookups_settled func c → node_count func ≤ depth →
       ∃ found,
         Forall2 (λ node o,
           usage_at strict depth param_name func node c = Ok (o, c))
           (walk func) found
         ∧ infer_param_type strict depth param_name func c =
           Ok (match first_recognised (omap id found) with
               | Some t => Some t
               | None => any_or_none strict
               end, c)).
Proof.
  assert (∀ strict depth param_name func c,
     infer_param_type strict depth param_name func c =
     (let* found := mapM (usage_at strict depth param_name func) (walk func) in
      ret (match first_recognised (omap id found) with
           | Some t => Some t
           | None => any_or_none strict
           end)) c) as Heq.
  { intros. unfold infer_param_type, _analyze_param_usage, bind.
    rewrite analyze_loop_spec. unfold bind.
    destruct (mapM _ (walk func) c) as [[found c']| |]; [|done..].
    unfold ret. simpl. rewrite <- infer_from_patterns_spec.
    by destruct (omap id found). }
  split; [done|]. split.
  - intros strict depth param_name func c Hnone. rewrite Heq. unfold bind.
    assert (mapM (usage_at strict depth param_name func) (walk func) c
            = Ok (replicate (length (walk func)) None, c)) as ->.
    { induction Hnone as [|node rest Hn _ IH]; [done|].
      rewrite mapM_cons_eq.
      assert (usage_at strict depth param_name func node c = Ok (None, c))
        as -> by (unfold usage_at; by rewrite Hn).
      by rewrite IH. }
    unfold ret. do 2 f_equal.
    assert (omap id (replicate (length (walk func)) (@None pattern)) = [])
      as -> by (induction (length _); done).
    by destruct strict.
  - intros strict depth param_name func c Hs Hd.
    destruct (settled_results (usage_at strict depth param_name func)
                (walk func) c) as (found & Hall).
    { intros node Hnode. by apply settles_usage_at. }
    exists found. split; [done|].
    rewrite Heq. unfold bind. by rewrite (mapM_settled _ _ _ _ Hall).
Qed.

End ParamTypeTheorem.

(** The claim as stated fails: two functions whose first usage pattern is
    the same unrecognised method call get different types, so the first
    pattern encountered does not decide the result. *)
Lemma infer_param_type_not_decided_by_first_pattern :
  @_analyze_param_usage names_only false 10 "p" (calls_foo_then "lower") ∅
    = Ok ([method_call "foo"; method_call "lower"], ∅)
  ∧ @_analyze_param_usage names_only false 10 "p" (calls_foo_then "append") ∅
    = Ok ([method_call "foo"; method_call "append"], ∅)
  ∧ @infer_param_type names_only false 10 "p" (calls_foo_then "lower") ∅
    = Ok (Some "str", ∅)
  ∧ @infer_param_type names_only false 10 "p" (calls_foo_then "append") ∅
    = Ok (Some "List[Any]", ∅).
Proof. by vm_compute. Qed.

(** C6 at its failing inputs: under [strict = True] each of the three
    inference entry points returns an annotation that contains ["Any"]. *)
Lemma strict_mode_returns_annotations_with_Any :
  @infer_param_type names_only true 10 "p" appends_to_parameter ∅
    = Ok (Some "List[Any]", ∅)
  ∧ @infer_return_type names_only true 10 returns_empty_list ∅
    = Ok (Some "List[Any]", ∅)
  ∧ @infer_variable_type names_only true 10 "x" assigns_empty_list
      (Module_ 1 [assigns_empty_list]) ∅
    = Ok (Some "List[Any]", ∅)
  ∧ contains "Any" "List[Any]" = true.
Proof. by vm_compute. Qed.

(** ** Batch *)
Import TypeInferrer.

Section CacheTheorem.
Context `{PyLib}.

Lemma lookup_cached strict depth var_name context c ty :
  c !! var_name = Some ty →
  _lookup_variable_type strict depth var_name context c = Ok (Some ty, c).
Proof.
  intros Hc. unfold _lookup_variable_type, lookup_with, bind, cache_get.
  by rewrite Hc.
Qed.

(** C10.  The type cache is keyed by the bare variable name and is never
    invalidated: a name that is in the cache is answered from it whatever
    context tree is passed; no operation of the inferrer, and no call of
    the hint fixer that owns it, removes or changes an entry; and since
    one batch run threads a single cache through all its files, a name
    cached while some files were processed still resolves to the same
    string, in every context, after any later files of the batch. *)
Theorem type_cache_never_invalidated :
  (∀ strict depth var_name context c ty,
     c !! var_name = Some ty →
     _lookup_variable_type strict depth var_name context c = Ok (Some ty, c))
  ∧ (∀ strict depth,
       (∀ expr context, extends (_infer_expr_type strict depth expr context))
       ∧ (∀ var_name context,
            extends (_lookup_variable_type strict depth var_name context))
       ∧ (∀ func, extends (infer_return_type strict depth func))
       ∧ (∀ param_name func,
            extends (infer_param_type strict depth param_name func))
       ∧ (∀ var_name context tree,
            extends (infer_variable_type strict depth var_name context tree))
       ∧ (∀ err tree, extends (MissingHintsFixer.fix_ strict depth err tree)))
  ∧ (∀ read_tree dry_run strict depth earlier later st st1 c1 st2 c2
       var_name ty,
       Runner.process_files read_tree dry_run strict depth earlier st ∅
         = Ok (st1, c1) →
       c1 !! var_name = Some ty →
       Runner.process_files read_tree dry_run strict depth later st1 c1
         = Ok (st2, c2) →
       Runner.process_files read_tree dry_run strict depth (earlier ++ later)
         st ∅ = Ok (st2, c2)
       ∧ ∀ depth' context,
           _lookup_variable_type strict depth' var_name context c2
           = Ok (Some ty, c2)).
Proof.
  split; [intros; by apply lookup_cached|]. split.
  - intros strict depth.
    split; [intros; apply extends_infer_expr_type|].
    split; [intros; apply extends_lookup_with; intros;
            apply extends_infer_expr_type|].
    split; [intros; apply extends_infer_return_type|].
    split; [intros; apply extends_infer_param_type|].
    split; [intros; apply extends_infer_variable_type|].
    intros; apply extends_hints_fix.
  - intros read_tree dry_run strict depth earlier later st st1 c1 st2 c2
      var_name ty Hearlier Hc Hlater.
    split.
    + rewrite process_files_app. unfold bind. by rewrite Hearlier.
    + intros depth' context. apply lookup_cached.
      apply extends_process_files in Hlater.
      by eapply lookup_weaken.
Qed.

End CacheTheorem.

Lemma two_file_batch_runs :
  ∃ st1 c1 st2 c2,
    run_batch [("a.py", [missing_hint "a.py" 2])] = Ok (st1, c1)
    ∧ c1 !! "x" = Some "int"
    ∧ @Runner.process_files names_only two_files false false 10
        [("b.py", [missing_hint "b.py" 2])] st1 c1 = Ok (st2, c2).
Proof.
  eassert (run_batch [("a.py", [missing_hint "a.py" 2])] = Ok (_, _)) as E1
    by (vm_compute; reflexivity).
  eexists _, _, _, _.
  split; [exact E1|].
  split.
  - vm_compute. reflexivity.
  - vm_compute. reflexivity.
Qed.

Lemma type_cache_never_invalidated_witness :
  ∃ st2 c2,
    run_batch ([("a.py", [missing_hint "a.py" 2])]
               ++ [("b.py", [missing_hint "b.py" 2])]) = Ok (st2, c2)
    ∧ ∀ depth' context,
        @_lookup_variable_type names_only false depth' "x" context c2
        = Ok (Some "int", c2).
Proof.
  destruct two_file_batch_runs as (st1 & c1 & st2 & c2 & E1 & Hc1 & E2).
  exists st2, c2.
  exact (proj2 (proj2 (@type_cache_never_invalidated names_only))
           two_files false false 10
           [("a.py", [missing_hint "a.py" 2])]
           [("b.py", [missing_hint "b.py" 2])]
           (Runner.no_results, []) st1 c1 st2 c2 "x" "int" E1 Hc1 E2).
Defined.

(** What the shared cache does to a batch: [z = x] in [b.py], where [x]
    is a string, is annotated [int] when [a.py] (where [x] is an integer)
    was processed before it, and [str] when [b.py] is processed alone. *)
Lemma earlier_file_decides_later_annotation :
  second_annotation
    (written_files (run_batch [("a.py", [missing_hint "a.py" 2]);
                               ("b.py", [missing_hint "b.py" 2])])) "b.py"
  = ["int"]
  ∧ second_annotation
      (written_files (run_batch [("b.py", [missing_hint "b.py" 2])])) "b.py"
    = ["str"].
Proof. by vm_compute. Qed.

(** ** Overwriting a slot of the tree *)

Section Slots.

Lemma set_in_items_children l i new :
  is_node new = true →
  List.filter is_node (set_in_items l i new)
  = <[i := new]> (List.filter is_node l).
Proof.
  intros Hnew. revert i. induction l as [|x l IH]; intros i; [done|].
  cbn [set_in_items List.filter]. destruct (is_node x) eqn:Hx.
  - destruct i as [|i]; cbn [List.filter].
    + by rewrite Hnew.
    + rewrite Hx. cbn. f_equal. apply IH.
  - cbn [List.filter]. rewrite Hx. apply IH.
Qed.

Lemma set_in_items_same l i c :
  List.filter is_node l !! i = Some c → set_in_items l i c = l.
Proof.
  revert i. induction l as [|x l IH]; intros i; [done|].
  cbn [set_in_items List.filter]. destruct (is_node x) eqn:Hx.
  - destruct i as [|i]; cbn.
    + by intros [= ->].
    + intros Hc. f_equal. by apply IH.
  - intros Hc. f_equal. by apply IH.
Qed.

Lemma set_in_items_length l i new :
  length (set_in_items l i new) = length l.
Proof.
  revert i. induction l as [|x l IH]; intros i; [done|].
  cbn [set_in_items]. destruct (is_node x); [destruct i|]; cbn; by rewrite ?IH.
Qed.

Lemma field_children_set v i new :
  is_node new = true → i < length (field_children v) →
  field_children
    (match v with VList l => VList (set_in_items l i new) | _ => new end)
  = <[i := new]> (field_children v).
Proof.
  intros Hnew Hi. destruct v; cbn in Hi; try lia.
  - cbn [field_children]. by apply set_in_items_children.
  - destruct i; [|cbn in Hi; lia]. by destruct new.
Qed.

Lemma set_in_fields_children fs i new :
  is_node new = true →
  flat_map (λ p, field_children p.2) (set_in_fields fs i new)
  = <[i := new]> (flat_map (λ p, field_children p.2) fs).
Proof.
  intros Hnew. revert i. induction fs as [|[f v] fs IH]; intros i; [done|].
  cbn [set_in_fields flat_map snd]. destruct (decide _) as [Hi|Hi].
  - cbn [flat_map snd]. rewrite field_children_set by done.
    by rewrite insert_app_l.
  - cbn [flat_map snd]. rewrite IH.
    by rewrite insert_app_r_alt by lia.
Qed.

Lemma set_in_fields_same fs i c :
  flat_map (λ p, field_children p.2) fs !! i = Some c →
  set_in_fields fs i c = fs.
Proof.
  revert i. induction fs as [|[f v] fs IH]; intros i; [done|].
  cbn [set_in_fields flat_map snd]. destruct (decide _) as [Hi|Hi].
  - rewrite lookup_app_l by done. intros Hc. do 2 f_equal.
    destruct v; cbn in Hi; try lia.
    + f_equal. by apply set_in_items_same.
    + destruct i; [|cbn in Hi; lia]. by injection Hc.
  - rewrite lookup_app_r by lia. intros Hc. f_equal. by apply IH.
Qed.

Lemma iter_child_nodes_set_child n i new :
  is_node new = true →
  iter_child_nodes (set_child n i new) = <[i := new]> (iter_child_nodes n).
Proof.
  intros Hnew. destruct n; try done. by apply set_in_fields_children.
Qed.

Lemma set_child_same n i c :
  iter_child_nodes n !! i = Some c → set_child n i c = n.
Proof.
  destruct n; try done. intros Hc. cbn. f_equal. by apply set_in_fields_same.
Qed.

Lemma set_child_is_node n i new : is_node (set_child n i new) = is_node n.
Proof. by destruct n. Qed.

Lemma set_child_header n i new :
  uid_of (set_child n i new) = uid_of n
  ∧ loc_of (set_child n i new) = loc_of n
  ∧ ∀ c, isinstance (set_child n i new) c = isinstance n c.
Proof. by destruct n. Qed.

Lemma child_is_node n i c : iter_child_nodes n !! i = Some c → is_node c = true.
Proof.
  intros Hc. apply (iter_child_nodes_nodes n). by eapply list_elem_of_lookup_2.
Qed.

Lemma node_at_root_is_node p t n :
  node_at p t = Some n → is_node n = true → is_node t = true.
Proof.
  intros Hp%node_at_subnode Hn. destruct (is_node t) eqn:Ht; [done|].
  apply subnode_of_leaf in Hp; [|done]. congruence.
Qed.

Lemma update_at_is_node p f t :
  (∀ x, is_node x = true → is_node (f x) = true) →
  is_node t = true → is_node (update_at p f t) = true.
Proof.
  intros Hf Ht. destruct p as [|i p]; cbn; [by apply Hf|].
  destruct (iter_child_nodes t !! i); [|done]. by rewrite set_child_is_node.
Qed.

Lemma node_at_update_at p f t n :
  (∀ x, is_node x = true → is_node (f x) = true) →
  is_node t = true →
  node_at p t = Some n → node_at p (update_at p f t) = Some (f n).
Proof.
  intros Hf. revert t. induction p as [|i p IH]; intros t Ht; cbn.
  - by intros [= ->].
  - destruct (iter_child_nodes t !! i) as [c|] eqn:Hc; [|done]. cbn.
    intros Hn. pose proof (child_is_node _ _ _ Hc) as Hcn.
    rewrite iter_child_nodes_set_child by by apply update_at_is_node.
    rewrite list_lookup_insert_eq by by eapply lookup_lt_Some.
    cbn. by apply IH.
Qed.

(** A slot that is not on the way to the updated one keeps its node. *)
Lemma node_at_update_at_ne r i j p q f t :
  (∀ x, is_node x = true → is_node (f x) = true) →
  is_node t = true → i ≠ j →
  node_at (r ++ j :: q) (update_at (r ++ i :: p) f t)
  = node_at (r ++ j :: q) t.
Proof.
  intros Hf. revert t. induction r as [|k r IH]; intros t Ht Hij; cbn.
  - destruct (iter_child_nodes t !! i) as [c|] eqn:Hc; [|done].
    pose proof (child_is_node _ _ _ Hc) as Hcn.
    rewrite iter_child_nodes_set_child by by apply update_at_is_node.
    by rewrite list_lookup_insert_ne.
  - destruct (iter_child_nodes t !! k) as [c|] eqn:Hc; [|by rewrite Hc].
    pose proof (child_is_node _ _ _ Hc) as Hcn.
    rewrite iter_child_nodes_set_child by by apply update_at_is_node.
    rewrite list_lookup_insert_eq by by eapply lookup_lt_Some.
    cbn. by apply IH.
Qed.

Lemma update_at_same p t n :
  node_at p t = Some n → update_at p (λ _, n) t = t.
Proof.
  revert t. induction p as [|i p IH]; intros t; cbn.
  - by intros [= ->].
  - destruct (iter_child_nodes t !! i) as [c|] eqn:Hc; [|done]. cbn.
    intros Hn. rewrite IH by done. by apply set_child_same.
Qed.

Lemma update_at_app p q f t :
  update_at (p ++ q) f t = update_at p (update_at q f) t.
Proof.
  revert t. induction p as [|i p IH]; intros t; [done|]. cbn.
  destruct (iter_child_nodes t !! i); [|done]. by rewrite IH.
Qed.

Lemma node_at_app p q t :
  node_at (p ++ q) t = node_at p t ≫= node_at q.
Proof.
  revert t. induction p as [|i p IH]; intros t; [done|]. cbn.
  destruct (iter_child_nodes t !! i) as [c|]; [|done]. cbn. apply IH.
Qed.

End Slots.

(** ** Paths of the traversal and the search of [_replace_node] *)

Section Paths.

Lemma children_at_elem p n r c :
  (r, c) ∈ children_at p n ↔
  ∃ i, r = p ++ [i] ∧ iter_child_nodes n !! i = Some c.
Proof.
  unfold children_at. rewrite elem_of_lookup_imap. split.
  - intros (i & y & [= -> ->] & Hy). eauto.
  - intros (i & -> & Hc). eauto.
Qed.

Lemma children_at_valid t p n :
  node_at p t = Some n →
  Forall (λ rx, node_at rx.1 t = Some rx.2) (children_at p n).
Proof.
  intros Hp. apply Forall_forall. intros [r c] (i & -> & Hc)%children_at_elem.
  cbn. rewrite node_at_app, Hp. cbn. by rewrite Hc.
Qed.

Lemma walk_paths_queue_valid t fuel todo :
  Forall (λ rx, node_at rx.1 t = Some rx.2) todo →
  Forall (λ rx, node_at rx.1 t = Some rx.2) (walk_paths_queue fuel todo).
Proof.
  revert todo. induction fuel as [|k IH]; intros todo Htodo; [constructor|].
  destruct todo as [|[p n] rest]; [constructor|]. cbn.
  apply Forall_cons in Htodo as [Hp Hrest]. constructor; [done|].
  apply IH, Forall_app. split; [done|]. by apply children_at_valid.
Qed.

(** A node the traversal yields sits at the path it is yielded with. *)
Lemma walk_paths_node_at t p n :
  (p, n) ∈ walk_paths t → node_at p t = Some n.
Proof.
  intros Hin.
  assert (Forall (λ rx, node_at rx.1 t = Some rx.2) (walk_paths t)) as Hall.
  { apply walk_paths_queue_valid. by repeat constructor. }
  by apply (proj1 (Forall_forall _ _) Hall (p, n)).
Qed.

Lemma walk_paths_complete t n :
  is_node t = true → subnode n t → ∃ p, (p, n) ∈ walk_paths t.
Proof.
  intros Ht Hn. apply walk_subnode in Hn; [|done].
  rewrite <- walk_paths_snd in Hn.
  apply list_elem_of_fmap in Hn as ([p n'] & -> & Hin). by exists p.
Qed.

Lemma find_slot_Some parent old i :
  find_slot parent old = Some i ↔
  ∃ c, iter_child_nodes parent !! i = Some c ∧ is_ c old = true
       ∧ ∀ j c', j < i → iter_child_nodes parent !! j = Some c' →
                 is_ c' old = false.
Proof.
  unfold find_slot. rewrite fmap_Some. split.
  - intros ([i' c] & (Hc & Hold & Hfirst)%list_find_Some & ->). cbn.
    exists c. split_and!; [done..|]. intros j c' Hj Hc'.
    specialize (Hfirst j c' Hc' Hj). by destruct (is_ c' old).
  - intros (c & Hc & Hold & Hfirst). exists (i, c). split; [|done].
    apply list_find_Some. split_and!; [done..|].
    intros j c' Hc' Hj. by rewrite (Hfirst j c' Hj Hc').
Qed.

Lemma scan_parents_Some parents old p i :
  scan_parents parents old = Some (p, i) →
  ∃ parent, (p, parent) ∈ parents ∧ find_slot parent old = Some i.
Proof.
  induction parents as [|[r x] rest IH]; [done|]. cbn.
  destruct (find_slot x old) as [j|] eqn:Hslot.
  - intros [= <- <-]. exists x. split; [by left|done].
  - intros (parent & Hin & Hi)%IH. exists parent. split; [by right|done].
Qed.

Lemma scan_parents_is_Some parents old p parent c :
  (p, parent) ∈ parents → c ∈ iter_child_nodes parent → is_ c old = true →
  is_Some (scan_parents parents old).
Proof.
  intros Hin Hc Hold. induction parents as [|[r x] rest IH];
    [by apply elem_of_nil in Hin|]. cbn.
  destruct (find_slot x old) as [j|] eqn:Hslot; [done|].
  apply elem_of_cons in Hin as [[= <- <-]|Hin]; [|by apply IH].
  exfalso. unfold find_slot in Hslot.
  apply fmap_None, list_find_None in Hslot.
  by apply (proj1 (Forall_forall _ _) Hslot c).
Qed.

Lemma update_at_ext p f g t n :
  node_at p t = Some n → f n = g n → update_at p f t = update_at p g t.
Proof.
  revert t. induction p as [|i p IH]; intros t; cbn.
  - by intros [= ->].
  - destruct (iter_child_nodes t !! i) as [c|]; [|done]. cbn.
    intros Hn Hfg. by rewrite (IH c).
Qed.

(** Overwriting slot [i] of the node at [p] is an update at [p ++ [i]]. *)
Lemma update_slot p i new t parent c :
  node_at p t = Some parent → iter_child_nodes parent !! i = Some c →
  update_at p (λ parent, set_child parent i new) t
  = update_at (p ++ [i]) (λ _, new) t.
Proof.
  intros Hp Hc. rewrite update_at_app.
  eapply update_at_ext; [done|]. cbn. by rewrite Hc.
Qed.

End Paths.

(** ** What [_replace_node] overwrites *)

Section Scan.

Lemma copy_location_is_node new old :
  is_node (copy_location new old) = is_node new.
Proof.
  destruct new as [| | | | | | | | |u k l fs]; try done.
  destruct old as [| | | | | | | | |u' k' [l'|] fs']; try done.
  cbn. by destruct (_ && _).
Qed.

(** The search finds a slot exactly when the node occurs below the root. *)
Lemma scan_occurs tree old :
  occurs_below tree old →
  ∃ p i parent c,
    scan_parents (walk_paths tree) old = Some (p, i)
    ∧ node_at p tree = Some parent
    ∧ iter_child_nodes parent !! i = Some c
    ∧ is_ c old = true.
Proof.
  intros (parent & c & Hparent & Hc & Hold).
  assert (is_node tree = true) as Ht.
  { destruct (is_node tree) eqn:Ht; [done|].
    apply subnode_of_leaf in Hparent; [|done]. subst parent.
    destruct tree; try done; by apply elem_of_nil in Hc. }
  destruct (walk_paths_complete _ _ Ht Hparent) as [p0 Hp0].
  destruct (scan_parents_is_Some _ _ _ _ _ Hp0 Hc Hold) as [[p i] Hscan].
  destruct (scan_parents_Some _ _ _ _ Hscan) as (parent' & Hin & Hslot).
  apply find_slot_Some in Hslot as (c' & Hc' & Hold' & _).
  exists p, i, parent', c'. split_and!; [done| |done..].
  by apply walk_paths_node_at.
Qed.

Lemma overwrite_slot tree p i parent c new :
  is_node new = true →
  node_at p tree = Some parent → iter_child_nodes parent !! i = Some c →
  let tree' := update_at p (λ parent, set_child parent i new) tree in
  node_at (p ++ [i]) tree = Some c
  ∧ node_at (p ++ [i]) tree' = Some new
  ∧ ∀ r k j s s', p ++ [i] = r ++ k :: s → k ≠ j →
      node_at (r ++ j :: s') tree' = node_at (r ++ j :: s') tree.
Proof.
  intros Hnew Hp Hc tree'.
  assert (is_node tree = true) as Ht.
  { apply node_at_subnode in Hp. destruct (is_node tree) eqn:Ht; [done|].
    apply subnode_of_leaf in Hp; [|done]. subst parent.
    destruct tree; try done; by apply lookup_nil_Some in Hc || done. }
  assert (node_at (p ++ [i]) tree = Some c) as Hq.
  { rewrite node_at_app, Hp. cbn. by rewrite Hc. }
  unfold tree'. rewrite (update_slot _ _ _ _ _ _ Hp Hc).
  split_and!; [done| |].
  - by rewrite (node_at_update_at _ _ _ c).
  - intros r k j s s' -> Hkj. by apply node_at_update_at_ne.
Qed.

End Scan.

(** ** Collections *)
Import CollectionFixer.

Section CollectionTheorem.
Context `{PyLib}.

Lemma truthy_append a b : TypeInferrer.truthy (Some (String a b)) = true.
Proof. done. Qed.

Lemma isinstance_class v k :
  isinstance v k = true ↔ ∃ u l fs, v = VNode u k l fs.
Proof.
  split.
  - destruct v as [| | | | | | | | |u k' l fs]; try done. cbn.
    intros ->%String.eqb_eq. by exists u, l, fs.
  - intros (u & l & fs & ->). cbn. apply String.eqb_refl.
Qed.

(** What [_get_expr_type] returns is the type read off the expression. *)
Lemma get_expr_type_read_off e t : _get_expr_type e = Some t ↔ read_off e t.
Proof.
  unfold _get_expr_type, read_off. split.
  - destruct (isinstance e "Constant") eqn:Hc; [intros [= <-]; by left|].
    destruct (isinstance e "Name"); [done|].
    destruct (isinstance e "Call"); [|done].
    destruct (isinstance (attr e "func") "Name"); [|done].
    intros [= <-]. by right.
  - intros [[-> ->]|(Hcall & Hname & ->)]; [done|].
    apply isinstance_class in Hcall as (u & l & fs & ->).
    change (isinstance (VNode u "Call" l fs) "Constant") with false.
    change (isinstance (VNode u "Call" l fs) "Name") with false.
    change (isinstance (VNode u "Call" l fs) "Call") with true.
    cbv iota. by rewrite Hname.
Qed.

Lemma expr_types_read_off es : types_read_off es (expr_types es).
Proof.
  intros t. unfold expr_types.
  rewrite elem_of_list_to_set, list_elem_of_In, filter_In, <- list_elem_of_In.
  rewrite list_elem_of_omap, negb_true_iff, String.eqb_neq.
  setoid_rewrite get_expr_type_read_off. tauto.
Qed.


Lemma types_read_off_unique es types :
  types_read_off es types → types = expr_types es.
Proof.
  intros Htypes. apply set_eq. intros t.
  by rewrite (Htypes t), (expr_types_read_off es t).
Qed.

(** The arguments [_infer_from_usage] collects are the first arguments of
    the [append] and [add] calls on the variable that occur in the tree. *)
Lemma appended_args_appended tree var_name a :
  a ∈ appended_args tree var_name ↔ appended tree var_name a.
Proof.
  unfold appended_args, appended.
  rewrite list_elem_of_In, in_flat_map. split.
  - intros (call & Hcall%list_elem_of_In%walk_sound & Ha).
    exists call. split; [done|].
    destruct (isinstance call "Call"); [|by destruct Ha].
    destruct (isinstance (attr call "func") "Attribute"); [|by destruct Ha].
    destruct (isinstance (attr (attr call "func") "value") "Name");
      [|by destruct Ha].
    destruct (String.eqb_spec
                (attr_str (attr (attr call "func") "value") "id") var_name)
      as [->|]; [|by destruct Ha].
    unfold in_list in Ha. cbn [existsb andb] in Ha.
    destruct (String.eqb_spec (attr_str (attr call "func") "attr") "append")
      as [Happ|_].
    + split_and!; [done..|by left|].
      destruct (attr_list call "args") as [|a0 args]; [done|].
      by destruct Ha as [<-|[]].
    + destruct (String.eqb_spec (attr_str (attr call "func") "attr") "add")
        as [Hadd|_]; [|by destruct Ha].
      split_and!; [done..|by right|].
      destruct (attr_list call "args") as [|a0 args]; [done|].
      by destruct Ha as [<-|[]].
  - intros (call & Hsub & Hcall & Hattr & Hname & <- & Hmethod & Hargs).
    exists call. split.
    + apply list_elem_of_In, walk_subnode; [|done].
      destruct (is_node tree) eqn:Ht; [done|].
      apply subnode_of_leaf in Hsub; [|done]. subst call.
      apply isinstance_is_node in Hcall. congruence.
    + rewrite Hcall, Hattr, Hname, String.eqb_refl.
      assert (in_list (attr_str (attr call "func") "attr") ["append"; "add"]
              = true) as ->.
      { unfold in_list. cbn [existsb].
        destruct Hmethod as [->| ->]; [done|]. cbn. done. }
      cbn [andb]. destruct (attr_list call "args"); [done|].
      injection Hargs as ->. by left.
Qed.

Lemma appended_types_computed tree var_name :
  appended_types tree var_name (expr_types (appended_args tree var_name)).
Proof.
  intros t. rewrite (expr_types_read_off _ t).
  by setoid_rewrite appended_args_appended.
Qed.

Lemma appended_types_unique tree var_name types :
  appended_types tree var_name types →
  types = expr_types (appended_args tree var_name).
Proof.
  intros Htypes. apply set_eq. intros t.
  by rewrite (Htypes t), (appended_types_computed tree var_name t).
Qed.

Lemma infer_from_literal_spec v :
  isinstance_any v ["List"; "Set"] = true →
  _infer_from_literal v = element_type (expr_types (attr_list v "elts")).
Proof.
  intros Hv. unfold _infer_from_literal, element_type. rewrite Hv.
  destruct (attr_list v "elts") as [|e es]; [|reflexivity].
  unfold expr_types. simpl. by rewrite elements_empty.
Qed.


Lemma usage_or_default_spec node tree var_name :
  usage_or_default node tree var_name =
  if decide (expr_types (appended_args tree var_name) = ∅)
  then literal_default (attr node "value")
  else Some (list_of (expr_types (appended_args tree var_name))).
Proof.
  unfold usage_or_default, _infer_from_usage, list_of.
  destruct (elements (expr_types _)) as [|t [|t' l]] eqn:He.
  - apply elements_empty_inv, leibniz_equiv in He. rewrite He.
    by rewrite decide_True.
  - rewrite decide_False; [done|]. intros Hempty.
    by rewrite Hempty, elements_empty in He.
  - rewrite decide_False; [done|]. intros Hempty.
    by rewrite Hempty, elements_empty in He.
Qed.




End CollectionTheorem.



(** ** Imports *)
Import ImportFixer.

Section Fields.

Lemma lookup_store_eq fs f v : lookup_field (store_field fs f v) f = v.
Proof.
  induction fs as [|[g w] fs IH]; simpl.
  - by rewrite String.eqb_refl.
  - destruct (String.eqb g f) eqn:E; simpl; rewrite E; [done|apply IH].
Qed.

Lemma lookup_store_ne fs f g v :
  f ≠ g → lookup_field (store_field fs f v) g = lookup_field fs g.
Proof.
  intros Hne. induction fs as [|[h w] fs IH]; simpl.
  - by apply String.eqb_neq in Hne as ->.
  - destruct (String.eqb_spec h f) as [->|Hhf]; simpl.
    + by apply String.eqb_neq in Hne as ->.
    + destruct (String.eqb h g); [done|apply IH].
Qed.

Lemma attr_setattr_eq n f v : is_node n = true → attr (setattr n f v) f = v.
Proof. destruct n; try done. intros _. apply lookup_store_eq. Qed.

Lemma attr_setattr_ne n f g v : f ≠ g → attr (setattr n f v) g = attr n g.
Proof.
  destruct n; try done. intros Hne. by apply lookup_store_ne.
Qed.

Lemma isinstance_setattr n f v c : isinstance (setattr n f v) c = isinstance n c.
Proof. by destruct n. Qed.

Lemma body_setattr tree b :
  is_node tree = true → body (setattr tree "body" (VList b)) = b.
Proof. intros Ht. unfold body, attr_list. by rewrite attr_setattr_eq. Qed.

End Fields.

Section Aliases.

Lemma alias_names_new fresh names :
  (λ alias, attr_str alias "name")
    <$> imap (λ i name, alias_ (fresh + i) None name) names = names.
Proof.
  rewrite fmap_imap. unfold compose. simpl.
  rewrite (imap_const id). apply list_fmap_id.
Qed.


Lemma sorted_elements_elem (s : gset string) x :
  x ∈ sorted (elements s) ↔ x ∈ s.
Proof. by rewrite sorted_permutation, elem_of_elements. Qed.

Lemma is_typing_from_node node : is_typing_from node = true → is_node node = true.
Proof.
  unfold is_typing_from. intros [Hi _]%andb_true_iff.
  by eapply isinstance_is_node.
Qed.

Lemma is_typing_from_extend fresh node imports :
  is_typing_from (extend_names fresh node imports) = is_typing_from node.
Proof.
  unfold extend_names. destruct (decide _); [done|].
  unfold is_typing_from. rewrite isinstance_setattr.
  unfold attr_str. by rewrite attr_setattr_ne.
Qed.

Lemma alias_names_extend fresh node imports :
  is_node node = true →
  alias_names (extend_names fresh node imports) =
  alias_names node
  ++ sorted (elements (imports ∖ list_to_set (alias_names node))).
Proof.
  intros Hn. unfold extend_names. destruct (decide _) as [->|Hne].
  - assert (sorted (elements (∅ : gset string)) = []) as -> by done.
    by rewrite app_nil_r.
  - unfold alias_names at 1, attr_list. rewrite attr_setattr_eq by done.
    rewrite fmap_app. f_equal. apply alias_names_new.
Qed.


End Aliases.

Section Reconciler.



Lemma needed_subseteq tree : _find_needed_imports tree ⊆ TYPING_IMPORTS.
Proof.
  unfold _find_needed_imports. intros x Hx%elem_of_list_to_set.
  apply list_elem_of_In, in_flat_map in Hx as (node & _ & Hx).
  apply in_app_or in Hx as [Hx|Hx].
  - destruct (isinstance_any _ _); [|done].
    apply in_flat_map in Hx as (child & _ & Hx).
    unfold annotation_names in Hx.
    repeat case_match; try done; destruct Hx as [<-|[]];
      repeat match goal with
             | H : _ && _ = true |- _ => apply andb_true_iff in H as [? H]
             | H : bool_decide _ = true |- _ => apply bool_decide_eq_true in H
             end; done.
  - destruct (is_typevar_assign node); [|done].
    destruct Hx as [<-|[]]. by vm_compute.
Qed.

Lemma flat_map_nil {A B} (f : A → list B) l :
  Forall (λ x, f x = []) l → flat_map f l = [].
Proof. induction 1 as [|x l Hx _ IH]; [done|]. simpl. by rewrite Hx, IH. Qed.

Lemma needed_of_leaf tree : is_node tree = false → _find_needed_imports tree = ∅.
Proof.
  intros Ht. unfold _find_needed_imports.
  rewrite flat_map_nil; [done|].
  apply Forall_forall. intros n Hn%walk_sound.
  apply subnode_of_leaf in Hn; [|done]. subst n.
  by destruct tree.
Qed.

Lemma alias_loop_None names existing :
  "*" ∈ names → alias_loop names existing = None.
Proof.
  revert existing. induction names as [|name rest IH]; intros existing;
    [by intros ?%elem_of_nil|].
  simpl. destruct (String.eqb_spec name "*") as [|Hne]; [done|].
  intros [?|?]%elem_of_cons; [done|by apply IH].
Qed.

Lemma in_list_elem s l : in_list s l = true ↔ s ∈ l.
Proof.
  unfold in_list. rewrite existsb_exists. split.
  - intros (x & Hx%list_elem_of_In & ->%String.eqb_eq). done.
  - intros Hs. exists s. split; [by apply list_elem_of_In|apply String.eqb_refl].
Qed.

Lemma existing_everything nodes existing :
  Exists (λ node,
    (is_typing_from node = true ∧ "*" ∈ alias_names node)
    ∨ (isinstance node "Import" = true ∧ "typing" ∈ alias_names node)) nodes →
  existing_loop nodes existing = TYPING_IMPORTS.
Proof.
  intros Hex. revert existing.
  induction Hex as [node rest Hnode|node rest _ IH]; intros existing; simpl.
  - destruct Hnode as [[Hfrom Hstar]|[Himp Hty]].
    + apply andb_true_iff in Hfrom as [-> ->].
      by rewrite alias_loop_None.
    + assert (isinstance node "ImportFrom" = false) as ->.
      { destruct node; try done. simpl in *.
        by apply String.eqb_eq in Himp as ->. }
      rewrite Himp. by apply in_list_elem in Hty as ->.
  - repeat case_match; done.
Qed.




End Reconciler.

(** *** Trees with a field replaced *)

Section Setattr.

Lemma children_store_field fs f v c :
  c ∈ flat_map (λ p, field_children p.2) (store_field fs f v) →
  c ∈ field_children v ∨ c ∈ flat_map (λ p, field_children p.2) fs.
Proof.
  induction fs as [|[g w] fs IH]; cbn [store_field flat_map snd].
  - rewrite app_nil_r. by left.
  - destruct (String.eqb g f); cbn [flat_map snd]; rewrite !elem_of_app.
    + intros [?|?]; [by left|right; by right].
    + intros [?|Hc]; [right; by left|].
      destruct (IH Hc); [by left|right; by right].
Qed.

Lemma children_setattr n f v c :
  c ∈ iter_child_nodes (setattr n f v) →
  c ∈ field_children v ∨ c ∈ iter_child_nodes n.
Proof.
  destruct n; try by right. apply children_store_field.
Qed.

Lemma lookup_field_children fs f l s :
  lookup_field fs f = VList l → s ∈ l → is_node s = true →
  s ∈ flat_map (λ p, field_children p.2) fs.
Proof.
  induction fs as [|[g w] fs IH]; [done|]. cbn [lookup_field flat_map snd].
  rewrite elem_of_app. destruct (String.eqb g f).
  - intros -> Hs Hnode. left. cbn.
    apply list_elem_of_In, filter_In. split; [by apply list_elem_of_In|done].
  - intros. right. by apply IH.
Qed.

(** A node listed in a list field is a child. *)
Lemma attr_list_child n f s :
  s ∈ attr_list n f → is_node s = true → s ∈ iter_child_nodes n.
Proof.
  unfold attr_list, attr. destruct n; try by intros ?%elem_of_nil.
  cbn [iter_fields]. destruct (lookup_field fields f) eqn:E;
    try by intros ?%elem_of_nil.
  intros. by eapply lookup_field_children.
Qed.

Lemma subnode_child x c t :
  c ∈ iter_child_nodes t → subnode x c → subnode x t.
Proof. intros. by eapply subnode_below. Qed.

Lemma subnode_inv x t :
  subnode x t → x = t ∨ ∃ c, c ∈ iter_child_nodes t ∧ subnode x c.
Proof. destruct 1; [by left|right; eauto]. Qed.

(** The nodes of a tree whose statement list was replaced. *)
Lemma subnode_setattr_list x t f l :
  subnode x (setattr t f (VList l)) →
  x = setattr t f (VList l)
  ∨ (∃ s, s ∈ l ∧ is_node s = true ∧ subnode x s)
  ∨ (∃ c, c ∈ iter_child_nodes t ∧ subnode x c).
Proof.
  intros [->|(c & Hc & Hx)]%subnode_inv; [by left|right].
  apply children_setattr in Hc as [Hc|Hc]; [left|right; eauto].
  cbn in Hc. apply list_elem_of_In, filter_In in Hc as [Hc Hnode].
  exists c. split_and!; [by apply list_elem_of_In|done..].
Qed.

End Setattr.

Section Statements.

Lemma subnode_alias x u l name : subnode x (alias_ u l name) → x = alias_ u l name.
Proof.
  intros [->|(c & Hc & _)]%subnode_inv; [done|]. by apply elem_of_nil in Hc.
Qed.

Lemma new_aliases_elem fresh names s :
  s ∈ new_aliases fresh names → ∃ u name, s = alias_ u None name.
Proof.
  unfold new_aliases. intros (i & name & -> & _)%elem_of_lookup_imap. eauto.
Qed.

Lemma extend_first_split fresh nodes imports nodes' :
  extend_first fresh nodes imports = Some nodes' →
  ∃ prefix c0 rest,
    nodes = prefix ++ c0 :: rest
    ∧ nodes' = prefix ++ extend_names fresh c0 imports :: rest
    ∧ is_typing_from c0 = true
    ∧ Forall (λ n, is_typing_from n = false) prefix.
Proof.
  revert nodes'. induction nodes as [|node nodes IH]; intros nodes'; [done|].
  cbn [extend_first]. destruct (is_typing_from node) eqn:E.
  - intros [= <-]. exists [], node, nodes. by split_and!.
  - intros (rest' & (prefix & c0 & rest & -> & -> & Hc0 & Hpre)%IH & ->)%fmap_Some.
    exists (node :: prefix), c0, rest. split_and!; [done..|by constructor].
Qed.

End Statements.

Section ReconcilerTheorem.

Lemma missing_is_node tree : missing_imports tree ≠ ∅ → is_node tree = true.
Proof.
  intros Hm. destruct (is_node tree) eqn:Ht; [done|].
  exfalso. apply Hm. unfold missing_imports.
  rewrite needed_of_leaf by done. apply leibniz_equiv. set_solver.
Qed.









End ReconcilerTheorem.



(** ** Replacement *)

Section Replace.

Lemma walk_paths_subnode tree p parent :
  (p, parent) ∈ walk_paths tree → subnode parent tree.
Proof.
  intros Hin. apply walk_sound. rewrite <- walk_paths_snd.
  apply list_elem_of_fmap. by exists (p, parent).
Qed.

Lemma find_slot_None parent old :
  Forall (λ c, is_ c old = false) (iter_child_nodes parent) →
  find_slot parent old = None.
Proof.
  intros Hall. unfold find_slot. apply fmap_None, list_find_None.
  eapply Forall_impl; [exact Hall|]. intros c Hc. by rewrite Hc.
Qed.

Lemma scan_parents_None parents old :
  Forall (λ pn, Forall (λ c, is_ c old = false) (iter_child_nodes (snd pn)))
    parents →
  scan_parents parents old = None.
Proof.
  induction 1 as [|[p parent] rest Hp _ IH]; [done|]. simpl.
  by rewrite find_slot_None.
Qed.

Lemma scan_absent tree old :
  (∀ n, subnode n tree → is_ n old = false) →
  scan_parents (walk_paths tree) old = None.
Proof.
  intros Habsent. apply scan_parents_None, Forall_forall.
  intros [p parent] Hin%walk_paths_subnode. simpl.
  apply Forall_forall. intros c Hc. apply Habsent.
  eapply subnode_trans; [|exact Hin].
  eapply subnode_below; [exact Hc|constructor].
Qed.

(** C7.  Every [_replace_node] is a no-op when [old_node] occurs nowhere in
    the tree, and overwrites the slot that holds it otherwise; but only the
    primitives of the nullable-access and collection fixers copy the old
    node's location onto the new node.  On [x = 1] the missing-annotation
    fixer's primitive (and the generic fixer's) leaves the new node without
    a line number. *)
Theorem replace_node_location_not_copied :
  (∀ tree old new,
     (∀ n, subnode n tree → is_ n old = false) →
     OptionalFixer._replace_node tree old new = tree
     ∧ CollectionFixer._replace_node tree old new = tree
     ∧ MissingHintsFixer._replace_node tree old new = tree
     ∧ GenericFixer._replace_node tree old new = tree)
  ∧ OptionalFixer._replace_node (Module_ 1 [plain_assign]) plain_assign
      promoted_assign
    = Module_ 1 [copy_location promoted_assign plain_assign]
  ∧ CollectionFixer._replace_node (Module_ 1 [plain_assign]) plain_assign
      promoted_assign
    = Module_ 1 [copy_location promoted_assign plain_assign]
  ∧ lineno_of (copy_location promoted_assign plain_assign) = Some 1
  ∧ MissingHintsFixer._replace_node (Module_ 1 [plain_assign]) plain_assign
      promoted_assign
    = Module_ 1 [promoted_assign]
  ∧ GenericFixer._replace_node (Module_ 1 [plain_assign]) plain_assign
      promoted_assign
    = Module_ 1 [promoted_assign]
  ∧ lineno_of promoted_assign = None
  ∧ lineno_of plain_assign = Some 1.
Proof.
  split; [|by vm_compute].
  intros tree old new Habsent.
  unfold OptionalFixer._replace_node, CollectionFixer._replace_node,
    MissingHintsFixer._replace_node, GenericFixer._replace_node.
  by rewrite scan_absent.
Qed.

End Replace.

(* ===================================================================== *)
(** * Further properties of the code                                     *)
(* ===================================================================== *)

(** ** Grouping diagnostics *)

Section Grouping.
Context {A : Type}.
Implicit Types (key : A → string) (g : list (string * list A)).

Lemma add_to_group_keys k x g :
  (MypyParser.add_to_group k x g).*1
  = if decide (k ∈ g.*1) then g.*1 else g.*1 ++ [k].
Proof.
  induction g as [|[k0 xs0] g IH]; csimpl.
  - done.
  - destruct (String.eqb_spec k0 k) as [->|Hne]; csimpl.
    + clear IH. destruct (decide _) as [Hk|Hk]; [done|]. exfalso. apply Hk. by left.
    + rewrite IH. clear IH. destruct (decide (k ∈ g.*1)), (decide (k ∈ k0 :: g.*1));
        try done; exfalso; set_solver.
Qed.

Lemma add_to_group_elem k x g k' xs :
  NoDup g.*1 → (k', xs) ∈ MypyParser.add_to_group k x g →
  (k' ≠ k ∧ (k', xs) ∈ g)
  ∨ (k' = k ∧ ∃ ys, xs = ys ++ [x] ∧ ((k, ys) ∈ g ∨ (ys = [] ∧ k ∉ g.*1))).
Proof.
  induction g as [|[k0 xs0] g IH]; csimpl.
  - intros _ [= -> ->]%list_elem_of_singleton. right. split; [done|].
    exists []. split; [done|]. right. split; [done|]. by intros ?%elem_of_nil.
  - intros [Hk0 Hnd]%NoDup_cons.
    destruct (String.eqb_spec k0 k) as [->|Hne].
    + intros [[= -> ->]|Hin]%elem_of_cons.
      * right. split; [done|]. exists xs0. split; [done|]. left. by left.
      * left. split; [|by right]. intros ->. apply Hk0.
        apply list_elem_of_fmap. by exists (k, xs).
    + intros [[= -> ->]|Hin]%elem_of_cons.
      * left. split; [done|by left].
      * destruct (IH Hnd Hin) as [[? ?]|(-> & ys & -> & Hys)].
        -- left. split; [done|by right].
        -- right. split; [done|]. exists ys. split; [done|].
           destruct Hys as [?|[-> Hk]]; [left; by right|right].
           split; [done|]. intros [?|?]%elem_of_cons; [congruence|done].
Qed.

Lemma add_to_group_concat k x g :
  concat (MypyParser.add_to_group k x g).*2 ≡ₚ x :: concat g.*2.
Proof.
  induction g as [|[k0 xs0] g IH]; csimpl; [done|].
  destruct (String.eqb k0 k); csimpl.
  - rewrite <- (assoc_L (++)). simpl.
    by rewrite <- Permutation_middle.
  - rewrite IH. by rewrite <- Permutation_middle.
Qed.

Lemma group_by_snoc key l x :
  MypyParser.group_by key (l ++ [x])
  = MypyParser.add_to_group (key x) x (MypyParser.group_by key l).
Proof. unfold MypyParser.group_by. by rewrite foldl_snoc. Qed.

Lemma group_by_concat key l : concat (MypyParser.group_by key l).*2 ≡ₚ l.
Proof.
  induction l as [|x l IH] using rev_ind; [done|].
  rewrite group_by_snoc, add_to_group_concat, IH.
  by rewrite <- Permutation_cons_append.
Qed.

Lemma group_by_keys key l k :
  k ∈ (MypyParser.group_by key l).*1 ↔ k ∈ key <$> l.
Proof.
  induction l as [|x l IH] using rev_ind.
  - simpl. split; by intros ?%elem_of_nil.
  - rewrite group_by_snoc, add_to_group_keys, fmap_app, elem_of_app. simpl.
    rewrite list_elem_of_singleton, <- IH.
    destruct (decide _) as [Hin|Hin].
    + split; [by left|]. intros [?| ->]; done.
    + by rewrite elem_of_app, list_elem_of_singleton.
Qed.

Lemma filter_key_nil key (l : list A) k :
  k ∉ key <$> l → filter (λ x, key x = k) l = [].
Proof.
  induction l as [|x l IH]; [done|]. csimpl. intros Hk.
  rewrite filter_cons_False; [|intros E; apply Hk; rewrite <- E; by left].
  apply IH. intros ?. apply Hk. by right.
Qed.

Lemma group_by_partitions key l :
  partitioned_by key l (MypyParser.group_by key l).
Proof.
  induction l as [|x l (Hnd & Hgroups & Hkeys)] using rev_ind.
  - split; [constructor|]. split; [by intros k xs ?%elem_of_nil|].
    by intros x ?%elem_of_nil.
  - rewrite group_by_snoc. split; [|split].
    + rewrite add_to_group_keys. destruct (decide _) as [Hin|Hin]; [done|].
      apply NoDup_app. split; [done|]. split; [|apply NoDup_singleton].
      by intros k Hk ->%list_elem_of_singleton.
    + intros k xs Hin. rewrite filter_app.
      apply add_to_group_elem in Hin
        as [[Hne Hin]|(-> & ys & -> & Hys)]; [| |done].
      * destruct (Hgroups _ _ Hin) as [Hnil ->]. split; [done|].
        rewrite (filter_cons_False _ x) by (simpl; congruence).
        rewrite filter_nil. by rewrite app_nil_r.
      * split; [by destruct ys|].
        rewrite (filter_cons_True _ x) by done. rewrite filter_nil.
        f_equal. destruct Hys as [Hin|[-> Hk]].
        -- by destruct (Hgroups _ _ Hin) as [_ <-].
        -- symmetry. apply filter_key_nil.
           intros (y & Hy & Hin)%list_elem_of_fmap. apply Hk.
           rewrite Hy. by apply Hkeys.
    + intros y [Hy|Hy]%elem_of_app.
      * rewrite add_to_group_keys. destruct (decide _); [by apply Hkeys|].
        apply elem_of_app. left. by apply Hkeys.
      * apply list_elem_of_singleton in Hy as ->.
        rewrite add_to_group_keys. destruct (decide _); [done|].
        apply elem_of_app. right. by left.
Qed.

End Grouping.

Lemma add_error_group err g :
  Runner.add_error err g = MypyParser.add_to_group (file err) err g.
Proof.
  induction g as [|[f errs] g IH]; [done|]. simpl. by rewrite IH.
Qed.

Lemma errors_by_file_group errors :
  Runner.errors_by_file errors = MypyParser.group_by file errors.
Proof.
  unfold Runner.errors_by_file, MypyParser.group_by.
  generalize (@nil (string * list error)).
  induction errors as [|err errors IH]; intros g; [done|]. simpl.
  by rewrite add_error_group, IH.
Qed.

(** The runner's grouping of the diagnostics by file and the parser's
    [group_by_file] are the same grouping, and every grouping (by file, by
    category) is a partition: one group per key that occurs, no group
    empty, each group holding exactly the diagnostics with its key in the
    order they were reported, and no diagnostic lost. *)
Theorem grouping_partitions_diagnostics errors :
  Runner.errors_by_file errors = MypyParser.group_by_file errors
  ∧ partitioned_by file errors (MypyParser.group_by_file errors)
  ∧ partitioned_by category errors (MypyParser.group_by_category errors).
Proof.
  split; [apply errors_by_file_group|].
  split; apply group_by_partitions.
Qed.

(** ** The batch run *)
Import TypeInferrer.

Section Batch.
Context `{PyLib}.
Variable read_tree : string → option (option value).
Variable dry_run strict : bool.
Variable depth : nat.
Variable timestamp : string.

Lemma apply_error_spec err tree m res c tree' m' res' c' :
  Runner.apply_error strict depth err (tree, m, res) c
  = Ok ((tree', m', res'), c') →
  (m = true → m' = true)
  ∧ if fixable err
    then Runner.manual_review res' = Runner.manual_review res
         ∧ fixes_applied res ≤ fixes_applied res' ≤ S (fixes_applied res)
         ∧ (m' = true → m = true ∨ fixes_applied res < fixes_applied res')
    else Runner.manual_review res'
         = Runner.manual_review res ++ [Runner.unhandled err]
         ∧ fixes_applied res' = fixes_applied res ∧ m' = m ∧ tree' = tree.
Proof.
  unfold Runner.apply_error, fixable, in_list, MypyParser.fixable_categories,
    fixes_applied, MissingHintsFixer.can_fix, OptionalFixer.can_fix,
    GenericFixer.can_fix, CollectionFixer.can_fix.
  cbn [existsb].
  destruct (String.eqb (category err) "missing_type_hint") eqn:E1.
  { intros ([t fixed] & c1 & Hfix & Hret)%bind_Ok.
    destruct fixed; injection Hret as <- <- <- <-; simpl;
      (split; [done|]); repeat split; try lia; auto. }
  destruct (String.eqb (category err) "optional_none") eqn:E2.
  { destruct (OptionalFixer.fix_ err tree) as [t fixed].
    destruct fixed; intros [= <- <- <- <-]; simpl;
      (split; [done|]); repeat split; try lia; auto. }
  destruct (String.eqb (category err) "generic_type") eqn:E3.
  { destruct (GenericFixer.fix_ err tree) as [t fixed].
    rewrite orb_true_r.
    destruct fixed; intros [= <- <- <- <-]; simpl;
      (split; [done|]); repeat split; try lia; auto. }
  destruct (String.eqb (category err) "collection_type") eqn:E4.
  { destruct (CollectionFixer.fix_ err tree) as [t fixed].
    destruct fixed; intros [= <- <- <- <-]; simpl;
      (split; [done|]); repeat split; try lia; auto. }
  intros [= <- <- <- <-]. simpl. done.
Qed.

Lemma apply_errors_spec errs tree m res c tree' m' res' c' :
  Runner.apply_errors strict depth errs (tree, m, res) c
  = Ok ((tree', m', res'), c') →
  (m = true → m' = true)
  ∧ Runner.manual_review res'
    = Runner.manual_review res
      ++ (Runner.unhandled <$> List.filter (λ e, negb (fixable e)) errs)
  ∧ fixes_applied res ≤ fixes_applied res'
    ≤ fixes_applied res + length (List.filter fixable errs)
  ∧ (m' = true → m = true ∨ fixes_applied res < fixes_applied res').
Proof.
  revert tree m res c.
  induction errs as [|err errs IH]; intros tree m res c.
  - intros [= <- <- <- <-]. simpl. rewrite app_nil_r.
    repeat split; try lia; auto.
  - simpl. intros ([[t1 m1] res1] & c1 & Hone & Hrest)%bind_Ok.
    apply apply_error_spec in Hone as (Hm & Hone).
    apply IH in Hrest as (Hm' & Hrev & Hfix & Hmod).
    destruct (fixable err); simpl.
    + destruct Hone as (Hrev1 & Hfix1 & Hmod1).
      rewrite Hrev, Hrev1. repeat split; try lia; auto.
      intros Hm2. destruct (Hmod Hm2) as [Hm1|?]; [|right; lia].
      destruct (Hmod1 Hm1); [by left|right; lia].
    + destruct Hone as (Hrev1 & Hfix1 & -> & ->).
      rewrite Hrev, Hrev1, <- (assoc_L (++)). simpl.
      repeat split; try lia; auto.
      intros Hm2. destruct (Hmod Hm2); [by left|right; lia].
Qed.

Lemma process_file_spec fe res written c res' written' c' :
  Runner.process_file read_tree dry_run strict depth fe (res, written) c
  = Ok ((res', written'), c') →
  Runner.manual_review res' = Runner.manual_review res ++ review_of read_tree fe
  ∧ fixes_applied res ≤ fixes_applied res'
    ≤ fixes_applied res + length (List.filter fixable fe.2)
  ∧ ∃ w, written' = written ++ w
      ∧ w.*1 `sublist_of` [fe.1]
      ∧ length w + fixes_applied res ≤ fixes_applied res'
      ∧ (dry_run = true → w = [])
      ∧ (w ≠ [] → ∃ t0, read_tree fe.1 = Some (Some t0))
      ∧ (∀ ft, ft ∈ w → unparse_raises ft.2 = false).
Proof.
  destruct fe as [f errs]. unfold Runner.process_file, review_of. simpl.
  destruct (read_tree f) as [[tree|]|] eqn:Hread.
  - intros ([[t1 m1] res1] & c1 & Herrs & Hret)%bind_Ok.
    apply apply_errors_spec in Herrs as (_ & Hrev & Hfix & Hmod).
    destruct m1.
    + destruct (ImportFixer.add_missing_imports t1) as [t2 added].
      destruct (Hmod eq_refl) as [?|Hlt]; [done|].
      destruct dry_run.
      * injection Hret as <- <- <-. simpl.
        split; [done|]. split; [unfold fixes_applied in *; simpl; lia|].
        exists []. rewrite app_nil_r.
        split_and!; [done|apply sublist_nil_l|unfold fixes_applied in *; simpl; lia
                    |done|done|by intros ft ?%elem_of_nil].
      * destruct (unparse_raises t2) eqn:Hraises; [done|].
        injection Hret as <- <- <-. simpl.
        split; [done|]. split; [unfold fixes_applied in *; simpl; lia|].
        exists [(f, t2)].
        split_and!; [done|done|unfold fixes_applied in *; simpl; lia|done|eauto|].
        by intros ft ->%list_elem_of_singleton.
    + injection Hret as <- <- <-. split; [done|]. split; [done|].
      exists []. rewrite app_nil_r.
      split_and!; [done|apply sublist_nil_l|simpl; lia|done|done
                  |by intros ft ?%elem_of_nil].
  - intros [= <- <- <-]. simpl. split; [done|]. split; [unfold fixes_applied; simpl; lia|].
    exists []. rewrite app_nil_r.
    split_and!; [done|apply sublist_nil_l|unfold fixes_applied; simpl; lia|done|done
                |by intros ft ?%elem_of_nil].
  - intros [= <- <- <-]. simpl. rewrite app_nil_r. split; [done|]. split; [lia|].
    exists []. rewrite app_nil_r.
    split_and!; [done|apply sublist_nil_l|simpl; lia|done|done
                |by intros ft ?%elem_of_nil].
Qed.

Lemma process_files_spec files res written c res' written' c' :
  Runner.process_files read_tree dry_run strict depth files (res, written) c
  = Ok ((res', written'), c') →
  Runner.manual_review res'
  = Runner.manual_review res ++ flat_map (review_of read_tree) files
  ∧ fixes_applied res ≤ fixes_applied res'
    ≤ fixes_applied res + length (List.filter fixable (concat files.*2))
  ∧ ∃ w, written' = written ++ w
      ∧ w.*1 `sublist_of` files.*1
      ∧ length w + fixes_applied res ≤ fixes_applied res'
      ∧ (dry_run = true → w = [])
      ∧ (∀ f, f ∈ w.*1 → ∃ t0, read_tree f = Some (Some t0))
      ∧ (∀ ft, ft ∈ w → unparse_raises ft.2 = false).
Proof.
  revert res written c.
  induction files as [|fe files IH]; intros res written c.
  - intros [= <- <- <-]. simpl. rewrite app_nil_r. split; [done|]. split; [lia|].
    exists []. rewrite app_nil_r.
    split_and!; [done|done|simpl; lia|done|by intros f ?%elem_of_nil
                |by intros ft ?%elem_of_nil].
  - cbn [Runner.process_files].
    intros ([res1 written1] & c1 & Hone & Hrest)%bind_Ok.
    apply process_file_spec in Hone
      as (Hrev1 & Hfix1 & w1 & -> & Hsub1 & Hlen1 & Hdry1 & Hread1 & Hok1).
    apply IH in Hrest
      as (Hrev & Hfix & w & -> & Hsub & Hlen & Hdry & Hread & Hok).
    rewrite Hrev, Hrev1, <- (assoc_L (++)).
    rewrite fmap_cons. cbn [concat flat_map].
    rewrite List.filter_app, length_app.
    split; [done|]. split; [lia|].
    exists (w1 ++ w). rewrite (assoc_L (++)). split; [done|].
    rewrite fmap_app, length_app.
    split; [by apply (sublist_app _ [_])|]. split; [lia|].
    split_and!.
    + intros Hd. by rewrite Hdry1, Hdry.
    + intros f [Hf|Hf]%elem_of_app; [|by apply Hread].
      assert (w1 ≠ []) as Hne by (by destruct w1; [apply elem_of_nil in Hf|]).
      destruct w1 as [|[f1 t1] [|? ?]]; [done| |].
      * apply sublist_cons_r in Hsub1 as [Hs|(l' & E & _)].
        -- by apply sublist_nil_r in Hs.
        -- injection E as ->. apply list_elem_of_singleton in Hf as ->.
           by apply Hread1.
      * apply sublist_length in Hsub1. simpl in Hsub1. lia.
    + intros ft [?|?]%elem_of_app; auto.
Qed.

Lemma filter_length_perm {A} (f : A → bool) l1 l2 :
  l1 ≡ₚ l2 → length (List.filter f l1) = length (List.filter f l2).
Proof.
  induction 1 as [|x l1 l2 _ IH|x y l|l1 l2 l3 _ IH1 _ IH2]; simpl;
    [done| |by destruct (f x), (f y)|congruence].
  destruct (f x); simpl; congruence.
Qed.

Lemma elem_of_filter_fixable e errors :
  e ∈ MypyParser.filter_fixable errors ↔ e ∈ errors ∧ fixable e = true.
Proof.
  unfold MypyParser.filter_fixable.
  rewrite !list_elem_of_In, filter_In. done.
Qed.

Lemma auto_fix_all_Ok errors res written :
  Runner.auto_fix_all read_tree dry_run strict depth timestamp errors
  = Ok (res, written) →
  ∃ sources c',
    Runner.process_files read_tree dry_run strict depth
      (MypyParser.group_by file errors) (Runner.no_results, []) ∅
    = Ok ((res, sources), c')
    ∧ written = (if dry_run then [] else [Runner._create_backup timestamp])
                ++ (prod_map id Runner.Source <$> sources).
Proof.
  unfold Runner.auto_fix_all. rewrite errors_by_file_group.
  destruct (Runner.process_files _ _ _ _ _ _ _) as [[[r w] c']| |]; [|done..].
  intros [= <- <-]. by exists w, c'.
Qed.

(** What a batch hands to the file system.  Unless it is a dry run, which
    writes nothing at all, a run that returns has first written the note
    of [_create_backup] and then written trees back: each to a file that
    a diagnostic names, that exists and that parses, no file twice, no
    more files than it counted fixes, and no tree on which [ast.unparse]
    raises. *)
Theorem batch_writes_each_fixed_file_once errors res written :
  Runner.auto_fix_all read_tree dry_run strict depth timestamp errors
  = Ok (res, written) →
  ∃ sources,
    written
    = (if dry_run then []
       else [(".type-guardian/backups/" +:+ timestamp +:+ "/README.txt",
              Runner.Text ("Backup created at " +:+ timestamp +:+ Runner.nl
                           +:+ "Use git to restore if needed" +:+ Runner.nl))])
      ++ (prod_map id Runner.Source <$> sources)
    ∧ NoDup sources.*1
    ∧ (∀ f, f ∈ sources.*1 →
         f ∈ file <$> errors ∧ ∃ t0, read_tree f = Some (Some t0))
    ∧ (∀ f t, (f, t) ∈ sources → unparse_raises t = false)
    ∧ length sources ≤ fixes_applied res
    ∧ (dry_run = true → written = []).
Proof.
  intros (sources & c' & Hrun & ->)%auto_fix_all_Ok.
  apply process_files_spec in Hrun
    as (_ & _ & w & -> & Hsub & Hlen & Hdry & Hread & Hok).
  destruct (group_by_partitions file errors) as (Hnd & _ & _).
  exists w. simpl. split_and!.
  - done.
  - by eapply sublist_NoDup.
  - intros f Hf. split; [|by apply Hread].
    apply group_by_keys. by eapply elem_of_sublist.
  - intros f t Hft. apply (Hok (f, t) Hft).
  - unfold fixes_applied in Hlen at 1. simpl in Hlen. lia.
  - intros Hd. by rewrite Hd, (Hdry Hd).
Qed.

(** The fixes a batch counts are at most the diagnostics [filter_fixable]
    keeps; the diagnostics it drops are exactly the ones handed to manual
    review, for the files that were read and parsed; and a file is
    reported as a syntax error exactly when a diagnostic names it and it
    does not parse. *)
Theorem batch_accounts_for_every_diagnostic errors res written :
  Runner.auto_fix_all read_tree dry_run strict depth timestamp errors
  = Ok (res, written) →
  fixes_applied res ≤ length (MypyParser.filter_fixable errors)
  ∧ (∀ e, Runner.unhandled e ∈ Runner.manual_review res ↔
       e ∈ errors ∧ e ∉ MypyParser.filter_fixable errors
       ∧ ∃ t0, read_tree (file e) = Some (Some t0))
  ∧ (∀ f, Runner.syntax_error f ∈ Runner.manual_review res ↔
       f ∈ file <$> errors ∧ read_tree f = Some None).
Proof.
  intros (sources & c' & Hrun & _)%auto_fix_all_Ok.
  apply process_files_spec in Hrun as (Hrev & Hfix & _).
  destruct (group_by_partitions file errors) as (Hnd & Hgroups & Hkeys).
  simpl in Hrev. split_and!.
  - unfold fixes_applied in Hfix at 1 3. simpl in Hfix.
    unfold MypyParser.filter_fixable.
    rewrite <- (filter_length_perm _ _ _ (group_by_concat file errors)).
    apply Hfix.
  - intros e. rewrite Hrev, elem_of_filter_fixable.
    rewrite list_elem_of_In, in_flat_map. split.
    + intros ([f errs] & Hfe%list_elem_of_In & He). unfold review_of in He.
      simpl in He. destruct (Hgroups _ _ Hfe) as [_ Herrs].
      destruct (read_tree f) as [[t0|]|] eqn:Hread; simpl in He.
      * apply list_elem_of_In, list_elem_of_fmap in He as (e' & [= <-] & He).
        apply list_elem_of_In, filter_In in He as [He Hfx].
        rewrite Herrs in He.
        apply list_elem_of_In, list_elem_of_filter in He as [-> He].
        split; [done|]. split; [|eauto].
        intros [_ ?]. by destruct (fixable e).
      * by destruct He.
      * done.
    + intros (He & Hfx & t0 & Hread).
      pose proof (Hkeys _ He) as ([f errs] & Hf & Hfe)%list_elem_of_fmap.
      simpl in Hf. subst f. exists (file e, errs).
      split; [by apply list_elem_of_In|].
      unfold review_of. simpl. rewrite Hread.
      apply list_elem_of_In, list_elem_of_fmap. exists e. split; [done|].
      apply list_elem_of_In, filter_In. split.
      * destruct (Hgroups _ _ Hfe) as [_ ->].
        apply list_elem_of_In, list_elem_of_filter. done.
      * destruct (fixable e); [|done]. exfalso. by apply Hfx.
  - intros f. rewrite Hrev. simpl.
    rewrite list_elem_of_In, in_flat_map. split.
    + intros ([f' errs] & Hfe%list_elem_of_In & He). unfold review_of in He.
      simpl in He.
      destruct (read_tree f') as [[t0|]|] eqn:Hread; simpl in He.
      * by apply list_elem_of_In, list_elem_of_fmap in He as (e' & [=] & _).
      * destruct He as [[= ->]|[]]. split; [|done].
        apply group_by_keys, list_elem_of_fmap. by exists (f, errs).
      * done.
    + intros [Hf Hread].
      apply group_by_keys, list_elem_of_fmap in Hf as ([f' errs] & Hf & Hfe).
      simpl in Hf. subst f'. exists (f, errs).
      split; [by apply list_elem_of_In|].
      unfold review_of. simpl. rewrite Hread. by left.
Qed.

End Batch.

(** ** Dry runs *)

Section DryRun.
Context `{PyLib}.
Variable read_tree : string → option (option value).
Variable strict : bool.
Variable depth : nat.
Variable timestamp : string.




End DryRun.

Lemma two_diagnostics_batch_runs :
  ∃ res written,
    @Runner.auto_fix_all names_only two_files false false 10 "20240101-120000"
      [missing_hint "a.py" 2; missing_hint "b.py" 2] = Ok (res, written).
Proof.
  eassert (@Runner.auto_fix_all names_only two_files false false 10
             "20240101-120000"
             [missing_hint "a.py" 2; missing_hint "b.py" 2] = Ok (_, _)) as E
    by (vm_compute; reflexivity).
  eexists _, _. exact E.
Qed.

Lemma batch_writes_each_fixed_file_once_witness :
  ∃ res written,
    @Runner.auto_fix_all names_only two_files false false 10 "20240101-120000"
      [missing_hint "a.py" 2; missing_hint "b.py" 2] = Ok (res, written)
    ∧ ∃ sources,
        written
        = [(".type-guardian/backups/20240101-120000/README.txt",
            Runner.Text ("Backup created at 20240101-120000" +:+ Runner.nl
                         +:+ "Use git to restore if needed" +:+ Runner.nl))]
          ++ (prod_map id Runner.Source <$> sources)
        ∧ NoDup sources.*1
        ∧ (∀ f, f ∈ sources.*1 →
             f ∈ file <$> [missing_hint "a.py" 2; missing_hint "b.py" 2]
             ∧ ∃ t0, two_files f = Some (Some t0))
        ∧ (∀ f t, (f, t) ∈ sources → unparse_raises t = false)
        ∧ length sources ≤ fixes_applied res
        ∧ (false = true → written = []).
Proof.
  destruct two_diagnostics_batch_runs as (res & written & E).
  exists res, written. split; [exact E|].
  exact (@batch_writes_each_fixed_file_once names_only two_files false false 10
           "20240101-120000" _ res written E).
Defined.

Lemma batch_accounts_for_every_diagnostic_witness :
  ∃ res written,
    @Runner.auto_fix_all names_only two_files false false 10 "20240101-120000"
      [missing_hint "a.py" 2; missing_hint "b.py" 2] = Ok (res, written)
    ∧ fixes_applied res
      ≤ length (MypyParser.filter_fixable
                  [missing_hint "a.py" 2; missing_hint "b.py" 2])
    ∧ (∀ e, Runner.unhandled e ∈ Runner.manual_review res ↔
         e ∈ [missing_hint "a.py" 2; missing_hint "b.py" 2]
         ∧ e ∉ MypyParser.filter_fixable
                 [missing_hint "a.py" 2; missing_hint "b.py" 2]
         ∧ ∃ t0, two_files (file e) = Some (Some t0))
    ∧ (∀ f, Runner.syntax_error f ∈ Runner.manual_review res ↔
         f ∈ file <$> [missing_hint "a.py" 2; missing_hint "b.py" 2]
         ∧ two_files f = Some None).
Proof.
  destruct two_diagnostics_batch_runs as (res & written & E).
  exists res, written. split; [exact E|].
  exact (@batch_accounts_for_every_diagnostic names_only two_files false false
           10 "20240101-120000" _ res written E).
Defined.


(** ** What inference always returns *)
Import TypeInferrer.

Lemma append_nonempty a b x : String a b +:+ x ≠ "".
Proof. by change (String a (b +:+ x) ≠ ""). Qed.

Lemma truthy_Some o : truthy o = true ↔ ∃ s, o = Some s ∧ s ≠ "".
Proof.
  destruct o as [s|]; simpl.
  - rewrite negb_true_iff, String.eqb_neq. naive_solver.
  - naive_solver.
Qed.

Lemma unify_nonempty (S : gset string) :
  (∀ t, t ∈ S → t ≠ "") → _unify_types S ≠ "".
Proof.
  intros HS. rewrite unify_unfold. simpl.
  destruct (decide (without_any S = ∅)); [done|].
  destruct (elements (without_any S)) as [|t [|t' l]] eqn:E.
  - repeat case_decide; try done; apply append_nonempty.
  - apply HS. assert (t ∈ without_any S) as Ht.
    { apply elem_of_elements. rewrite E. by left. }
    unfold without_any in Ht. set_solver.
  - repeat case_decide; try done; apply append_nonempty.
Qed.

Lemma collected_nonempty tys t : t ∈ collected tys → t ≠ "".
Proof.
  unfold collected. rewrite elem_of_list_to_set, list_elem_of_omap.
  intros (o & Ho & Hid). simpl in Hid. subst o.
  apply list_elem_of_In, filter_In in Ho as [_ Ho].
  apply truthy_Some in Ho as (s & [= ->] & ?). done.
Qed.

Section Yields.
Context `{PyLib}.

Lemma infer_from_patterns_yields ps :
  ∃ s, _infer_from_patterns false ps = Some s ∧ s ≠ "".
Proof.
  induction ps as [|p ps IH]; simpl; [by eexists|].
  destruct p as [method|[k|]| |op]; repeat case_match; try done;
    by eexists.
Qed.

Lemma assignment_types_nonempty strict depth tree assignments types c types' c' :
  assignment_types strict depth tree assignments types c = Ok (types', c') →
  (∀ t, t ∈ types → t ≠ "") →
  (∀ t, t ∈ types' → t ≠ "") ∧ (types ≠ ∅ → types' ≠ ∅).
Proof.
  revert types c. induction assignments as [|a rest IH]; intros types c; simpl.
  - by intros [= <- <-].
  - intros (ty & c1 & _ & Hrest)%bind_Ok Htypes.
    destruct (truthy ty) eqn:Hty.
    + apply truthy_Some in Hty as (s & -> & Hs). simpl in Hrest.
      apply IH in Hrest as [H1 H2]; [|set_solver].
      split; [done|]. intros _. apply H2. set_solver.
    + by apply IH in Hrest.
Qed.

Lemma infer_return_type_yields strict depth func c r c' :
  infer_return_type strict depth func c = Ok (r, c') →
  ∃ s, r = Some s ∧ s ≠ "".
Proof.
  rewrite infer_return_type_eq.
  intros (tys & c1 & _ & [= <- <-])%bind_Ok.
  eexists. split; [done|]. unfold return_type_of.
  destruct (decide _) as [|Hne]; [done|].
  destruct (has_bare_return func); [apply append_nonempty|].
  apply unify_nonempty, collected_nonempty.
Qed.

Lemma infer_param_type_yields depth param_name func c r c' :
  infer_param_type false depth param_name func c = Ok (r, c') →
  ∃ s, r = Some s ∧ s ≠ "".
Proof.
  unfold infer_param_type. intros (ps & c1 & _ & Hret)%bind_Ok.
  destruct ps as [|p ps]; [injection Hret as <- <-; by eexists|].
  injection Hret as <- <-. exact (infer_from_patterns_yields (p :: ps)).
Qed.

Lemma infer_variable_type_yields depth var_name context tree c r c' :
  infer_variable_type false depth var_name context tree c = Ok (r, c') →
  ∃ s, r = Some s ∧ s ≠ "".
Proof.
  unfold infer_variable_type. intros (first & c1 & _ & Hret)%bind_Ok.
  destruct (truthy first) eqn:Hfirst; simpl in Hret.
  - destruct (bool_decide (first = Some "Any")); simpl in Hret.
    + apply bind_Ok in Hret as (types & c2 & Htypes & Hret).
      destruct (decide (types = ∅)); injection Hret as <- <-;
        [by eexists|].
      eexists. split; [done|]. apply unify_nonempty.
      by eapply assignment_types_nonempty.
    + injection Hret as <- <-. by apply truthy_Some.
  - apply bind_Ok in Hret as (types & c2 & Htypes & Hret).
    destruct (decide (types = ∅)); injection Hret as <- <-;
      [by eexists|].
    eexists. split; [done|]. apply unify_nonempty.
    by eapply assignment_types_nonempty.
Qed.

(** [infer_return_type] always produces an annotation, in strict mode
    too, and in non-strict mode so do [infer_param_type] and
    [infer_variable_type]: whenever they return, the result is a type
    name, never [None] and never the empty string. *)
Theorem inference_always_yields_a_type :
  (∀ strict depth func c r c',
     infer_return_type strict depth func c = Ok (r, c') →
     ∃ s, r = Some s ∧ s ≠ "")
  ∧ (∀ depth param_name func c r c',
       infer_param_type false depth param_name func c = Ok (r, c') →
       ∃ s, r = Some s ∧ s ≠ "")
  ∧ (∀ depth var_name context tree c r c',
       infer_variable_type false depth var_name context tree c = Ok (r, c') →
       ∃ s, r = Some s ∧ s ≠ "").
Proof.
  split_and!.
  - apply infer_return_type_yields.
  - apply infer_param_type_yields.
  - apply infer_variable_type_yields.
Qed.

End Yields.

(** ** What [_replace_node] overwrites *)

Section Overwrite.

(** When the node to replace occurs below the root, every [_replace_node]
    writes the new node into a slot that held it -- under the old node's
    location for the nullable-access and collection fixers, as it is for
    the missing-annotation and generic fixers -- and a slot that is not
    on the way to that slot keeps its node. *)
Theorem replace_node_overwrites_one_slot tree old new :
  is_node new = true → occurs_below tree old →
  ∃ q c,
    node_at q tree = Some c ∧ is_ c old = true
    ∧ node_at q (OptionalFixer._replace_node tree old new)
      = Some (copy_location new old)
    ∧ node_at q (CollectionFixer._replace_node tree old new)
      = Some (copy_location new old)
    ∧ node_at q (MissingHintsFixer._replace_node tree old new) = Some new
    ∧ node_at q (GenericFixer._replace_node tree old new) = Some new
    ∧ ∀ r k j s s', q = r ++ k :: s → k ≠ j →
        node_at (r ++ j :: s') (OptionalFixer._replace_node tree old new)
        = node_at (r ++ j :: s') tree
        ∧ node_at (r ++ j :: s') (CollectionFixer._replace_node tree old new)
          = node_at (r ++ j :: s') tree
        ∧ node_at (r ++ j :: s') (MissingHintsFixer._replace_node tree old new)
          = node_at (r ++ j :: s') tree
        ∧ node_at (r ++ j :: s') (GenericFixer._replace_node tree old new)
          = node_at (r ++ j :: s') tree.
Proof.
  intros Hnew (p & i & parent & c & Hscan & Hp & Hc & Hold)%scan_occurs.
  unfold OptionalFixer._replace_node, CollectionFixer._replace_node,
    MissingHintsFixer._replace_node, GenericFixer._replace_node.
  rewrite Hscan.
  assert (is_node (copy_location new old) = true) as Hnew'
    by by rewrite copy_location_is_node.
  destruct (overwrite_slot tree p i parent c _ Hnew' Hp Hc) as (Hq & H1 & F1).
  destruct (overwrite_slot tree p i parent c _ Hnew Hp Hc) as (_ & H2 & F2).
  exists (p ++ [i]), c. split_and!; [done..|].
  intros r k j s s' E Hkj. split_and!; by (eapply F1 || eapply F2).
Qed.

End Overwrite.

Lemma replace_node_overwrites_one_slot_witness :
  is_node promoted_assign = true
  ∧ occurs_below (Module_ 1 [plain_assign]) plain_assign
  ∧ ∃ q c,
      node_at q (Module_ 1 [plain_assign]) = Some c
      ∧ is_ c plain_assign = true
      ∧ node_at q (OptionalFixer._replace_node (Module_ 1 [plain_assign])
                     plain_assign promoted_assign)
        = Some (copy_location promoted_assign plain_assign)
      ∧ node_at q (CollectionFixer._replace_node (Module_ 1 [plain_assign])
                     plain_assign promoted_assign)
        = Some (copy_location promoted_assign plain_assign)
      ∧ node_at q (MissingHintsFixer._replace_node (Module_ 1 [plain_assign])
                     plain_assign promoted_assign) = Some promoted_assign
      ∧ node_at q (GenericFixer._replace_node (Module_ 1 [plain_assign])
                     plain_assign promoted_assign) = Some promoted_assign
      ∧ ∀ r k j s s', q = r ++ k :: s → k ≠ j →
          node_at (r ++ j :: s')
            (OptionalFixer._replace_node (Module_ 1 [plain_assign])
               plain_assign promoted_assign)
          = node_at (r ++ j :: s') (Module_ 1 [plain_assign])
          ∧ node_at (r ++ j :: s')
              (CollectionFixer._replace_node (Module_ 1 [plain_assign])
                 plain_assign promoted_assign)
            = node_at (r ++ j :: s') (Module_ 1 [plain_assign])
          ∧ node_at (r ++ j :: s')
              (MissingHintsFixer._replace_node (Module_ 1 [plain_assign])
                 plain_assign promoted_assign)
            = node_at (r ++ j :: s') (Module_ 1 [plain_assign])
          ∧ node_at (r ++ j :: s')
              (GenericFixer._replace_node (Module_ 1 [plain_assign])
                 plain_assign promoted_assign)
            = node_at (r ++ j :: s') (Module_ 1 [plain_assign]).
Proof.
  assert (occurs_below (Module_ 1 [plain_assign]) plain_assign) as Hocc.
  { exists (Module_ 1 [plain_assign]), plain_assign.
    split; [constructor|]. split; [by left|reflexivity]. }
  split; [reflexivity|]. split; [exact Hocc|].
  exact (replace_node_overwrites_one_slot (Module_ 1 [plain_assign])
           plain_assign promoted_assign eq_refl Hocc).
Defined.

(** ** The traversal, level by level *)

Section Levels.

Lemma walk_paths_queue_app fuel xs ys :
  length xs ≤ fuel →
  walk_paths_queue fuel (xs ++ ys)
  = xs ++ walk_paths_queue (fuel - length xs) (ys ++ next_level xs).
Proof.
  revert fuel ys. induction xs as [|[p n] xs IH]; intros fuel ys Hlen.
  - cbn. by rewrite Nat.sub_0_r, app_nil_r.
  - destruct fuel as [|k]; [cbn in Hlen; lia|]. cbn in Hlen.
    cbn [app walk_paths_queue]. f_equal.
    rewrite <- app_assoc, IH by lia. cbn [length Nat.sub next_level flat_map fst snd].
    by rewrite <- app_assoc.
Qed.

Lemma children_at_weight p n :
  list_sum (map (λ pn, node_count pn.2) (children_at p n))
  = list_sum (map node_count (iter_child_nodes n)).
Proof.
  rewrite <- (children_at_snd p n). by rewrite map_map.
Qed.

Lemma next_level_nodes xs :
  Forall (λ pn : path * value, is_node pn.2 = true) (next_level xs).
Proof.
  apply Forall_forall. intros [r c] Hin.
  apply list_elem_of_In, in_flat_map in Hin as ([p n] & _ & Hin).
  apply list_elem_of_In, children_at_elem in Hin as (i & -> & Hc).
  by eapply child_is_node.
Qed.

Lemma next_level_weight xs :
  Forall (λ pn : path * value, is_node pn.2 = true) xs →
  length xs + list_sum (map (λ pn, node_count pn.2) (next_level xs))
  ≤ list_sum (map (λ pn, node_count pn.2) xs).
Proof.
  induction 1 as [|[p n] xs Hn _ IH]; [done|].
  cbn [next_level flat_map fst snd length map list_sum].
  rewrite map_app, list_sum_app, children_at_weight.
  pose proof (iter_child_nodes_count n Hn). unfold next_level in IH.
  change (list_sum (?a :: ?l)) with (a + list_sum l). lia.
Qed.

Lemma walk_paths_queue_levels d fuel xs :
  Forall (λ pn : path * value, is_node pn.2 = true) xs →
  list_sum (map (λ pn, node_count pn.2) xs) ≤ fuel →
  ∃ rest, walk_paths_queue fuel xs = levels d xs ++ rest.
Proof.
  revert fuel xs. induction d as [|d IH]; intros fuel xs Hnodes Hfuel;
    pose proof (next_level_weight xs Hnodes) as Hw;
    (replace (walk_paths_queue fuel xs)
       with (walk_paths_queue fuel (xs ++ [])) by by rewrite app_nil_r);
    rewrite walk_paths_queue_app by lia.
  - eauto.
  - destruct (IH (fuel - length xs) (next_level xs)) as [rest E];
      [apply next_level_nodes|lia|].
    exists rest. cbn [app levels]. by rewrite E, app_assoc.
Qed.

(** The traversal starts with the levels of the tree, one after the
    other. *)
Lemma walk_paths_levels t d :
  is_node t = true → ∃ rest, walk_paths t = levels d [([], t)] ++ rest.
Proof.
  intros Ht. apply walk_paths_queue_levels; [by repeat constructor|].
  cbn. lia.
Qed.

Lemma levels_depth d m xs :
  Forall (λ pn : path * value, length pn.1 ≤ m) xs →
  Forall (λ pn : path * value, length pn.1 ≤ m + d) (levels d xs).
Proof.
  revert m xs. induction d as [|d IH]; intros m xs Hxs; cbn [levels].
  - eapply Forall_impl; [done|]. cbn. intros; lia.
  - apply Forall_app. split.
    + eapply Forall_impl; [done|]. cbn. intros; lia.
    + replace (m + S d) with (S m + d) by lia. apply IH.
      apply Forall_forall. intros [r c] Hin.
      apply list_elem_of_In, in_flat_map in Hin as ([p n] & Hpn & Hin).
      apply list_elem_of_In, children_at_elem in Hin as (i & -> & Hc).
      apply list_elem_of_In in Hpn.
      apply (proj1 (Forall_forall _ _) Hxs) in Hpn. cbn in *.
      rewrite length_app. cbn. lia.
Qed.

Lemma levels_reach p : ∀ xs p0 n0 n,
  (p0, n0) ∈ xs → node_at p n0 = Some n →
  (p0 ++ p, n) ∈ levels (length p) xs.
Proof.
  induction p as [|i p IH]; intros xs p0 n0 n Hin Hn.
  - cbn in *. injection Hn as <-. by rewrite app_nil_r.
  - cbn in Hn. destruct (iter_child_nodes n0 !! i) as [c|] eqn:Hc; [|done].
    cbn in Hn. cbn [length levels]. apply elem_of_app. right.
    replace (p0 ++ i :: p) with ((p0 ++ [i]) ++ p) by by rewrite <- app_assoc.
    apply (IH _ _ c); [|done].
    apply list_elem_of_In, in_flat_map. exists (p0, n0).
    split; [by apply list_elem_of_In|].
    apply list_elem_of_In, children_at_elem. eauto.
Qed.

Lemma node_at_walk_paths t p n :
  is_node t = true → node_at p t = Some n → (p, n) ∈ walk_paths t.
Proof.
  intros Ht Hn. destruct (walk_paths_levels t (length p) Ht) as [rest ->].
  apply elem_of_app. left.
  apply (levels_reach p [([], t)] [] t n); [by left|done].
Qed.

End Levels.

(** ** The traversal of a tree with one slot overwritten *)

Section Patched.
Implicit Types (p q r : path) (n c new : value).

Lemma patched_at q new n : patched q new (q, n) = (q, new).
Proof.
  unfold patched. cbn [fst snd]. rewrite firstn_all, drop_all.
  by rewrite decide_True.
Qed.

Lemma patched_on_path p i r new n :
  patched (p ++ i :: r) new (p, n) = (p, update_at (i :: r) (λ _, new) n).
Proof.
  unfold patched. cbn [fst snd].
  rewrite take_app_length, drop_app_length. by rewrite decide_True.
Qed.

Lemma patched_off q new p n :
  take (length p) q ≠ p → patched q new (p, n) = (p, n).
Proof. intros E. unfold patched. cbn [fst snd]. by rewrite decide_False. Qed.

Lemma patched_cases q new p n :
  (take (length p) q ≠ p ∧ patched q new (p, n) = (p, n))
  ∨ (p = q ∧ patched q new (p, n) = (p, new))
  ∨ (∃ i r, q = p ++ i :: r
       ∧ patched q new (p, n) = (p, update_at (i :: r) (λ _, new) n)).
Proof.
  destruct (decide (take (length p) q = p)) as [E|E].
  - destruct (drop (length p) q) as [|i r] eqn:Hd.
    + right. left.
      assert (p = q) as ->.
      { rewrite <- (take_drop (length p) q), Hd, app_nil_r. done. }
      split; [done|]. apply patched_at.
    + right. right. exists i, r.
      assert (q = p ++ i :: r) as ->.
      { rewrite <- (take_drop (length p) q), Hd. by rewrite E. }
      split; [done|]. apply patched_on_path.
  - left. split; [done|]. by apply patched_off.
Qed.

Lemma patched_child_off q new p j c :
  take (length p) q ≠ p → patched q new (p ++ [j], c) = (p ++ [j], c).
Proof.
  intros E. apply patched_off. intros Heq. apply E.
  apply (f_equal (take (length p))) in Heq.
  rewrite take_take, take_app_length, length_app in Heq.
  by rewrite Nat.min_l in Heq by lia.
Qed.

Lemma patched_child_ne p i j r new c :
  i ≠ j → patched (p ++ i :: r) new (p ++ [j], c) = (p ++ [j], c).
Proof.
  intros Hij. apply patched_off. intros Heq.
  replace (p ++ i :: r) with ((p ++ [i]) ++ r) in Heq
    by by rewrite <- app_assoc.
  rewrite take_app_length' in Heq by by rewrite !length_app.
  apply app_inv_head in Heq. congruence.
Qed.

Lemma patched_child_eq p i r new c :
  patched (p ++ i :: r) new (p ++ [i], c)
  = (p ++ [i], update_at r (λ _, new) c).
Proof.
  replace (p ++ i :: r) with ((p ++ [i]) ++ r) by by rewrite <- app_assoc.
  destruct r as [|k r].
  - rewrite app_nil_r. apply patched_at.
  - apply patched_on_path.
Qed.

(** Off the overwritten slot, the node yielded keeps its class and
    location. *)
Lemma patched_header q new p n :
  p ≠ q →
  lineno_of (patched q new (p, n)).2 = lineno_of n
  ∧ ∀ k, isinstance (patched q new (p, n)).2 k = isinstance n k.
Proof.
  intros Hpq.
  destruct (patched_cases q new p n) as [[_ ->]|[[-> _]|(i & r & -> & ->)]];
    [done|done|].
  cbn [snd update_at]. destruct (iter_child_nodes n !! i) as [c|]; [|done].
  destruct (set_child_header n i (update_at r (λ _, new) c))
    as (_ & Hloc & Hcls).
  unfold lineno_of. by rewrite Hloc.
Qed.

Lemma children_at_patched q new p n :
  is_node new = true → length p < length q →
  children_at (patched q new (p, n)).1 (patched q new (p, n)).2
  = patched q new <$> children_at p n.
Proof.
  intros Hnew Hlen. unfold children_at at 2. rewrite fmap_imap.
  destruct (patched_cases q new p n) as [[E ->]|[[-> _]|(i & r & -> & ->)]];
    [|lia|]; cbn [fst snd]; unfold children_at, compose.
  - apply imap_ext. intros j c Hc. symmetry. by apply patched_child_off.
  - cbn [update_at]. destruct (iter_child_nodes n !! i) as [c|] eqn:Hc.
    + pose proof (child_is_node _ _ _ Hc) as Hcn.
      rewrite iter_child_nodes_set_child by by apply update_at_is_node.
      apply list_eq. intros j. rewrite !list_lookup_imap.
      destruct (decide (j = i)) as [->|Hji].
      * rewrite list_lookup_insert_eq by by eapply lookup_lt_Some.
        rewrite Hc. cbn. f_equal. symmetry. apply patched_child_eq.
      * rewrite list_lookup_insert_ne by done.
        destruct (iter_child_nodes n !! j) as [c'|]; [|done]. cbn. f_equal.
        symmetry. by apply patched_child_ne.
    + apply imap_ext. intros j c' Hc'. symmetry. apply patched_child_ne.
      congruence.
Qed.

Lemma next_level_patched q new xs :
  is_node new = true →
  Forall (λ pn : path * value, length pn.1 < length q) xs →
  next_level (patched q new <$> xs) = patched q new <$> next_level xs.
Proof.
  intros Hnew. induction 1 as [|[p n] xs Hp _ IH]; [done|].
  rewrite fmap_cons. unfold next_level in *. cbn [flat_map].
  rewrite fmap_app, IH. f_equal. by apply children_at_patched.
Qed.

Lemma next_level_length m xs :
  Forall (λ pn : path * value, length pn.1 = m) xs →
  Forall (λ pn : path * value, length pn.1 = S m) (next_level xs).
Proof.
  intros Hxs. apply Forall_forall. intros [r c] Hin.
  apply list_elem_of_In, in_flat_map in Hin as ([p n] & Hpn & Hin).
  apply list_elem_of_In, children_at_elem in Hin as (i & -> & Hc).
  apply list_elem_of_In in Hpn.
  apply (proj1 (Forall_forall _ _) Hxs) in Hpn. cbn in *.
  rewrite length_app. cbn. lia.
Qed.

Lemma levels_patched q new d : ∀ m xs,
  is_node new = true →
  Forall (λ pn : path * value, length pn.1 = m) xs →
  m + d ≤ length q →
  levels d (patched q new <$> xs) = patched q new <$> levels d xs.
Proof.
  induction d as [|d IH]; intros m xs Hnew Hxs Hlen; [done|].
  cbn [levels]. rewrite fmap_app. f_equal.
  rewrite next_level_patched; [|done|].
  - apply (IH (S m)); [done| |lia]. by apply next_level_length.
  - eapply Forall_impl; [done|]. cbn. intros; lia.
Qed.

End Patched.

(** ** Locating a node again after a slot was overwritten *)

Section Again.
Implicit Types (p q r : path) (n c new : value).

Lemma walk_paths_patched tree q new d :
  is_node tree = true → is_node new = true → d ≤ length q →
  ∃ rest rest',
    walk_paths tree = levels d [([], tree)] ++ rest
    ∧ walk_paths (update_at q (λ _, new) tree)
      = (patched q new <$> levels d [([], tree)]) ++ rest'.
Proof.
  intros Ht Hnew Hd.
  assert (is_node (update_at q (λ _, new) tree) = true) as Ht'
    by by apply update_at_is_node.
  destruct (walk_paths_levels tree d Ht) as [rest E].
  destruct (walk_paths_levels _ d Ht') as [rest' E'].
  exists rest, rest'. split; [done|]. rewrite E'. f_equal.
  rewrite <- (levels_patched q new d 0); [done|done| |done].
  by repeat constructor.
Qed.

(** The search by line number, run on the tree with the slot at [q0]
    overwritten, stops where it stopped before: when it stopped at [q0]
    and the new node is on the line, or when it stopped higher up than
    [q0]. *)
Lemma find_path_after_overwrite tree line j node q q0 new :
  is_node new = true →
  list_find (λ pn : path * value, lineno_of pn.2 = Some line) (walk_paths tree)
  = Some (j, (q, node)) →
  (q = q0 ∧ lineno_of new = Some line) ∨ length q < length q0 →
  list_find (λ pn : path * value, lineno_of pn.2 = Some line)
    (walk_paths (update_at q0 (λ _, new) tree))
  = Some (j, patched q0 new (q, node)).
Proof.
  intros Hnew (Hq & Hline & Hfirst)%list_find_Some Hcase. cbn [snd] in Hline.
  assert (length q ≤ length q0) as Hlen by (destruct Hcase as [[-> _]|]; lia).
  assert (node_at q tree = Some node) as Hnode.
  { apply walk_paths_node_at. by eapply list_elem_of_lookup_2. }
  assert (is_node tree = true) as Ht.
  { apply (node_at_root_is_node q tree node); [done|].
    by eapply lineno_is_node. }
  destruct (walk_paths_patched tree q0 new (length q) Ht Hnew Hlen)
    as (rest & rest' & E & E').
  assert (∃ j', levels (length q) [([], tree)] !! j' = Some (q, node))
    as [j' Hj'].
  { apply list_elem_of_lookup.
    by apply (levels_reach q [([], tree)] [] tree node); [left|]. }
  pose proof (lookup_lt_Some _ _ _ Hj') as Hlt.
  assert (j ≤ j') as Hjj'.
  { destruct (decide (j ≤ j')) as [|Hgt]; [done|]. exfalso.
    apply (Hfirst j' (q, node)); [|lia|done].
    rewrite E, lookup_app_l by done. by rewrite Hj'. }
  assert (∀ i, i ≤ j →
    walk_paths (update_at q0 (λ _, new) tree) !! i
    = patched q0 new <$> walk_paths tree !! i) as Hsame.
  { intros i Hi.
    rewrite E, E', !lookup_app_l, list_lookup_fmap;
      rewrite ?length_fmap; [done|lia..]. }
  apply list_find_Some. split_and!.
  - by rewrite Hsame, Hq.
  - destruct (decide (q = q0)) as [->|Hne].
    + rewrite patched_at. destruct Hcase as [[_ ?]|?]; [done|lia].
    + destruct (patched_header q0 new q node Hne) as [Hl _]. congruence.
  - intros i y Hy Hi. rewrite Hsame in Hy by lia.
    destruct (walk_paths tree !! i) as [[p n]|] eqn:Hp; [|done].
    assert (y = patched q0 new (p, n)) as ->
      by (cbn in Hy; injection Hy as <-; reflexivity).
    assert (lineno_of n ≠ Some line) as Hn by apply (Hfirst i (p, n) Hp Hi).
    destruct (decide (p = q0)) as [->|Hne].
    + exfalso. destruct Hcase as [[-> _]|Hdeep].
      * assert (node_at q0 tree = Some n) as Hn0.
        { apply walk_paths_node_at. by eapply list_elem_of_lookup_2. }
        congruence.
      * assert (Forall (λ pn : path * value, length pn.1 ≤ 0 + length q)
                  (levels (length q) [([], tree)])) as Hall.
        { apply levels_depth. repeat constructor. }
        assert ((q0, n) ∈ levels (length q) [([], tree)]) as Hin.
        { apply list_elem_of_lookup. exists i.
          rewrite E, lookup_app_l in Hp by lia. done. }
        apply (proj1 (Forall_forall _ _) Hall) in Hin. cbn in Hin. lia.
    + destruct (patched_header q0 new p n Hne) as [Hl _]. congruence.
Qed.

Lemma list_find_walk line t j node :
  list_find (λ n, lineno_of n = Some line) (walk t) = Some (j, node) ↔
  ∃ q, list_find (λ pn : path * value, lineno_of pn.2 = Some line)
         (walk_paths t) = Some (j, (q, node)).
Proof.
  rewrite <- walk_paths_snd, list_find_fmap, fmap_Some. split.
  - intros ([j' [q n]] & Hfind & [= -> ->]). by exists q.
  - intros [q Hfind]. by exists (j, (q, node)).
Qed.

Lemma find_node_after_overwrite tree line j node q q0 new :
  is_node new = true →
  list_find (λ n, lineno_of n = Some line) (walk tree) = Some (j, node) →
  walk_paths tree !! j = Some (q, node) →
  (q = q0 ∧ lineno_of new = Some line) ∨ length q < length q0 →
  OptionalFixer._find_node_at_line (update_at q0 (λ _, new) tree) line
  = Some (patched q0 new (q, node)).2.
Proof.
  intros Hnew [q' Hfind]%list_find_walk Hq Hcase.
  assert (q' = q) as ->.
  { apply list_find_Some in Hfind as (Hj & _). congruence. }
  unfold OptionalFixer._find_node_at_line. apply fmap_Some.
  exists (j, (patched q0 new (q, node)).2). split; [|done].
  apply list_find_walk. exists q.
  by apply (find_path_after_overwrite tree line j node q q0 new).
Qed.

End Again.

(** ** A fix is not applied a second time *)

Section Twice.
Implicit Types (p q r : path) (n c new : value).

Lemma filter_two {A} (P : A → bool) (l : list A) i j x y :
  i < j → l !! i = Some x → l !! j = Some y → P x = true → P y = true →
  2 ≤ length (List.filter P l).
Proof.
  revert i j. induction l as [|a l IH]; intros i j Hij Hx Hy Px Py; [done|].
  destruct j as [|j]; [lia|]. cbn in Hy. destruct i as [|i]; cbn in Hx.
  - injection Hx as ->. cbn. rewrite Px. cbn.
    assert (y ∈ List.filter P l) as Hin.
    { apply list_elem_of_In, filter_In. split; [|done].
      apply list_elem_of_In. by eapply list_elem_of_lookup_2. }
    destruct (List.filter P l); [by apply elem_of_nil in Hin|cbn; lia].
  - cbn. assert (2 ≤ length (List.filter P l)) by (eapply (IH i j); [lia|done..]).
    destruct (P a); cbn; lia.
Qed.

(** A node held once sits at one path. *)
Lemma held_once_path tree a p q n m :
  held_once tree a →
  node_at p tree = Some n → node_at q tree = Some m →
  is_ n a = true → is_ m a = true → p = q.
Proof.
  intros Honce Hp Hq Hn Hm.
  assert (is_node tree = true) as Ht.
  { apply (node_at_root_is_node p tree n); [done|]. by destruct n. }
  apply (node_at_walk_paths _ _ _ Ht), list_elem_of_lookup in Hp as [i Hi].
  apply (node_at_walk_paths _ _ _ Ht), list_elem_of_lookup in Hq as [j Hj].
  assert (walk tree !! i = Some n) as Hi'
    by by rewrite <- walk_paths_snd, list_lookup_fmap, Hi.
  assert (walk tree !! j = Some m) as Hj'
    by by rewrite <- walk_paths_snd, list_lookup_fmap, Hj.
  unfold held_once in Honce.
  destruct (lt_eq_lt_dec i j) as [[Hlt| ->]|Hlt].
  - pose proof (filter_two (λ x, is_ x a) _ i j n m Hlt Hi' Hj' Hn Hm). lia.
  - congruence.
  - pose proof (filter_two (λ x, is_ x a) _ j i m n Hlt Hj' Hi' Hm Hn). lia.
Qed.

(** The slot a node-valued attribute is stored in. *)
Lemma lookup_field_slot fs f v new :
  lookup_field fs f = v → is_node v = true →
  ∃ j, flat_map (λ fv, field_children fv.2) fs !! j = Some v
       ∧ lookup_field (set_in_fields fs j new) f = new.
Proof.
  intros Hv Hn. induction fs as [|[g w] fs IH]; [by subst v|].
  cbn [lookup_field] in Hv. destruct (String.eqb g f) eqn:Hg.
  - subst w. exists 0. destruct v; try done.
    split; [done|]. cbn [set_in_fields field_children length].
    rewrite decide_True by lia. cbn [lookup_field]. by rewrite Hg.
  - destruct (IH Hv) as (j & Hj & Hset).
    exists (length (field_children w) + j). split.
    + cbn [flat_map snd]. rewrite lookup_app_r by lia.
      by replace (length (field_children w) + j - length (field_children w))
        with j by lia.
    + cbn [set_in_fields]. rewrite decide_False by lia.
      cbn [lookup_field]. rewrite Hg.
      by replace (length (field_children w) + j - length (field_children w))
        with j by lia.
Qed.

Lemma attr_slot node f new :
  is_node (attr node f) = true →
  ∃ j, iter_child_nodes node !! j = Some (attr node f)
       ∧ attr (set_child node j new) f = new.
Proof.
  intros Hn. destruct node as [| | | | | | | | |u k l fs]; try done.
  by apply lookup_field_slot.
Qed.

(** The slot [_replace_node] overwrites, for a node held once that sits
    below the root. *)
Lemma replace_held_once tree q a new :
  held_once tree a → node_at q tree = Some a → is_node a = true → q ≠ [] →
  OptionalFixer._replace_node tree a new
  = update_at q (λ _, copy_location new a) tree.
Proof.
  intros Honce Hq Ha Hne.
  assert (is_node tree = true) as Ht
    by by apply (node_at_root_is_node q tree a).
  assert (is_ a a = true) as Haa by (destruct a; try done; apply Nat.eqb_refl).
  destruct q as [|i q _] using rev_ind; [done|].
  rewrite node_at_app in Hq.
  destruct (node_at q tree) as [parent|] eqn:Hparent; [|done]. cbn in Hq.
  destruct (iter_child_nodes parent !! i) as [c|] eqn:Hc; [|done].
  cbn in Hq. injection Hq as ->.
  destruct (scan_parents_is_Some (walk_paths tree) a q parent a)
    as [[p' i'] Hscan];
    [by apply node_at_walk_paths|by eapply list_elem_of_lookup_2|done|].
  unfold OptionalFixer._replace_node. rewrite Hscan.
  destruct (scan_parents_Some _ _ _ _ Hscan) as (parent' & Hin & Hslot).
  apply find_slot_Some in Hslot as (c' & Hc' & Hold & _).
  apply walk_paths_node_at in Hin.
  rewrite (update_slot _ _ _ _ _ _ Hin Hc').
  f_equal. apply (held_once_path tree a _ _ c' a Honce); [| |done..].
  - rewrite node_at_app, Hin. cbn. by rewrite Hc'.
  - rewrite node_at_app, Hparent. cbn. by rewrite Hc.
Qed.

Lemma conditional_located u v a line :
  isinstance a "Attribute" = true → lineno_of a = Some line →
  lineno_of (copy_location (conditional u v a) a) = Some line.
Proof.
  destruct a as [| | | | | | | | |u' k [l|] fs]; try done. cbn.
  intros ->%String.eqb_eq. done.
Qed.

Lemma conditional_class u v a k :
  k ≠ "IfExp" → isinstance (copy_location (conditional u v a) a) k = false.
Proof.
  intros Hk.
  assert (∀ l fs, isinstance (VNode (u + 6) "IfExp" l fs) k = false) as E.
  { intros l fs. unfold isinstance. apply String.eqb_neq. congruence. }
  unfold conditional, copy_location.
  destruct a as [| | | | | | | | |u' k' [l|] fs]; try apply E.
  destruct (_ && _); apply E.
Qed.

Lemma first_fix_replaces tree a tree' err :
  _fix_optional_attribute_access a tree err = (tree', true) →
  tree' = OptionalFixer._replace_node tree a
            (conditional (S (max_uid tree))
               (attr_str (attr a "value") "id") a).
Proof.
  unfold _fix_optional_attribute_access.
  destruct (negb _); [done|]. destruct (_is_already_guarded _ _ _); [done|].
  by intros [= <-].
Qed.

(** A run that reports success has overwritten the slot of the access. *)
Lemma optional_fix_overwrites err tree tree' access :
  lineno_of tree = None →
  located_access tree (line err) access →
  held_once tree access →
  OptionalFixer.fix_ err tree = (tree', true) →
  ∃ q, node_at q tree = Some access
       ∧ isinstance access "Attribute" = true
       ∧ tree' = update_at q
           (λ _, copy_location
                   (conditional (S (max_uid tree))
                      (attr_str (attr access "value") "id") access) access)
           tree.
Proof.
  intros Hroot (node & Hfind & Hshape) Honce Hfix.
  unfold OptionalFixer.fix_ in Hfix. rewrite Hfind in Hfix.
  apply find_node_elem in Hfind as [Hin Hline].
  pose proof (lineno_is_node _ _ Hline) as Hn.
  assert (is_node tree = true) as Ht.
  { apply walk_sound in Hin. destruct (is_node tree) eqn:Ht; [done|].
    apply subnode_of_leaf in Hin; [|done]. congruence. }
  apply walk_subnode in Hin; [|done].
  destruct (walk_paths_complete _ _ Ht Hin) as [q Hq].
  apply walk_paths_node_at in Hq.
  destruct Hshape as [[Hattr ->]|(Hcall & Hfunc & ->)].
  - rewrite Hattr in Hfix. apply first_fix_replaces in Hfix.
    exists q. split_and!; [done..|].
    rewrite Hfix. apply replace_held_once; [done..|].
    intros ->. cbn in Hq. injection Hq as ->. congruence.
  - assert (isinstance node "Attribute" = false) as Hnot.
    { destruct node; try done. cbn in *.
      by apply String.eqb_eq in Hcall as ->. }
    rewrite Hnot, Hcall in Hfix. unfold _fix_optional_call in Hfix.
    rewrite Hfunc in Hfix. apply first_fix_replaces in Hfix.
    assert (is_node (attr node "func") = true) as Hfn
      by by destruct (attr node "func").
    destruct (attr_slot node "func" VNone Hfn) as (ja & Hja & _).
    exists (q ++ [ja]).
    assert (node_at (q ++ [ja]) tree = Some (attr node "func")) as Hq'.
    { rewrite node_at_app, Hq. cbn. by rewrite Hja. }
    split_and!; [done..|].
    rewrite Hfix. apply replace_held_once; [done..|]. by destruct q.
Qed.

(** What a successful fix of the nullable-access fixer does.  When the
    root of the tree carries no line number and the attribute access the
    fixer works on is held by one node of the tree only, a run that
    reports success puts, at the place of that access, the conditional
    expression [access if v is not None else None] under the location of
    the access; a slot that is not on the way to that place keeps its
    node, and the tree is not the tree it was. *)
Theorem optional_fix_wraps_the_access err tree tree' access :
  lineno_of tree = None →
  located_access tree (line err) access →
  held_once tree access →
  OptionalFixer.fix_ err tree = (tree', true) →
  ∃ q,
    node_at q tree = Some access
    ∧ node_at q tree'
      = Some (copy_location
                (conditional (S (max_uid tree))
                   (attr_str (attr access "value") "id") access) access)
    ∧ (∀ r k j s s', q = r ++ k :: s → k ≠ j →
         node_at (r ++ j :: s') tree' = node_at (r ++ j :: s') tree)
    ∧ tree' ≠ tree.
Proof.
  intros Hroot Hloc Honce Hfix.
  destruct (optional_fix_overwrites _ _ _ _ Hroot Hloc Honce Hfix)
    as (q & Hq & Hattr & ->).
  assert (is_node tree = true) as Ht.
  { apply (node_at_root_is_node q tree access); [done|]. by destruct access. }
  set (new := copy_location _ access).
  assert (is_node new = true) as Hnew
    by (unfold new; by rewrite copy_location_is_node).
  assert (node_at q (update_at q (λ _, new) tree) = Some new) as Hq'
    by by rewrite (node_at_update_at q _ tree access).
  exists q. split_and!; [done..| |].
  - intros r k j s s' -> Hkj. by apply node_at_update_at_ne.
  - intros E. rewrite E in Hq'.
    assert (isinstance new "Attribute" = false) as Hcls
      by (unfold new; by rewrite conditional_class).
    congruence.
Qed.

(** A fix of the nullable-access fixer is not applied a second time.
    When the root of the tree carries no line number and the attribute
    access the fixer works on is held by one node of the tree only, a run
    that reported success has wrapped that access; run again on its own
    result with the same diagnostic, the fixer leaves the tree as it is
    and reports [False]: the search by line number now stops at the
    conditional expression (or at a call whose callee is one). *)
Theorem optional_fix_is_not_repeated err tree tree' access :
  lineno_of tree = None →
  located_access tree (line err) access →
  held_once tree access →
  OptionalFixer.fix_ err tree = (tree', true) →
  OptionalFixer.fix_ err tree' = (tree', false).
Proof.
  intros Hroot (node & Hfind & Hshape) Honce Hfix.
  unfold OptionalFixer.fix_ in Hfix. rewrite Hfind in Hfix.
  pose proof Hfind as Hlf. unfold OptionalFixer._find_node_at_line in Hlf.
  apply fmap_Some in Hlf as ([j x] & Hlf & ->). cbn [snd] in *.
  assert (∃ q, walk_paths tree !! j = Some (q, x)) as [q Hq].
  { apply list_find_Some in Hlf as (Hj & _).
    rewrite <- walk_paths_snd, list_lookup_fmap in Hj.
    destruct (walk_paths tree !! j) as [[q n]|]; [|done].
    cbn in Hj. injection Hj as ->. by exists q. }
  assert (node_at q tree = Some x) as Hnode.
  { apply walk_paths_node_at. by eapply list_elem_of_lookup_2. }
  assert (lineno_of x = Some (line err)) as Hline
    by by apply list_find_Some in Hlf as (_ & ? & _).
  destruct Hshape as [[Hattr ->]|(Hcall & Hfunc & ->)].
  - rewrite Hattr in Hfix. apply first_fix_replaces in Hfix.
    assert (q ≠ []) as Hne.
    { intros ->. cbn in Hnode. injection Hnode as ->. congruence. }
    rewrite (replace_held_once tree q x _ Honce Hnode) in Hfix;
      [|by eapply lineno_is_node|done].
    subst tree'. unfold OptionalFixer.fix_.
    rewrite (find_node_after_overwrite tree (line err) j x q q);
      [|by rewrite copy_location_is_node|done|done|].
    + rewrite patched_at. cbn [snd]. by rewrite !conditional_class.
    + left. split; [done|]. by apply conditional_located.
  - assert (isinstance x "Attribute" = false) as Hnot.
    { destruct x; try done. cbn in *. by apply String.eqb_eq in Hcall as ->. }
    rewrite Hnot, Hcall in Hfix. unfold _fix_optional_call in Hfix.
    rewrite Hfunc in Hfix. apply first_fix_replaces in Hfix.
    assert (is_node (attr x "func") = true) as Hfn
      by by destruct (attr x "func").
    set (new := copy_location
                  (conditional (S (max_uid tree))
                     (attr_str (attr (attr x "func") "value") "id")
                     (attr x "func")) (attr x "func")) in *.
    destruct (attr_slot x "func" new Hfn) as (ja & Hja & Hset).
    assert (node_at (q ++ [ja]) tree = Some (attr x "func")) as Hq'.
    { rewrite node_at_app, Hnode. cbn. by rewrite Hja. }
    rewrite (replace_held_once tree (q ++ [ja]) _ _ Honce Hq') in Hfix;
      [|done|by destruct q].
    fold new in Hfix. subst tree'. unfold OptionalFixer.fix_.
    rewrite (find_node_after_overwrite tree (line err) j x q (q ++ [ja]));
      [|by unfold new; rewrite copy_location_is_node|done|done|].
    + rewrite patched_on_path. cbn [snd update_at]. rewrite Hja.
      destruct (set_child_header x ja new) as (_ & _ & Hcls).
      rewrite !Hcls, Hnot, Hcall. unfold _fix_optional_call. rewrite Hset.
      unfold new. by rewrite conditional_class.
    + right. rewrite length_app. cbn. lia.
Qed.

End Twice.

Lemma optional_fix_is_not_repeated_witness :
  lineno_of (guarded_expr_tree guarded_expr_access) = None
  ∧ located_access (guarded_expr_tree guarded_expr_access)
      (line (nullable_error_at 2)) guarded_expr_access
  ∧ held_once (guarded_expr_tree guarded_expr_access) guarded_expr_access
  ∧ OptionalFixer.fix_ (nullable_error_at 2)
      (guarded_expr_tree guarded_expr_access)
    = (guarded_expr_tree
         (copy_location (conditional 13 "user" guarded_expr_access)
            guarded_expr_access), true)
  ∧ OptionalFixer.fix_ (nullable_error_at 2)
      (guarded_expr_tree
         (copy_location (conditional 13 "user" guarded_expr_access)
            guarded_expr_access))
    = (guarded_expr_tree
         (copy_location (conditional 13 "user" guarded_expr_access)
            guarded_expr_access), false).
Proof.
  assert (located_access (guarded_expr_tree guarded_expr_access)
            (line (nullable_error_at 2)) guarded_expr_access) as Hloc.
  { exists guarded_expr_access. split; [vm_compute; reflexivity|].
    left. split; reflexivity. }
  assert (held_once (guarded_expr_tree guarded_expr_access)
            guarded_expr_access) as Honce by (vm_compute; reflexivity).
  assert (OptionalFixer.fix_ (nullable_error_at 2)
            (guarded_expr_tree guarded_expr_access)
          = (guarded_expr_tree
               (copy_location (conditional 13 "user" guarded_expr_access)
                  guarded_expr_access), true)) as Hfix
    by (vm_compute; reflexivity).
  split; [reflexivity|]. split; [exact Hloc|]. split; [exact Honce|].
  split; [exact Hfix|].
  exact (optional_fix_is_not_repeated (nullable_error_at 2)
           (guarded_expr_tree guarded_expr_access) _ guarded_expr_access
           eq_refl Hloc Honce Hfix).
Defined.

Lemma optional_fix_wraps_the_access_witness :
  lineno_of (guarded_expr_tree guarded_expr_access) = None
  ∧ located_access (guarded_expr_tree guarded_expr_access)
      (line (nullable_error_at 2)) guarded_expr_access
  ∧ held_once (guarded_expr_tree guarded_expr_access) guarded_expr_access
  ∧ OptionalFixer.fix_ (nullable_error_at 2)
      (guarded_expr_tree guarded_expr_access)
    = (guarded_expr_tree
         (copy_location (conditional 13 "user" guarded_expr_access)
            guarded_expr_access), true)
  ∧ ∃ q,
      node_at q (guarded_expr_tree guarded_expr_access)
      = Some guarded_expr_access
      ∧ node_at q
          (guarded_expr_tree
             (copy_location (conditional 13 "user" guarded_expr_access)
                guarded_expr_access))
        = Some (copy_location
                  (conditional
                     (S (max_uid (guarded_expr_tree guarded_expr_access)))
                     (attr_str (attr guarded_expr_access "value") "id")
                     guarded_expr_access) guarded_expr_access)
      ∧ (∀ r k j s s', q = r ++ k :: s → k ≠ j →
           node_at (r ++ j :: s')
             (guarded_expr_tree
                (copy_location (conditional 13 "user" guarded_expr_access)
                   guarded_expr_access))
           = node_at (r ++ j :: s') (guarded_expr_tree guarded_expr_access))
      ∧ guarded_expr_tree
          (copy_location (conditional 13 "user" guarded_expr_access)
             guarded_expr_access)
        ≠ guarded_expr_tree guarded_expr_access.
Proof.
  assert (located_access (guarded_expr_tree guarded_expr_access)
            (line (nullable_error_at 2)) guarded_expr_access) as Hloc.
  { exists guarded_expr_access. split; [vm_compute; reflexivity|].
    left. split; reflexivity. }
  assert (held_once (guarded_expr_tree guarded_expr_access)
            guarded_expr_access) as Honce by (vm_compute; reflexivity).
  assert (OptionalFixer.fix_ (nullable_error_at 2)
            (guarded_expr_tree guarded_expr_access)
          = (guarded_expr_tree
               (copy_location (conditional 13 "user" guarded_expr_access)
                  guarded_expr_access), true)) as Hfix
    by (vm_compute; reflexivity).
  split; [reflexivity|]. split; [exact Hloc|]. split; [exact Honce|].
  split; [exact Hfix|].
  exact (optional_fix_wraps_the_access (nullable_error_at 2)
           (guarded_expr_tree guarded_expr_access) _ guarded_expr_access
           eq_refl Hloc Honce Hfix).
Defined.

(** ** The missing-annotation fixer *)
Import TypeInferrer.

Section Hints.
Context `{PyLib}.

Lemma hints_find_node_at tree l p node :
  MissingHintsFixer._find_node_at_line tree l = Some (p, node) →
  node_at p tree = Some node ∧ lineno_of node = Some l.
Proof.
  unfold MissingHintsFixer._find_node_at_line.
  intros ([i [p' node']] & (Hi & Hl & _)%list_find_Some & [= -> ->])%fmap_Some.
  split; [|done]. apply walk_paths_node_at. by eapply list_elem_of_lookup_2.
Qed.

Lemma hints_param_loop_unmodified strict depth fresh n i node m c node' c' :
  MissingHintsFixer.param_loop strict depth fresh n i node m c
  = Ok ((node', false), c') →
  node' = node ∧ m = false.
Proof.
  revert i node m c. induction n as [|n IH]; intros i node m c; cbn.
  - by intros [= <- <- <-].
  - destruct (attr_list (attr node "args") "args" !! i) as [arg|];
      [|by intros [= <- <- <-]].
    destruct (is_node (attr arg "annotation")); [apply IH|].
    intros (ty & c1 & _ & Hrest)%bind_Ok.
    destruct (truthy ty); [|by apply IH in Hrest].
    by apply IH in Hrest as [_ ?].
Qed.

Lemma hints_fix_unapplied strict depth err tree c tree' c' :
  MissingHintsFixer.fix_ strict depth err tree c = Ok ((tree', false), c') →
  tree' = tree.
Proof.
  unfold MissingHintsFixer.fix_.
  destruct (MissingHintsFixer._find_node_at_line tree (line err))
    as [[p node]|] eqn:Hfind; [|by intros [= <- <-]].
  apply hints_find_node_at in Hfind as [Hp _].
  destruct (isinstance node "FunctionDef").
  - unfold MissingHintsFixer._fix_function_hints.
    intros ([node1 m1] & c1 & Hret & Hloop)%bind_Ok.
    apply bind_Ok in Hloop as ([node2 m2] & c2 & Hloop & [= <- -> <-]).
    apply hints_param_loop_unmodified in Hloop as [-> ->].
    assert (node1 = node) as ->; [|by apply update_at_same].
    destruct (_ && _); [|by injection Hret].
    apply bind_Ok in Hret as (ty & c3 & _ & Hret).
    by destruct (truthy ty); injection Hret.
  - destruct (isinstance node "Assign"); [|by intros [= <- <-]].
    unfold MissingHintsFixer._fix_variable_hint.
    destruct (attr_list node "targets") as [|target [|? ?]];
      try by intros [= <- <-].
    destruct (negb _); [by intros [= <- <-]|].
    intros (ty & c1 & _ & Hret)%bind_Ok.
    by destruct (negb _); injection Hret.
Qed.

Lemma attr_is_node n f : is_node (attr n f) = true → is_node n = true.
Proof. by destruct n. Qed.

Lemma attr_list_is_node n f i x : attr_list n f !! i = Some x → is_node n = true.
Proof. by destruct n. Qed.

Lemma attr_list_attr n f l : attr n f = VList l → attr_list n f = l.
Proof. unfold attr_list. by intros ->. Qed.

Lemma args_set_arg_annotation node i ann arg :
  args_of node !! i = Some arg →
  args_of (MissingHintsFixer.set_arg_annotation node i ann)
  = <[i := setattr arg "annotation" ann]> (args_of node)
  ∧ (∀ f, f ≠ "args" →
       attr (MissingHintsFixer.set_arg_annotation node i ann) f = attr node f)
  ∧ (∀ k, isinstance (MissingHintsFixer.set_arg_annotation node i ann) k
          = isinstance node k).
Proof.
  unfold args_of, MissingHintsFixer.set_arg_annotation. intros Hi. rewrite Hi.
  pose proof (attr_list_is_node _ _ _ _ Hi) as Hargs.
  pose proof (attr_is_node _ _ Hargs) as Hnode.
  split_and!.
  - rewrite attr_setattr_eq by done. unfold attr_list at 1.
    by rewrite attr_setattr_eq.
  - intros f Hf. by rewrite attr_setattr_ne.
  - intros k. apply isinstance_setattr.
Qed.

Lemma hints_param_loop_keeps strict depth fresh n i node m c node' m' c' :
  MissingHintsFixer.param_loop strict depth fresh n i node m c
  = Ok ((node', m'), c') →
  length (args_of node') = length (args_of node)
  ∧ (∀ f, f ≠ "args" → attr node' f = attr node f)
  ∧ (∀ k, isinstance node' k = isinstance node k)
  ∧ ∀ j arg, args_of node !! j = Some arg →
      ∃ arg', args_of node' !! j = Some arg'
        ∧ attr_str arg' "arg" = attr_str arg "arg"
        ∧ (is_node (attr arg "annotation") = true ∨ j < i → arg' = arg).
Proof.
  revert i node m c. induction n as [|n IH]; intros i node m c;
    cbn [MissingHintsFixer.param_loop].
  { intros [= <- <- <-]. split_and!; try done. intros j arg Hj. eauto. }
  fold (args_of node).
  destruct (args_of node !! i) as [arg_i|] eqn:Hi; cycle 1.
  { intros [= <- <- <-]. split_and!; try done. intros j arg Hj. eauto. }
  destruct (is_node (attr arg_i "annotation")) eqn:Hann.
  { intros Hrest. apply IH in Hrest as (Hlen & Hattr & Hcls & Hargs).
    split_and!; try done. intros j arg Hj.
    destruct (Hargs j arg Hj) as (arg' & Hj' & Hname & Hkeep).
    exists arg'. split_and!; try done. intros [?|?]; apply Hkeep; auto with lia. }
  intros (ty & c1 & _ & Hrest)%bind_Ok.
  destruct (truthy ty); cycle 1.
  { apply IH in Hrest as (Hlen & Hattr & Hcls & Hargs).
    split_and!; try done. intros j arg Hj.
    destruct (Hargs j arg Hj) as (arg' & Hj' & Hname & Hkeep).
    exists arg'. split_and!; try done. intros [?|?]; apply Hkeep; auto with lia. }
  apply IH in Hrest as (Hlen & Hattr & Hcls & Hargs).
  destruct (args_set_arg_annotation node i
              (MissingHintsFixer._type_str_to_ast fresh (default "" ty))
              arg_i Hi) as (Hset & Hattr1 & Hcls1).
  rewrite Hset in Hlen, Hargs. rewrite length_insert in Hlen.
  split_and!; [done| | |].
  - intros f Hf. by rewrite Hattr, Hattr1.
  - intros k. by rewrite Hcls, Hcls1.
  - intros j arg Hj. destruct (decide (j = i)) as [->|Hne].
    + assert (arg = arg_i) as -> by congruence.
      destruct (Hargs i (setattr arg_i "annotation"
                  (MissingHintsFixer._type_str_to_ast fresh (default "" ty))))
        as (arg' & Hj' & Hname & _).
      { apply list_lookup_insert_eq. by eapply lookup_lt_Some. }
      exists arg'. split_and!; [done| |].
      * rewrite Hname. unfold attr_str. by rewrite attr_setattr_ne.
      * intros [?|?]; [congruence|lia].
    + destruct (Hargs j arg) as (arg' & Hj' & Hname & Hkeep).
      { by rewrite list_lookup_insert_ne. }
      exists arg'. split_and!; try done.
      intros [?|?]; apply Hkeep; auto with lia.
Qed.





End Hints.

(** A fixer that reports that it applied nothing returns the tree it was
    given: this holds for the nullable-access, collection and
    missing-annotation fixers. *)
Theorem unapplied_fix_leaves_the_tree `{PyLib} :
  (∀ err tree tree', OptionalFixer.fix_ err tree = (tree', false) → tree' = tree)
  ∧ (∀ err tree tree',
       CollectionFixer.fix_ err tree = (tree', false) → tree' = tree)
  ∧ (∀ strict depth err tree c tree' c',
       MissingHintsFixer.fix_ strict depth err tree c = Ok ((tree', false), c') →
       tree' = tree).
Proof.
  split_and!.
  - intros err tree tree'. unfold OptionalFixer.fix_,
      OptionalFixer._fix_optional_call,
      OptionalFixer._fix_optional_attribute_access.
    repeat case_match; by intros [= <-].
  - intros err tree tree'. unfold CollectionFixer.fix_.
    repeat case_match; by intros [= <-].
  - apply hints_fix_unapplied.
Qed.

Lemma half_annotated_fix_runs :
  ∃ node tree' modified c',
    MissingHintsFixer._find_node_at_line half_annotated
      (line missing_return_type) = Some ([0], node)
    ∧ isinstance node "FunctionDef" = true
    ∧ @MissingHintsFixer.fix_ names_only false 10 missing_return_type
        half_annotated ∅ = Ok ((tree', modified), c').
Proof.
  eassert (MissingHintsFixer._find_node_at_line half_annotated
             (line missing_return_type) = Some ([0], _)) as E1
    by (vm_compute; reflexivity).
  eassert (@MissingHintsFixer.fix_ names_only false 10 missing_return_type
             half_annotated ∅ = Ok ((_, _), _)) as E2
    by (vm_compute; reflexivity).
  eexists _, _, _, _. split; [exact E1|]. split; [|exact E2].
  vm_compute. reflexivity.
Qed.



(** ** A second run of the missing-annotation fixer *)

Section HintsAgain.
Context `{PyLib}.

Lemma type_str_to_ast_is_node fresh s :
  (∀ s v, parse_eval s = Some v → is_node v = true) →
  is_node (MissingHintsFixer._type_str_to_ast fresh s) = true.
Proof.
  intros Hparse. unfold MissingHintsFixer._type_str_to_ast,
    TypeInferrer._type_str_to_ast.
  destruct (parse_eval s) as [v|] eqn:E; [by eapply Hparse|done].
Qed.

Lemma loc_of_setattr n f v : loc_of (setattr n f v) = loc_of n.
Proof. by destruct n. Qed.

Lemma hints_param_loop_loc strict depth fresh n i node m c node' m' c' :
  MissingHintsFixer.param_loop strict depth fresh n i node m c
  = Ok ((node', m'), c') →
  loc_of node' = loc_of node.
Proof.
  revert i node m c. induction n as [|n IH]; intros i node m c;
    cbn [MissingHintsFixer.param_loop].
  { by intros [= <- _ _]. }
  destruct (_ !! i) as [arg|] eqn:Hi; [|by intros [= <- _ _]].
  destruct (is_node _); [apply IH|].
  intros (ty & c1 & _ & Hrest)%bind_Ok.
  destruct (TypeInferrer.truthy ty); apply IH in Hrest; [|done].
  rewrite Hrest. unfold MissingHintsFixer.set_arg_annotation. rewrite Hi.
  apply loc_of_setattr.
Qed.

(** In non-strict mode the loop over the parameters leaves none of them
    without an annotation. *)
Lemma hints_param_loop_completes depth fresh n i node m c node' m' c' :
  (∀ s v, parse_eval s = Some v → is_node v = true) →
  Forall (λ a, is_node a = true) (args_of node) →
  MissingHintsFixer.param_loop false depth fresh n i node m c
  = Ok ((node', m'), c') →
  ∀ j arg', i ≤ j < i + n → args_of node' !! j = Some arg' →
    is_node (attr arg' "annotation") = true.
Proof.
  intros Hparse. revert i node m c. induction n as [|n IH];
    intros i node m c Hnodes Hloop j arg' Hj Harg'; [lia|].
  pose proof Hloop as Hloop0.
  cbn [MissingHintsFixer.param_loop] in Hloop. fold (args_of node) in Hloop.
  destruct (args_of node !! i) as [arg_i|] eqn:Hi; cycle 1.
  { injection Hloop as <- _ _. apply lookup_ge_None in Hi.
    apply lookup_lt_Some in Harg'. lia. }
  destruct (is_node (attr arg_i "annotation")) eqn:Hann.
  { destruct (decide (j = i)) as [->|Hne];
      [|by apply (IH _ _ _ _ Hnodes Hloop j arg'); [lia|]].
    apply hints_param_loop_keeps in Hloop as (_ & _ & _ & Hargs).
    destruct (Hargs i arg_i Hi) as (arg'' & Hi' & _ & Hkeep).
    assert (arg' = arg_i) as -> by (rewrite <- Hkeep by auto; congruence).
    done. }
  apply bind_Ok in Hloop as (ty & c1 & Hty & Hrest).
  apply infer_param_type_yields in Hty as (s & -> & Hs).
  assert (TypeInferrer.truthy (Some s) = true) as Htruthy by (apply truthy_Some; eauto).
  rewrite Htruthy in Hrest.
  destruct (args_set_arg_annotation node i
              (MissingHintsFixer._type_str_to_ast fresh (default "" (Some s)))
              arg_i Hi) as (Hset & _ & _).
  assert (is_node arg_i = true) as Harg_i.
  { apply (proj1 (Forall_forall _ _) Hnodes). by eapply list_elem_of_lookup_2. }
  destruct (decide (j = i)) as [->|Hne].
  - apply hints_param_loop_keeps in Hrest as (_ & _ & _ & Hargs).
    destruct (Hargs i (setattr arg_i "annotation"
                (MissingHintsFixer._type_str_to_ast fresh
                   (default "" (Some s)))))
      as (arg'' & Hi' & _ & Hkeep).
    { rewrite Hset. apply list_lookup_insert_eq. by eapply lookup_lt_Some. }
    assert (arg' = arg'') as -> by congruence.
    rewrite Hkeep by auto. rewrite attr_setattr_eq by done.
    by apply type_str_to_ast_is_node.
  - assert (Forall (λ a, is_node a = true)
              (args_of (MissingHintsFixer.set_arg_annotation node i
                 (MissingHintsFixer._type_str_to_ast fresh
                    (default "" (Some s)))))) as Hnodes'.
    { rewrite Hset. apply Forall_insert; [done|]. by destruct arg_i. }
    apply (IH _ _ _ _ Hnodes' Hrest j arg'); [lia|done].
Qed.

(** A loop over parameters that all carry an annotation changes
    nothing. *)
Lemma hints_param_loop_noop strict depth fresh n i node m c :
  (∀ j arg, i ≤ j → args_of node !! j = Some arg →
     is_node (attr arg "annotation") = true) →
  MissingHintsFixer.param_loop strict depth fresh n i node m c
  = Ok ((node, m), c).
Proof.
  revert i. induction n as [|n IH]; intros i Hall;
    cbn [MissingHintsFixer.param_loop]; [done|].
  fold (args_of node).
  destruct (args_of node !! i) as [arg|] eqn:Hi; [|done].
  rewrite (Hall i arg) by done. apply IH. intros j arg' Hj. apply Hall. lia.
Qed.

(** In non-strict mode the missing-annotation fixer settles in one run.
    When the parser returns nodes and the parameters of the function
    found at the line are nodes, then after a run in non-strict mode a
    second run on its result with the same diagnostic, in either mode and
    from any cache, adds nothing: it returns that tree, reports [False]
    and leaves the cache as it is. *)
Theorem hints_fix_settles_in_non_strict_mode depth err tree c tree' modified
    c' p node :
  (∀ s v, parse_eval s = Some v → is_node v = true) →
  MissingHintsFixer._find_node_at_line tree (line err) = Some (p, node) →
  isinstance node "FunctionDef" = true →
  Forall (λ a, is_node a = true) (args_of node) →
  MissingHintsFixer.fix_ false depth err tree c = Ok ((tree', modified), c') →
  ∀ strict2 depth2 c2,
    MissingHintsFixer.fix_ strict2 depth2 err tree' c2
    = Ok ((tree', false), c2).
Proof.
  intros Hparse Hfind Hdef Hnodes Hfix strict2 depth2 c2.
  pose proof (hints_find_node_at _ _ _ _ Hfind) as [Hp Hline].
  unfold MissingHintsFixer.fix_ in Hfix. rewrite Hfind, Hdef in Hfix.
  unfold MissingHintsFixer._fix_function_hints in Hfix.
  apply bind_Ok in Hfix as ([node1 m1] & c1 & Hret & Hloop).
  apply bind_Ok in Hloop as ([node2 m2] & c3 & Hloop & [= <- <- <-]).
  (* the function after the return annotation *)
  assert (attr node1 "args" = attr node "args"
          ∧ loc_of node1 = loc_of node
          ∧ (∀ k, isinstance node1 k = isinstance node k)
          ∧ (contains "return type" (lower (message err)) = true →
             is_node (attr node1 "returns") = true)) as (Ha1 & Hl1 & Hk1 & Hr1).
  { destruct (contains "return type" (lower (message err))); cbn [andb] in Hret.
    - destruct (is_node (attr node "returns")) eqn:Hreturns; cbn [negb] in Hret.
      + by injection Hret as <- _ _.
      + apply bind_Ok in Hret as (ty & c4 & Hty & Hret).
        apply infer_return_type_yields in Hty as (s & -> & Hs).
        assert (TypeInferrer.truthy (Some s) = true) as Htruthy
          by (apply truthy_Some; eauto).
        rewrite Htruthy in Hret. injection Hret as <- _ _.
        split_and!.
        * by rewrite attr_setattr_ne.
        * apply loc_of_setattr.
        * intros k. apply isinstance_setattr.
        * intros _. rewrite attr_setattr_eq by by eapply isinstance_is_node.
          by apply type_str_to_ast_is_node.
    - by injection Hret as <- _ _. }
  (* the function after the loop over the parameters *)
  fold (args_of node1) in Hloop.
  assert (args_of node1 = args_of node) as Hargs1
    by (unfold args_of; by rewrite Ha1).
  pose proof (hints_param_loop_loc _ _ _ _ _ _ _ _ _ _ _ Hloop) as Hl2.
  pose proof (hints_param_loop_keeps _ _ _ _ _ _ _ _ _ _ _ Hloop)
    as (Hlen2 & Hattr2 & Hk2 & _).
  assert (∀ j arg, 0 ≤ j → args_of node2 !! j = Some arg →
            is_node (attr arg "annotation") = true) as Hall.
  { intros j arg _ Hj.
    apply (hints_param_loop_completes _ _ _ _ _ _ _ _ _ _ Hparse
             (eq_ind_r (Forall _) Hnodes Hargs1) Hloop j arg); [|done].
    apply lookup_lt_Some in Hj. lia. }
  assert (isinstance node2 "FunctionDef" = true) as Hdef2
    by by rewrite Hk2, Hk1.
  assert (lineno_of node2 = Some (line err)) as Hline2.
  { unfold lineno_of in *. by rewrite Hl2, Hl1. }
  assert (is_node node2 = true) as Hn2 by by eapply isinstance_is_node.
  assert (is_node tree = true) as Ht.
  { apply (node_at_root_is_node p tree node); [done|].
    by eapply isinstance_is_node. }
  (* the second run *)
  assert (MissingHintsFixer._find_node_at_line
            (update_at p (λ _, node2) tree) (line err) = Some (p, node2))
    as Hfind2.
  { unfold MissingHintsFixer._find_node_at_line in *.
    apply fmap_Some in Hfind as ([j [q n]] & Hfind & [= E1 E2]).
    subst q n.
    apply fmap_Some. exists (j, (p, node2)). split; [|done].
    rewrite <- (patched_at p node2 node).
    apply find_path_after_overwrite; [done|done|by left]. }
  unfold MissingHintsFixer.fix_. rewrite Hfind2, Hdef2.
  unfold MissingHintsFixer._fix_function_hints.
  assert (contains "return type" (lower (message err))
          && negb (is_node (attr node2 "returns")) = false) as ->.
  { destruct (contains _ _) eqn:Hc; [|done].
    by rewrite Hattr2, Hr1. }
  unfold bind at 1. unfold ret at 1. unfold bind.
  fold (args_of node2).
  rewrite (hints_param_loop_noop _ _ _ _ _ node2 false c2 Hall).
  unfold ret. do 2 f_equal. f_equal.
  apply update_at_same. by apply (node_at_update_at p _ tree node).
Qed.

End HintsAgain.

Lemma hints_fix_settles_in_non_strict_mode_witness :
  ∃ node tree' modified c',
    (∀ s v, @parse_eval names_only s = Some v → is_node v = true)
    ∧ MissingHintsFixer._find_node_at_line half_annotated
        (line missing_return_type) = Some ([0], node)
    ∧ isinstance node "FunctionDef" = true
    ∧ Forall (λ a, is_node a = true) (args_of node)
    ∧ @MissingHintsFixer.fix_ names_only false 10 missing_return_type
        half_annotated ∅ = Ok ((tree', modified), c')
    ∧ ∀ strict2 depth2 c2,
        @MissingHintsFixer.fix_ names_only strict2 depth2 missing_return_type
          tree' c2 = Ok ((tree', false), c2).
Proof.
  destruct half_annotated_fix_runs
    as (node & tree' & modified & c' & E1 & Hdef & E2).
  assert (∀ s v, @parse_eval names_only s = Some v → is_node v = true)
    as Hparse by (by intros s v [= <-]).
  assert (Forall (λ a, is_node a = true) (args_of node)) as Hnodes.
  { destruct (hints_find_node_at _ _ _ _ E1) as [Hnode _].
    injection Hnode as <-. by repeat constructor. }
  exists node, tree', modified, c'.
  split; [exact Hparse|]. split; [exact E1|]. split; [exact Hdef|].
  split; [exact Hnodes|]. split; [exact E2|].
  exact (@hints_fix_settles_in_non_strict_mode names_only 10
           missing_return_type half_annotated ∅ tree' modified c' [0] node
           Hparse E1 Hdef Hnodes E2).
Defined.

(** ** The import reconciler, run again *)
Import ImportFixer.

Section Needed.

Lemma elem_of_needed name tree :
  name ∈ _find_needed_imports tree ↔
  ∃ node, node ∈ walk tree ∧
    ((isinstance_any node ["FunctionDef"; "arg"; "AnnAssign"] = true
      ∧ ∃ child, child ∈ walk node ∧ name ∈ annotation_names child)
     ∨ (is_typevar_assign node = true ∧ name = "TypeVar")).
Proof.
  unfold _find_needed_imports.
  rewrite elem_of_list_to_set, list_elem_of_In, in_flat_map. split.
  - intros (node & Hnode%list_elem_of_In & Hname). exists node. split; [done|].
    apply in_app_or in Hname as [Hname|Hname].
    + left. destruct (isinstance_any _ _); [|done]. split; [done|].
      apply in_flat_map in Hname as (child & Hchild & Hname).
      exists child. by rewrite !list_elem_of_In.
    + right. destruct (is_typevar_assign node); [|done].
      by destruct Hname as [<-|[]].
  - intros (node & Hnode & Hname). exists node.
    split; [by apply list_elem_of_In|]. apply in_or_app.
    destruct Hname as [[-> (child & Hchild & Hname)]|[-> ->]].
    + left. apply in_flat_map. exists child. by rewrite <- !list_elem_of_In.
    + right. by left.
Qed.

Lemma adds_no_name_import x :
  isinstance x "ImportFrom" = true → adds_no_name x.
Proof.
  destruct x as [| | | | | | | | |u k l fs]; try done. cbn.
  intros ->%String.eqb_eq. by repeat split.
Qed.

Lemma adds_no_name_alias u l name : adds_no_name (alias_ u l name).
Proof. by repeat split. Qed.

Lemma walk_root t : is_node t = true → t ∈ walk t.
Proof. intros. apply walk_subnode; [done|constructor]. Qed.

(** Nodes that are the old root's, or add no name, leave the needed
    names as they were. *)
Lemma needed_mono tree tree' :
  is_node tree = true → is_node tree' = true →
  (∀ x, subnode x tree' → x = tree' ∨ subnode x tree ∨ adds_no_name x) →
  isinstance_any tree' ["FunctionDef"; "arg"; "AnnAssign"]
  = isinstance_any tree ["FunctionDef"; "arg"; "AnnAssign"] →
  is_typevar_assign tree' = is_typevar_assign tree →
  annotation_names tree' = annotation_names tree →
  _find_needed_imports tree' ⊆ _find_needed_imports tree.
Proof.
  intros Ht Ht' Hclass Hcls Htv Hann name (node & Hnode & Hname)%elem_of_needed.
  apply elem_of_needed. apply walk_subnode in Hnode; [|done].
  destruct (Hclass node Hnode) as [->|[Hold|(H1 & H2 & H3)]].
  - exists tree. split; [by apply walk_root|].
    destruct Hname as [[Hc (child & Hchild & Hname)]|[Hc ->]].
    + left. split; [by rewrite <- Hcls|].
      apply walk_subnode in Hchild; [|done].
      destruct (Hclass child Hchild) as [->|[Hold|(_ & _ & H3)]].
      * exists tree. split; [by apply walk_root|by rewrite <- Hann].
      * exists child. split; [by apply walk_subnode|done].
      * rewrite H3 in Hname. by apply elem_of_nil in Hname.
    + right. split; [by rewrite <- Htv|done].
  - exists node. split; [by apply walk_subnode|done].
  - destruct Hname as [[Hc _]|[Hc _]]; congruence.
Qed.

Lemma extended_import_nodes fresh c0 imports x :
  is_typing_from c0 = true →
  subnode x (extend_names fresh c0 imports) →
  subnode x c0 ∨ adds_no_name x.
Proof.
  intros Hc0. unfold extend_names. destruct (decide _); [by left|].
  intros [->|[(s & Hs & Hnode & Hx)|(c & Hc & Hx)]]%subnode_setattr_list.
  - right. apply adds_no_name_import. rewrite isinstance_setattr.
    by apply andb_true_iff in Hc0 as [? _].
  - apply elem_of_app in Hs as [Hs|Hs].
    + left. eapply subnode_child; [|done].
      by apply (attr_list_child c0 "names").
    + right. apply new_aliases_elem in Hs as (u & name & ->).
      apply subnode_alias in Hx as ->. apply adds_no_name_alias.
  - left. by eapply subnode_child.
Qed.

Lemma add_import_nodes tree imports x :
  is_node tree = true →
  subnode x (_add_import_statement tree imports) →
  x = _add_import_statement tree imports ∨ subnode x tree ∨ adds_no_name x.
Proof.
  intros Ht. unfold _add_import_statement.
  destruct (extend_first _ _ _) as [body'|] eqn:E.
  - apply extend_first_split in E as (prefix & c0 & rest & Hb & -> & Hc0 & _).
    intros [->|[(s & Hs & Hnode & Hx)|(c & Hc & Hx)]]%subnode_setattr_list;
      [by left| |right; left; by eapply subnode_child].
    right.
    assert (∀ s, s ∈ body tree → is_node s = true → subnode x s →
                 subnode x tree) as Hold.
    { intros s' Hs' Hn' Hx'. eapply subnode_child; [|done].
      by apply (attr_list_child tree "body"). }
    rewrite elem_of_app, elem_of_cons in Hs. destruct Hs as [Hs|[->|Hs]].
    + left. apply (Hold s); [|done..]. rewrite Hb. set_solver.
    + apply extended_import_nodes in Hx as [Hx|Hx]; [|by right|done].
      left. apply (Hold c0); [rewrite Hb; set_solver| |done].
      by apply is_typing_from_node.
    + left. apply (Hold s); [|done..]. rewrite Hb. set_solver.
  - intros [->|[(s & Hs & Hnode & Hx)|(c & Hc & Hx)]]%subnode_setattr_list;
      [by left| |right; left; by eapply subnode_child].
    right. unfold list_insert_at in Hs.
    rewrite elem_of_app, elem_of_cons in Hs. destruct Hs as [Hs|[->|Hs]].
    + left. eapply subnode_child; [|done].
      apply (attr_list_child tree "body"); [|done].
      by eapply (subseteq_take (_find_import_position tree)).
    + right.
      apply subnode_inv in Hx as [->|(c & Hc & Hx)]; [by repeat split|].
      cbn in Hc. rewrite app_nil_r in Hc.
      apply list_elem_of_In, filter_In in Hc as [Hc%list_elem_of_In _].
      apply new_aliases_elem in Hc as (u & name & ->).
      apply subnode_alias in Hx as ->. apply adds_no_name_alias.
    + left. eapply subnode_child; [|done].
      apply (attr_list_child tree "body"); [|done].
      by eapply (subseteq_drop (_find_import_position tree)).
Qed.

Lemma annotation_names_setattr_body t v :
  annotation_names (setattr t "body" v) = annotation_names t.
Proof.
  unfold annotation_names, attr_str.
  rewrite !isinstance_setattr, !attr_setattr_ne by done. done.
Qed.

Lemma is_typevar_assign_setattr_body t v :
  is_typevar_assign (setattr t "body" v) = is_typevar_assign t.
Proof.
  unfold is_typevar_assign.
  rewrite !isinstance_setattr, !attr_setattr_ne by done. done.
Qed.

Lemma needed_after_add tree imports :
  is_node tree = true →
  _find_needed_imports (_add_import_statement tree imports)
  ⊆ _find_needed_imports tree.
Proof.
  intros Ht. apply needed_mono; [done| | | | |].
  - unfold _add_import_statement. by destruct (extend_first _ _ _), tree.
  - intros x. by apply add_import_nodes.
  - unfold _add_import_statement, isinstance_any.
    destruct (extend_first _ _ _); cbn [existsb];
      by rewrite !isinstance_setattr.
  - unfold _add_import_statement.
    destruct (extend_first _ _ _); apply is_typevar_assign_setattr_body.
  - unfold _add_import_statement.
    destruct (extend_first _ _ _); apply annotation_names_setattr_body.
Qed.

End Needed.

Section Existing.

Lemma alias_loop_Some names existing :
  "*" ∉ names →
  alias_loop names existing = Some (list_to_set names ∪ existing).
Proof.
  revert existing. induction names as [|name names IH]; intros existing Hstar.
  - cbn. f_equal. apply leibniz_equiv. set_solver.
  - cbn [alias_loop]. destruct (String.eqb_spec name "*") as [->|Hne].
    + exfalso. apply Hstar. by left.
    + rewrite IH by set_solver. f_equal. apply leibniz_equiv. set_solver.
Qed.

Lemma imports_all_or node : imports_all node ∨ ¬ imports_all node.
Proof.
  unfold imports_all.
  destruct (is_typing_from node), (isinstance node "Import"),
    (decide ("*" ∈ alias_names node)), (decide ("typing" ∈ alias_names node));
    naive_solver.
Qed.

Lemma imports_all_Forall nodes :
  Exists imports_all nodes ∨ Forall (λ node, ¬ imports_all node) nodes.
Proof.
  induction nodes as [|node nodes [IH|IH]]; [right; constructor|left; by right|].
  destruct (imports_all_or node); [left; by left|right; by constructor].
Qed.

Lemma listed_names_cons node nodes :
  listed_names (node :: nodes)
  = (if is_typing_from node then list_to_set (alias_names node) else ∅)
    ∪ listed_names nodes.
Proof.
  unfold listed_names. cbn [flat_map]. rewrite list_to_set_app_L.
  by destruct (is_typing_from node).
Qed.

Lemma listed_names_app nodes1 nodes2 :
  listed_names (nodes1 ++ nodes2) = listed_names nodes1 ∪ listed_names nodes2.
Proof.
  induction nodes1 as [|node nodes1 IH]; cbn [app].
  - unfold listed_names at 2. cbn. apply leibniz_equiv. set_solver.
  - rewrite !listed_names_cons, IH. apply leibniz_equiv. set_solver.
Qed.

(** Without a wildcard the loop of [_find_existing_imports] collects the
    names the typing imports list. *)
Lemma existing_loop_spec nodes existing :
  Forall (λ node, ¬ imports_all node) nodes →
  existing_loop nodes existing = listed_names nodes ∪ existing.
Proof.
  intros Hall. revert existing.
  induction Hall as [|node nodes Hnode _ IH]; intros existing.
  - cbn. apply leibniz_equiv. set_solver.
  - cbn [existing_loop]. rewrite listed_names_cons. unfold is_typing_from.
    unfold imports_all, is_typing_from in Hnode.
    destruct (isinstance node "ImportFrom") eqn:E1; cbn [andb].
    + destruct (String.eqb (attr_str node "module") "typing") eqn:E2.
      * rewrite alias_loop_Some by (cbn in Hnode; naive_solver).
        rewrite IH. apply leibniz_equiv. set_solver.
      * rewrite IH. apply leibniz_equiv. set_solver.
    + destruct (isinstance node "Import") eqn:E3.
      * destruct (in_list "typing" (alias_names node)) eqn:E4.
        -- apply in_list_elem in E4. naive_solver.
        -- rewrite IH. apply leibniz_equiv. set_solver.
      * rewrite IH. apply leibniz_equiv. set_solver.
Qed.

Lemma star_not_typing : "*" ∉ TYPING_IMPORTS.
Proof.
  unfold TYPING_IMPORTS. rewrite elem_of_list_to_set.
  intros H. repeat (apply elem_of_cons in H as [H|H]; [done|]).
  by apply elem_of_nil in H.
Qed.

Lemma missing_no_imports_all tree :
  missing_imports tree ≠ ∅ →
  Forall (λ node, ¬ imports_all node) (body tree).
Proof.
  intros Hm. destruct (imports_all_Forall (body tree)) as [Hex|]; [|done].
  exfalso. apply Hm. unfold missing_imports, _find_existing_imports.
  rewrite (existing_everything _ _ Hex). apply leibniz_equiv.
  pose proof (needed_subseteq tree). set_solver.
Qed.

Lemma body_after_add tree imports :
  is_node tree = true → imports ⊆ TYPING_IMPORTS →
  Forall (λ node, ¬ imports_all node) (body tree) →
  Forall (λ node, ¬ imports_all node)
    (body (_add_import_statement tree imports))
  ∧ listed_names (body (_add_import_statement tree imports))
    = listed_names (body tree) ∪ imports.
Proof.
  intros Ht Himp Hall.
  assert ("*" ∉ imports) as Hstar.
  { intros Hs. by apply star_not_typing, Himp. }
  unfold _add_import_statement.
  destruct (extend_first _ _ _) as [body'|] eqn:E.
  - apply extend_first_split in E as (prefix & c0 & rest & Hb & -> & Hc0 & _).
    rewrite body_setattr by done. rewrite Hb in Hall |- *.
    apply Forall_app in Hall as [Hpre Hrest].
    apply Forall_cons in Hrest as [Hc Hrest].
    pose proof (is_typing_from_node _ Hc0) as Hnode.
    pose proof (alias_names_extend (S (max_uid tree)) c0 imports Hnode) as Hnames.
    split.
    + apply Forall_app. split; [done|]. constructor; [|done].
      unfold imports_all. rewrite is_typing_from_extend, Hnames.
      intros [[_ Hin]|[Himport _]].
      * apply elem_of_app in Hin as [Hin|Hin%sorted_elements_elem].
        -- apply Hc. left. by split.
        -- set_solver.
      * unfold extend_names in Himport. apply andb_true_iff in Hc0 as [Hcls _].
        destruct (decide _); [|rewrite isinstance_setattr in Himport];
          destruct c0; try done; cbn in Hcls, Himport;
          apply String.eqb_eq in Hcls; by subst.
    + rewrite !listed_names_app, !listed_names_cons.
      rewrite is_typing_from_extend, Hc0, Hnames, list_to_set_app_L.
      apply leibniz_equiv. intros x.
      rewrite !elem_of_union, !elem_of_list_to_set, sorted_elements_elem.
      rewrite elem_of_difference, elem_of_list_to_set.
      destruct (decide (x ∈ alias_names c0)); naive_solver.
  - rewrite body_setattr by done. unfold list_insert_at.
    rewrite <- (take_drop (_find_import_position tree) (body tree)) in Hall.
    apply Forall_app in Hall as [Htake Hdrop]. split.
    + apply Forall_app. split; [done|]. constructor; [|done].
      unfold imports_all. intros [[_ Hin]|[Himport _]]; [|done].
      unfold alias_names, attr_list in Hin. cbn in Hin.
      unfold new_aliases in Hin. rewrite alias_names_new in Hin.
      by apply sorted_elements_elem in Hin.
    + rewrite listed_names_app, listed_names_cons.
      rewrite <- (take_drop (_find_import_position tree) (body tree)) at 3.
      rewrite listed_names_app.
      assert (is_typing_from
                (VNode (S (max_uid tree) + size imports) "ImportFrom" None
                   [("module", VStr "typing");
                    ("names", VList (new_aliases (S (max_uid tree)) imports));
                    ("level", VInt 0)]) = true) as -> by done.
      unfold alias_names at 1, attr_list. cbn [attr iter_fields lookup_field].
      cbn. unfold new_aliases. rewrite alias_names_new.
      apply leibniz_equiv. intros x.
      rewrite !elem_of_union, elem_of_list_to_set, sorted_elements_elem.
      naive_solver.
Qed.

End Existing.

(** After [add_missing_imports] every typing name the module needs is
    imported by it, so running the reconciler again finds nothing
    missing: it returns the tree it was given and the count 0. *)
Theorem add_missing_imports_settles tree :
  _find_needed_imports (add_missing_imports tree).1
  ⊆ _find_existing_imports (add_missing_imports tree).1
  ∧ add_missing_imports (add_missing_imports tree).1
    = ((add_missing_imports tree).1, 0).
Proof.
  assert (_find_needed_imports (add_missing_imports tree).1
          ⊆ _find_existing_imports (add_missing_imports tree).1) as Hsub.
  { unfold add_missing_imports. fold (missing_imports tree).
    destruct (decide (missing_imports tree = ∅)) as [He|Hne]; cbn [fst].
    - unfold missing_imports in He. set_solver.
    - pose proof (missing_is_node _ Hne) as Ht.
      pose proof (missing_no_imports_all _ Hne) as Hall.
      assert (missing_imports tree ⊆ TYPING_IMPORTS) as Hty.
      { pose proof (needed_subseteq tree). unfold missing_imports. set_solver. }
      destruct (body_after_add tree (missing_imports tree) Ht Hty Hall)
        as [Hall' Hlisted].
      pose proof (needed_after_add tree (missing_imports tree) Ht) as Hneeded.
      unfold _find_existing_imports at 1.
      rewrite (existing_loop_spec _ _ Hall'), Hlisted.
      assert (_find_existing_imports tree = listed_names (body tree) ∪ ∅) as Hex.
      { unfold _find_existing_imports. by rewrite (existing_loop_spec _ _ Hall). }
      intros x Hx%Hneeded. unfold missing_imports. rewrite Hex.
      destruct (decide (x ∈ listed_names (body tree))); set_solver. }
  split; [done|].
  unfold add_missing_imports at 1. rewrite decide_True; [done|].
  apply leibniz_equiv. set_solver.
Qed.

Section Position.

Lemma first_non_import_spec i nodes :
  i ≤ first_non_import i nodes ≤ i + length nodes
  ∧ Forall (λ node, is_import node = true)
      (take (first_non_import i nodes - i) nodes)
  ∧ ∀ node, nodes !! (first_non_import i nodes - i) = Some node →
            is_import node = false.
Proof.
  revert i. induction nodes as [|node nodes IH]; intros i; cbn [first_non_import].
  - split; [cbn; lia|]. split; [by rewrite take_nil|done].
  - destruct (is_import node) eqn:E.
    + destruct (IH (S i)) as (Hle & Htake & Hat).
      split; [cbn; lia|].
      replace (first_non_import (S i) nodes - i)
        with (S (first_non_import (S i) nodes - S i)) by lia.
      split; [by constructor|done].
    + rewrite Nat.sub_diag. split; [cbn; lia|]. split; [constructor|].
      by intros ? [= <-].
Qed.

End Position.

(** The place [_find_import_position] chooses is inside the body, after
    the module docstring and the imports that follow it, and it is the
    place of the first statement after them that is no import. *)
Theorem import_position_follows_leading_imports tree :
  (if starts_with_docstring (body tree) then 1 else 0)
  ≤ _find_import_position tree ≤ length (body tree)
  ∧ Forall (λ node, is_import node = true)
      (drop (if starts_with_docstring (body tree) then 1 else 0)
         (take (_find_import_position tree) (body tree)))
  ∧ ∀ node, body tree !! _find_import_position tree = Some node →
            is_import node = false.
Proof.
  unfold _find_import_position.
  set (d := if starts_with_docstring (body tree) then 1 else 0).
  assert (d ≤ length (body tree)) as Hd.
  { unfold d. destruct (body tree); cbn; [lia|]. destruct (_ && _); lia. }
  destruct (first_non_import_spec d (drop d (body tree))) as (Hle & Htake & Hat).
  rewrite length_drop in Hle. split; [lia|].
  set (pos := first_non_import d (drop d (body tree))) in *.
  split.
  - rewrite take_drop_commute in Htake.
    by replace (d + (pos - d)) with pos in Htake by lia.
  - intros node Hnode. apply Hat. rewrite lookup_drop.
    by replace (d + (pos - d)) with pos by lia.
Qed.

Import ImportFixer.
(** ** Merging and pruning the typing imports *)
Import ImportOptimizer.

Section Merge.

Lemma body_of_leaf tree : is_node tree = false → body tree = [].
Proof. by destruct tree. Qed.

Lemma setattr_leaf tree f v : is_node tree = false → setattr tree f v = tree.
Proof. by destruct tree. Qed.

Lemma other_nodes_typing nodes :
  List.filter is_typing_from (other_nodes nodes) = [].
Proof.
  unfold other_nodes. induction nodes as [|node nodes IH]; [done|].
  cbn [List.filter]. destruct (is_typing_from node) eqn:E; cbn [negb]; [done|].
  cbn [List.filter]. by rewrite E.
Qed.

Lemma other_nodes_idemp nodes : other_nodes (other_nodes nodes) = other_nodes nodes.
Proof.
  unfold other_nodes. induction nodes as [|node nodes IH]; [done|].
  cbn [List.filter]. destruct (is_typing_from node) eqn:E; cbn [negb]; [done|].
  cbn [List.filter]. rewrite E. cbn [negb]. by rewrite IH.
Qed.

Lemma other_nodes_insert k imp nodes :
  is_typing_from imp = true →
  other_nodes (list_insert_at k imp nodes) = other_nodes nodes.
Proof.
  intros Himp. unfold other_nodes, list_insert_at.
  rewrite List.filter_app. cbn [List.filter]. rewrite Himp. cbn [negb].
  by rewrite <- List.filter_app, take_drop.
Qed.

Lemma typing_insert k imp nodes :
  is_typing_from imp = true →
  List.filter is_typing_from (list_insert_at k imp nodes)
  = List.filter is_typing_from (take k nodes) ++ imp
    :: List.filter is_typing_from (drop k nodes).
Proof.
  intros Himp. unfold list_insert_at. rewrite List.filter_app.
  cbn [List.filter]. by rewrite Himp.
Qed.

Lemma filter_typing_nil nodes :
  List.filter is_typing_from nodes = [] ↔
  Forall (λ node, is_typing_from node = false) nodes.
Proof.
  induction nodes as [|node nodes IH]; cbn [List.filter].
  - split; [constructor|done].
  - destruct (is_typing_from node) eqn:E.
    + split; [done|]. intros [? _]%Forall_cons. congruence.
    + rewrite IH. split; [by constructor|by intros [_ ?]%Forall_cons].
Qed.

Lemma listed_names_none nodes :
  Forall (λ node, is_typing_from node = false) nodes → listed_names nodes = ∅.
Proof.
  induction 1 as [|node nodes Hnode _ IH]; [done|].
  rewrite listed_names_cons, Hnode, IH. apply leibniz_equiv. set_solver.
Qed.

Lemma star_not_merged nodes : "*" ∉ all_typing_names nodes.
Proof.
  unfold all_typing_names. rewrite elem_of_list_to_set, list_elem_of_In.
  intros (node & _ & Hin)%in_flat_map. destruct (is_typing_from node); [|done].
  by apply filter_In in Hin as [_ Hne].
Qed.

(** [merge_typing_imports] keeps the statements that are no typing import
    as they are and in order, and replaces the typing imports by at most
    one, which lists, sorted and once each, the names they listed;
    [*] is not among them, so a module whose only typing import is a
    wildcard import is left without any, and unless it has
    [import typing] the names [_find_existing_imports] reports afterwards
    are just the merged names. *)
Theorem merge_typing_imports_spec tree :
  other_nodes (body (merge_typing_imports tree)) = other_nodes (body tree)
  ∧ "*" ∉ all_typing_names (body tree)
  ∧ (all_typing_names (body tree) = ∅ →
     body (merge_typing_imports tree) = other_nodes (body tree))
  ∧ (all_typing_names (body tree) ≠ ∅ →
     ∃ imp,
       List.filter is_typing_from (body (merge_typing_imports tree)) = [imp]
       ∧ alias_names imp = sorted (elements (all_typing_names (body tree))))
  ∧ (Forall (λ node, ¬ (isinstance node "Import" = true
                        ∧ "typing" ∈ alias_names node)) (body tree) →
     _find_existing_imports (merge_typing_imports tree)
     = all_typing_names (body tree)).
Proof.
  destruct (is_node tree) eqn:Ht; cycle 1.
  { assert (merge_typing_imports tree = tree) as ->.
    { unfold merge_typing_imports.
      destruct (decide _); by apply setattr_leaf. }
    rewrite (body_of_leaf tree) by done. split_and!; try done.
    intros _. unfold _find_existing_imports.
    by rewrite (body_of_leaf tree). }
  pose proof (other_nodes_typing (body tree)) as Hothers.
  pose proof (proj1 (filter_typing_nil _) Hothers) as Hothers'.
  set (names := all_typing_names (body tree)).
  set (imp := VNode (S (max_uid tree) + size names) "ImportFrom" None
                [("module", VStr "typing");
                 ("names", VList (new_aliases (S (max_uid tree)) names));
                 ("level", VInt 0)]).
  assert (is_typing_from imp = true) as Himp by done.
  assert (alias_names imp = sorted (elements names)) as Hnames.
  { unfold alias_names, attr_list. cbn. unfold new_aliases.
    by rewrite alias_names_new. }
  assert (body (merge_typing_imports tree)
          = if decide (names = ∅) then other_nodes (body tree)
            else list_insert_at
                   (if starts_with_docstring (other_nodes (body tree))
                    then 1 else 0) imp (other_nodes (body tree))) as Hbody.
  { unfold merge_typing_imports. fold names.
    destruct (decide (names = ∅)); by rewrite body_setattr. }
  split_and!.
  - rewrite Hbody. destruct (decide _); [apply other_nodes_idemp|].
    rewrite other_nodes_insert by done. apply other_nodes_idemp.
  - apply star_not_merged.
  - intros He. rewrite Hbody. by rewrite decide_True.
  - intros Hne. exists imp. split; [|done].
    rewrite Hbody, decide_False by done. rewrite typing_insert by done.
    rewrite (proj2 (filter_typing_nil (take _ _))), (proj2 (filter_typing_nil (drop _ _)));
      [done| |].
    + by apply Forall_drop.
    + by apply Forall_take.
  - intros Himport. unfold _find_existing_imports.
    assert (Forall (λ node, ¬ imports_all node) (other_nodes (body tree)))
      as Hquiet.
    { apply Forall_forall. intros node Hnode%list_elem_of_In.
      apply filter_In in Hnode as [Hnode%list_elem_of_In Hty].
      apply negb_true_iff in Hty.
      intros [[? _]|?]; [congruence|].
      by apply (proj1 (Forall_forall _ _) Himport node). }
    rewrite Hbody. destruct (decide (names = ∅)) as [->|Hne].
    + rewrite existing_loop_spec by done.
      rewrite listed_names_none by done. apply leibniz_equiv. set_solver.
    + rewrite existing_loop_spec.
      * unfold list_insert_at.
        rewrite listed_names_app, listed_names_cons, Himp, Hnames.
        rewrite !listed_names_none by (by apply Forall_take || by apply Forall_drop).
        apply leibniz_equiv. intros x.
        rewrite !elem_of_union, elem_of_list_to_set, sorted_elements_elem.
        set_solver.
      * unfold list_insert_at. apply Forall_app. split; [by apply Forall_take|].
        constructor; [|by apply Forall_drop].
        intros [[_ Hin]|[? _]]; [|done].
        rewrite Hnames in Hin. apply sorted_elements_elem in Hin.
        by apply star_not_merged in Hin.
Qed.

End Merge.

Section Prune.

Lemma lookup_field_child fs f :
  is_node (lookup_field fs f) = true →
  lookup_field fs f ∈ flat_map (λ p, field_children p.2) fs.
Proof.
  induction fs as [|[g w] fs IH]; [done|]. cbn [lookup_field flat_map snd].
  rewrite elem_of_app. destruct (String.eqb g f).
  - intros Hw. left. destruct w; try done. by left.
  - intros. right. by apply IH.
Qed.

(** A node held by a field is a child. *)
Lemma attr_child n f : is_node (attr n f) = true → attr n f ∈ iter_child_nodes n.
Proof. destruct n; try done. apply lookup_field_child. Qed.

Lemma elem_of_used name tree :
  name ∈ _find_used_names tree ↔
  ∃ node, node ∈ walk tree ∧ isinstance node "Name" = true
          ∧ name = attr_str node "id".
Proof.
  unfold _find_used_names.
  rewrite elem_of_list_to_set, list_elem_of_In, in_flat_map. split.
  - intros (node & Hnode%list_elem_of_In & Hname). exists node.
    destruct (isinstance node "Name"); [|done].
    by destruct Hname as [<-|[]].
  - intros (node & Hnode & Hcls & ->). exists node.
    split; [by apply list_elem_of_In|]. rewrite Hcls. by left.
Qed.

(** Every name the reconciler counts as needed is the identifier of a
    [Name] node of the tree. *)
Lemma needed_used tree : _find_needed_imports tree ⊆ _find_used_names tree.
Proof.
  destruct (is_node tree) eqn:Ht;
    [|rewrite needed_of_leaf by done; set_solver].
  intros name (node & Hnode & Hname)%elem_of_needed. apply elem_of_used.
  apply walk_sound in Hnode.
  destruct Hname as [[_ (child & Hchild%walk_sound & Hname)]|[Htv ->]].
  - pose proof (subnode_trans _ _ _ Hchild Hnode) as Hsub.
    unfold annotation_names in Hname.
    destruct (isinstance child "Name") eqn:E1.
    + destruct (bool_decide _); [|by apply elem_of_nil in Hname].
      apply list_elem_of_singleton in Hname as ->.
      exists child. split_and!; [by apply walk_subnode|done..].
    + destruct (isinstance child "Subscript"); [|by apply elem_of_nil in Hname].
      destruct (isinstance (attr child "value") "Name") eqn:E2;
        [|by apply elem_of_nil in Hname].
      cbn [andb] in Hname.
      destruct (bool_decide _); [|by apply elem_of_nil in Hname].
      apply list_elem_of_singleton in Hname as ->.
      exists (attr child "value"). split_and!; [|done..].
      apply walk_subnode; [done|]. eapply subnode_trans; [|exact Hsub].
      eapply subnode_child; [|constructor].
      apply attr_child. by eapply isinstance_is_node.
  - unfold is_typevar_assign in Htv.
    apply andb_true_iff in Htv as [Htv Hid].
    apply andb_true_iff in Htv as [Htv Hname].
    apply andb_true_iff in Htv as [_ Hcall].
    exists (attr (attr node "value") "func"). split_and!; [|done|].
    + apply walk_subnode; [done|]. eapply subnode_trans; [|exact Hnode].
      eapply subnode_child; [apply attr_child; by eapply isinstance_is_node|].
      eapply subnode_child; [apply attr_child; by eapply isinstance_is_node|].
      constructor.
    + symmetry. by apply String.eqb_eq.
Qed.

Lemma is_typing_from_setattr_names node v :
  is_typing_from (setattr node "names" v) = is_typing_from node.
Proof.
  unfold is_typing_from, attr_str.
  by rewrite isinstance_setattr, attr_setattr_ne.
Qed.

Lemma keep_used_elem used node node' :
  node' ∈ keep_used used node →
  (is_typing_from node = false ∧ node' = node)
  ∨ (is_typing_from node = true ∧ is_typing_from node' = true
     ∧ attr_list node' "names"
       = List.filter (is_used used) (attr_list node "names")
     ∧ attr_list node' "names" ≠ []).
Proof.
  unfold keep_used. destruct (is_typing_from node) eqn:E.
  - destruct (List.filter _ _) as [|a l] eqn:Hf; [by intros ?%elem_of_nil|].
    intros ->%list_elem_of_singleton. right.
    rewrite is_typing_from_setattr_names. unfold attr_list.
    rewrite attr_setattr_eq by by apply is_typing_from_node.
    done.
  - intros ->%list_elem_of_singleton. by left.
Qed.

Lemma other_nodes_keep_used used nodes :
  other_nodes (flat_map (keep_used used) nodes) = other_nodes nodes.
Proof.
  unfold other_nodes. induction nodes as [|node nodes IH]; [done|].
  cbn [flat_map List.filter]. rewrite List.filter_app, IH.
  unfold keep_used. destruct (is_typing_from node) eqn:E; cbn [negb].
  - destruct (List.filter _ (attr_list node "names")); [done|].
    cbn [List.filter]. rewrite is_typing_from_setattr_names, E. done.
  - cbn [List.filter]. rewrite E. done.
Qed.

(** [remove_unused_imports] leaves every statement that is no typing
    import where it is; a typing import it keeps lists exactly those of
    its aliases whose name is the identifier of some [Name] node of the
    tree, or [*], and is dropped when none is left; and a name
    [ImportFixer] counts as needed is always such an identifier, so the
    optimizer never removes an alias the reconciler needs. *)
Theorem remove_unused_imports_spec tree :
  _find_needed_imports tree ⊆ _find_used_names tree
  ∧ other_nodes (body (remove_unused_imports tree)) = other_nodes (body tree)
  ∧ (∀ node', node' ∈ body (remove_unused_imports tree) →
       is_typing_from node' = true →
       attr_list node' "names" ≠ []
       ∧ ∀ alias, alias ∈ attr_list node' "names" →
           is_used (_find_used_names tree) alias = true)
  ∧ (∀ node alias,
       node ∈ body tree → is_typing_from node = true →
       alias ∈ attr_list node "names" →
       is_used (_find_used_names tree) alias = true →
       ∃ node', node' ∈ body (remove_unused_imports tree)
                ∧ is_typing_from node' = true
                ∧ alias ∈ attr_list node' "names").
Proof.
  split; [apply needed_used|].
  destruct (is_node tree) eqn:Ht; cycle 1.
  { assert (remove_unused_imports tree = tree) as ->
      by by apply setattr_leaf.
    rewrite (body_of_leaf tree) by done.
    split_and!; [done|by intros ? ?%elem_of_nil|by intros ? ? ?%elem_of_nil]. }
  unfold remove_unused_imports. rewrite body_setattr by done.
  split_and!.
  - apply other_nodes_keep_used.
  - intros node' Hin Hty.
    apply list_elem_of_In, in_flat_map in Hin as (node & _ & Hin%list_elem_of_In).
    apply keep_used_elem in Hin as [[Hno ->]|(_ & _ & Hnames & Hne)];
      [congruence|].
    split; [done|]. intros alias. rewrite Hnames.
    intros Hin%list_elem_of_In. by apply filter_In in Hin as [_ ?].
  - intros node alias Hnode Hty Halias Hused.
    assert (alias ∈ List.filter (is_used (_find_used_names tree))
                      (attr_list node "names")) as Hkept.
    { apply list_elem_of_In, filter_In. by rewrite <- list_elem_of_In. }
    exists (setattr node "names"
              (VList (List.filter (is_used (_find_used_names tree))
                        (attr_list node "names")))).
    split_and!.
    + apply list_elem_of_In, in_flat_map. exists node.
      split; [by apply list_elem_of_In|]. unfold keep_used. rewrite Hty.
      destruct (List.filter _ _) eqn:Hf; [by apply elem_of_nil in Hkept|].
      by left.
    + by rewrite is_typing_from_setattr_names.
    + unfold attr_list at 1.
      by rewrite attr_setattr_eq by by apply is_typing_from_node.
Qed.

End Prune.

(** ** The generic fixer *)
Import GenericFixer.

Section TypeParam.

(** [_add_type_param] settles the need for a parameter for [List], [Set],
    [Optional] and [Dict], which become subscripts of the same name; a
    bare [Tuple] or [Union] is returned as it is and still needs one,
    although the fixer reports it as fixed. *)
Theorem add_type_param_settles_four_generics u annotation type_var :
  (_needs_type_param (_add_type_param u annotation type_var) = true ↔
   _needs_type_param annotation = true
   ∧ in_list (attr_str annotation "id") ["Tuple"; "Union"] = true)
  ∧ (_needs_type_param annotation = true →
     in_list (attr_str annotation "id") ["Tuple"; "Union"] = true →
     _add_type_param u annotation type_var = annotation)
  ∧ (_needs_type_param annotation = true →
     in_list (attr_str annotation "id") ["Tuple"; "Union"] = false →
     isinstance (_add_type_param u annotation type_var) "Subscript" = true
     ∧ attr_str (attr (_add_type_param u annotation type_var) "value") "id"
       = attr_str annotation "id").
Proof.
  unfold _needs_type_param, _add_type_param, in_list. cbn [existsb].
  destruct (isinstance annotation "Name") eqn:Hname; cbn [andb];
    [|rewrite Hname; cbn [andb]; naive_solver].
  remember (attr_str annotation "id") as id eqn:Hid.
  destruct (String.eqb_spec id "List") as [->|H1]; [cbn; naive_solver|].
  destruct (String.eqb_spec id "Dict") as [->|H2]; [cbn; naive_solver|].
  destruct (String.eqb_spec id "Set") as [->|H3]; [cbn; naive_solver|].
  destruct (String.eqb_spec id "Optional") as [->|H5]; [cbn; naive_solver|].
  cbn [orb]. rewrite Hname, <- Hid. cbn [andb].
  apply String.eqb_neq in H1, H2, H3, H5. rewrite H1, H2, H3, H5. cbn [orb].
  destruct (String.eqb id "Tuple"), (String.eqb id "Union"); naive_solver.
Qed.

End TypeParam.

Section TypeVar.

Lemma typevar_position_le i insert_pos nodes :
  insert_pos ≤ i → typevar_position i insert_pos nodes ≤ i + length nodes.
Proof.
  revert i insert_pos. induction nodes as [|node nodes IH];
    intros i insert_pos Hle; cbn [typevar_position length]; [lia|].
  destruct (isinstance_any _ _).
  - specialize (IH (S i) (S i)). lia.
  - destruct (isinstance node "FunctionDef"); [lia|].
    specialize (IH (S i) insert_pos). lia.
Qed.

Lemma is_typevar_def_setattr_body t v :
  is_typevar_def (setattr t "body" v) = is_typevar_def t.
Proof.
  unfold is_typevar_def, attr_list.
  rewrite !isinstance_setattr, !attr_setattr_ne by done. done.
Qed.

Lemma typevar_assign_nodes u name x :
  subnode x (typevar_assign u name) → is_typevar_def x = true →
  x = typevar_assign u name.
Proof.
  intros Hx%walk_subnode; [|done]. revert Hx.
  unfold walk, typevar_assign. cbn.
  rewrite !elem_of_cons. intros Hx Hdef.
  destruct Hx as [->|[->|[->|[->|[->|[->|[->|Hx]]]]]]]; try done.
  by apply elem_of_nil in Hx.
Qed.

Lemma list_insert_at_elem {A} k (x y : A) l :
  y ∈ ImportFixer.list_insert_at k x l ↔ y = x ∨ y ∈ l.
Proof.
  unfold ImportFixer.list_insert_at. rewrite elem_of_app, elem_of_cons. split.
  - intros [Hy|[->|Hy]]; [right|by left|right].
    + by eapply (subseteq_take k).
    + by eapply (subseteq_drop k).
  - intros [->|Hy]; [right; by left|].
    rewrite <- (take_drop k l) in Hy.
    apply elem_of_app in Hy as [?|?]; [by left|right; by right].
Qed.

Lemma no_typevar_def tree x :
  is_node tree = true →
  list_find (λ node, is_typevar_def node = true) (walk tree) = None →
  subnode x tree → is_typevar_def x = false.
Proof.
  intros Ht Hnone Hx%walk_subnode; [|done].
  apply list_find_None in Hnone.
  pose proof (proj1 (Forall_forall _ _) Hnone x Hx) as Hx'.
  by apply not_true_is_false in Hx'.
Qed.

(** The declaration [_find_or_create_typevar] inserts is the only
    declaration of a type variable of the tree it returns. *)
Lemma inserted_typevar_only tree k x :
  is_node tree = true →
  list_find (λ node, is_typevar_def node = true) (walk tree) = None →
  subnode x (setattr tree "body"
               (VList (ImportFixer.list_insert_at k
                         (typevar_assign (S (max_uid tree)) "T")
                         (attr_list tree "body")))) →
  is_typevar_def x = true →
  x = typevar_assign (S (max_uid tree)) "T".
Proof.
  intros Ht Hnone Hx Hdef.
  apply subnode_setattr_list in Hx
    as [->|[(s & Hs & Hnode & Hx)|(c & Hc & Hx)]].
  - rewrite is_typevar_def_setattr_body in Hdef.
    rewrite (no_typevar_def tree tree) in Hdef; [done..|constructor].
  - apply list_insert_at_elem in Hs as [->|Hs].
    + by apply typevar_assign_nodes.
    + rewrite (no_typevar_def tree x) in Hdef; [done..|].
      eapply subnode_child; [|done]. by apply (attr_list_child tree "body").
  - rewrite (no_typevar_def tree x) in Hdef; [done..|].
    by eapply subnode_child.
Qed.

(** [_find_or_create_typevar] declares a type variable at most once: on
    the tree it returns it finds the variable it returned, and inserts
    nothing. *)
Theorem typevar_is_declared_once tree func func' :
  is_node tree = true →
  _find_or_create_typevar (_find_or_create_typevar tree func).1.2 func'
  = ((_find_or_create_typevar tree func).1.1,
     (_find_or_create_typevar tree func).1.2, None).
Proof.
  intros Ht. unfold _find_or_create_typevar at 2 3 4.
  destruct (list_find _ (walk tree)) as [[i node]|] eqn:Hfind.
  - cbn [fst snd]. unfold _find_or_create_typevar. by rewrite Hfind.
  - cbn [fst snd]. unfold _find_or_create_typevar.
    set (tv := typevar_assign (S (max_uid tree)) "T").
    set (tree' := setattr tree "body" _).
    assert (is_node tree' = true) as Ht' by by destruct tree.
    assert (tv ∈ walk tree') as Hin.
    { apply walk_subnode; [done|]. eapply subnode_child; [|constructor].
      apply (attr_list_child tree' "body"); [|done].
      unfold tree', attr_list. rewrite attr_setattr_eq by done.
      apply list_insert_at_elem. by left. }
    destruct (list_find_elem_of (λ node, is_typevar_def node = true)
                (walk tree') tv Hin eq_refl) as [[j y] Hy].
    rewrite Hy. apply list_find_Some in Hy as (Hj & Hdef & _).
    assert (y = tv) as ->; [|done].
    apply (inserted_typevar_only tree (typevar_position 0 0 (attr_list tree "body")));
      [done..| |done].
    apply walk_sound. by eapply list_elem_of_lookup_2.
Qed.

End TypeVar.

Lemma typevar_is_declared_once_witness :
  is_node plain_function_module = true
  ∧ _find_or_create_typevar
      (_find_or_create_typevar plain_function_module VNone).1.2 VNone
    = ((_find_or_create_typevar plain_function_module VNone).1.1,
       (_find_or_create_typevar plain_function_module VNone).1.2, None).
Proof.
  split; [reflexivity|].
  exact (typevar_is_declared_once plain_function_module VNone VNone eq_refl).
Defined.

Section Insertion.

Lemma generic_find_node_at tree l p node :
  GenericFixer._find_node_at_line tree l = Some (p, node) →
  node_at p tree = Some node ∧ lineno_of node = Some l.
Proof.
  unfold GenericFixer._find_node_at_line.
  intros ([i [p' node']] & (Hi & Hl & _)%list_find_Some & [= -> ->])%fmap_Some.
  split; [|done]. apply walk_paths_node_at. by eapply list_elem_of_lookup_2.
Qed.

Lemma filter_all_nodes l :
  Forall (λ s, is_node s = true) l → List.filter is_node l = l.
Proof.
  induction 1 as [|s l Hs _ IH]; [done|]. cbn. by rewrite Hs, IH.
Qed.

Lemma set_in_items_insert l i new :
  Forall (λ s, is_node s = true) l → set_in_items l i new = <[i := new]> l.
Proof.
  intros Hall. revert i. induction Hall as [|s l Hs _ IH]; intros i; [done|].
  cbn [set_in_items]. rewrite Hs. destruct i; [done|]. cbn. by rewrite IH.
Qed.

(** An update below the root of a module changes one statement of its
    body. *)
Lemma update_module_body u b i rest f :
  Forall (λ s, is_node s = true) b →
  length (attr_list (update_at (i :: rest) f (Module_ u b)) "body") = length b
  ∧ ∀ k, k ≠ i →
      attr_list (update_at (i :: rest) f (Module_ u b)) "body" !! k = b !! k.
Proof.
  intros Hall. cbn [update_at].
  assert (iter_child_nodes (Module_ u b) = b) as ->.
  { unfold iter_child_nodes. cbn. rewrite app_nil_r. by apply filter_all_nodes. }
  destruct (b !! i) as [c|] eqn:Hc; [|done].
  unfold Module_, set_child, set_in_fields. cbn [field_children].
  rewrite filter_all_nodes by done.
  rewrite decide_True by by eapply lookup_lt_Some.
  unfold attr_list. cbn. rewrite set_in_items_insert by done.
  split; [by rewrite length_insert|].
  intros k Hk. by rewrite list_lookup_insert_ne.
Qed.

Lemma shift_path_head pos i rest :
  ∃ i', shift_path (Some pos) (i :: rest) = i' :: rest ∧ i' ≠ pos.
Proof.
  cbn. destruct (Nat.leb_spec pos i); eexists; (split; [done|lia]).
Qed.

(** Unlike the other fixers, [GenericFixer.fix] changes the tree before
    it knows whether it has anything to fix: when it locates a function
    in a module that declares no type variable, the module it returns
    has one statement more, [T = TypeVar('T')], whatever it reports. *)
Theorem generic_fix_declares_typevar_regardless u b err p node :
  Forall (λ s, is_node s = true) b →
  GenericFixer._find_node_at_line (Module_ u b) (line err) = Some (p, node) →
  isinstance node "FunctionDef" = true →
  ¬ declares_typevar (Module_ u b) →
  length (attr_list (GenericFixer.fix_ err (Module_ u b)).1 "body")
  = S (length b)
  ∧ ∃ k, k ≤ length b
      ∧ attr_list (GenericFixer.fix_ err (Module_ u b)).1 "body" !! k
        = Some (typevar_assign (S (max_uid (Module_ u b))) "T").
Proof.
  intros Hall Hfind Hdef Hno.
  assert (list_find (λ n, is_typevar_def n = true) (walk (Module_ u b)) = None)
    as Hnone.
  { apply list_find_None, Forall_forall. intros x Hx Hx'. apply Hno. by exists x. }
  unfold GenericFixer.fix_. rewrite Hfind, Hdef.
  apply generic_find_node_at in Hfind as [Hp Hline].
  destruct p as [|i rest].
  { injection Hp as <-. done. }
  unfold _fix_generic_function, _find_or_create_typevar. rewrite Hnone.
  cbn [String.eqb Ascii.eqb Bool.eqb].
  set (pos := typevar_position 0 0 (attr_list (Module_ u b) "body")).
  set (tv := typevar_assign (S (max_uid (Module_ u b))) "T").
  assert (pos ≤ length b) as Hpos.
  { unfold pos. pose proof (typevar_position_le 0 0 b). cbn in *. lia. }
  assert (setattr (Module_ u b) "body"
            (VList (ImportFixer.list_insert_at pos tv
                      (attr_list (Module_ u b) "body")))
          = Module_ u (ImportFixer.list_insert_at pos tv b)) as -> by done.
  destruct (param_loop _ _ _ _ _ _) as [node1 m1].
  destruct (shift_path_head pos i rest) as (i' & -> & Hi').
  assert (Forall (λ s, is_node s = true) (ImportFixer.list_insert_at pos tv b))
    as Hall'.
  { unfold ImportFixer.list_insert_at. apply Forall_app.
    split; [by apply Forall_take|]. constructor; [done|by apply Forall_drop]. }
  assert (ImportFixer.list_insert_at pos tv b !! pos = Some tv) as Htv.
  { unfold ImportFixer.list_insert_at.
    rewrite lookup_app_r by (rewrite length_take; lia).
    rewrite length_take. by replace (pos - pos `min` length b) with 0 by lia. }
  assert (length (ImportFixer.list_insert_at pos tv b) = S (length b)) as Hlen.
  { unfold ImportFixer.list_insert_at.
    rewrite length_app, length_take. cbn [length]. rewrite length_drop. lia. }
  destruct (_ && _); cbn [fst];
    match goal with
    | |- context [update_at _ ?f _] =>
        destruct (update_module_body u (ImportFixer.list_insert_at pos tv b)
                    i' rest f Hall') as [Hl Hk]
    end;
    (split; [by rewrite Hl|]); exists pos; (split; [done|]);
    by rewrite Hk.
Qed.

End Insertion.

Lemma generic_fix_declares_typevar_regardless_witness :
  ∃ node,
    Forall (λ s, is_node s = true)
      [FunctionDef_ 2 (at_line 1) "f"
         (arguments_ 3 [arg_ 4 (at_line 1) "x" VNone])
         [Pass_ 5 (at_line 2)] VNone]
    ∧ GenericFixer._find_node_at_line plain_function_module
        (line generic_error) = Some ([0], node)
    ∧ isinstance node "FunctionDef" = true
    ∧ ¬ declares_typevar plain_function_module
    ∧ (GenericFixer.fix_ generic_error plain_function_module).2 = false
    ∧ length (attr_list (GenericFixer.fix_ generic_error
                           plain_function_module).1 "body") = 2
    ∧ ∃ k, k ≤ 1
        ∧ attr_list (GenericFixer.fix_ generic_error
                       plain_function_module).1 "body" !! k
          = Some (typevar_assign (S (max_uid plain_function_module)) "T").
Proof.
  eassert (GenericFixer._find_node_at_line plain_function_module
             (line generic_error) = Some ([0], _)) as Hfind
    by (vm_compute; reflexivity).
  assert (Forall (λ s, is_node s = true)
            [FunctionDef_ 2 (at_line 1) "f"
               (arguments_ 3 [arg_ 4 (at_line 1) "x" VNone])
               [Pass_ 5 (at_line 2)] VNone]) as Hall
    by (by repeat constructor).
  assert (¬ declares_typevar plain_function_module) as Hno.
  { intros (x & Hx & Hdef). revert Hx Hdef. vm_compute.
    intros Hx. repeat (apply elem_of_cons in Hx as [->|Hx]; [done|]).
    by apply elem_of_nil in Hx. }
  eexists. split; [exact Hall|]. split; [exact Hfind|].
  split; [reflexivity|]. split; [exact Hno|]. split; [reflexivity|].
  exact (generic_fix_declares_typevar_regardless 1 _ generic_error [0] _
           Hall Hfind eq_refl Hno).
Defined.

(** ** What the generic fixer reports *)

Section Flag.



End Flag.


(** ** Applying a suggested fix *)

Section ApplyFix.
Variable strip : string → string.
Variable readlines : string → option (list string).

(** [apply_fix] writes only when the file exists, the line the fix names
    is one of its lines (counted from 1) and that line, stripped, is the
    fix's [old] text, stripped; it then writes back as many lines as it
    read, the named line replaced by the [new] text and a newline and
    every other line as it was.  In every other case it returns [False]
    and writes nothing. *)
Theorem apply_fix_rewrites_one_line fx :
  match Runner.apply_fix strip readlines fx with
  | (true, Some written) =>
      ∃ lines i old_line,
        readlines (Runner.fix_file fx) = Some lines
        ∧ Runner.fix_line fx = Z.of_nat (S i)
        ∧ lines !! i = Some old_line
        ∧ strip old_line = strip (Runner.old fx)
        ∧ length written = length lines
        ∧ written !! i = Some (Runner.new fx +:+ Runner.nl)
        ∧ ∀ j, j ≠ i → written !! j = lines !! j
  | (false, None) =>
      ∀ lines i old_line,
        readlines (Runner.fix_file fx) = Some lines →
        Runner.fix_line fx = Z.of_nat (S i) →
        lines !! i = Some old_line →
        strip old_line ≠ strip (Runner.old fx)
  | _ => False
  end.
Proof.
  unfold Runner.apply_fix.
  destruct (readlines (Runner.fix_file fx)) as [lines|]; [|done].
  destruct (Z.ltb_spec (Runner.fix_line fx - 1) 0) as [Hneg|Hpos]; cbn [orb].
  { intros lines' i old_line [= <-] Hline. lia. }
  destruct (Z.leb_spec (Z.of_nat (length lines)) (Runner.fix_line fx - 1))
    as [Hbig|Hsmall].
  { intros lines' i old_line [= <-] Hline Hi%lookup_lt_Some. lia. }
  destruct (lines !! Z.to_nat (Runner.fix_line fx - 1)) as [old_line|] eqn:Hi.
  - case_bool_decide as Hstrip.
    + exists lines, (Z.to_nat (Runner.fix_line fx - 1)), old_line.
      split_and!; [done|lia|done|done| | |].
      * by rewrite length_insert.
      * apply list_lookup_insert_eq. by eapply lookup_lt_Some.
      * intros j Hj. by rewrite list_lookup_insert_ne.
    + intros lines' i old_line' [= <-] Hline Hi'.
      assert (Z.to_nat (Runner.fix_line fx - 1) = i) as E by lia.
      rewrite E in Hi. congruence.
  - apply lookup_ge_None in Hi. lia.
Qed.

End ApplyFix.

(** ** Categories of diagnostics *)

Section Categories.

Lemma prefix_app_inv a b s :
  String.prefix (a +:+ b) s = true →
  ∃ t, s = a +:+ t ∧ String.prefix b t = true.
Proof.
  revert s. induction a as [|c a IH]; intros s; [by exists s|].
  change (String c a +:+ b) with (String c (a +:+ b)).
  destruct s as [|c' s]; cbn [String.prefix]; [done|].
  destruct (Ascii.ascii_dec c c') as [->|]; [|done].
  intros (t & -> & Ht)%IH. by exists t.
Qed.

Lemma contains_prefix b t : String.prefix b t = true → contains b t = true.
Proof. destruct t; cbn [contains]; by intros ->. Qed.

Lemma contains_skip a b t : contains b t = true → contains b (a +:+ t) = true.
Proof.
  intros Hb. induction a as [|c a IH]; [done|].
  change (String c a +:+ t) with (String c (a +:+ t)). cbn [contains].
  rewrite IH. apply orb_true_r.
Qed.

(** A text that contains [a ++ b] contains [b]. *)
Lemma contains_app_r a b s :
  contains (a +:+ b) s = true → contains b s = true.
Proof.
  induction s as [|c s IH]; intros H; cbn [contains] in H.
  - rewrite orb_false_r in H. apply prefix_app_inv in H as (t & E & Ht).
    rewrite E. by apply contains_skip, contains_prefix.
  - apply orb_true_iff in H as [Hp|Hs].
    + apply prefix_app_inv in Hp as (t & E & Ht).
      rewrite E. by apply contains_skip, contains_prefix.
    + cbn [contains]. rewrite (IH Hs). apply orb_true_r.
Qed.

Lemma contains_app_l a b s :
  contains (a +:+ b) s = true → contains a s = true.
Proof.
  assert (∀ s, String.prefix (a +:+ b) s = true → String.prefix a s = true)
    as Hpre.
  { induction a as [|c a IH]; intros t; [by destruct t|].
    change (String c a +:+ b) with (String c (a +:+ b)).
    destruct t as [|c' t]; cbn [String.prefix]; [done|].
    destruct (Ascii.ascii_dec c c'); [apply IH|done]. }
  induction s as [|c s IH]; cbn [contains].
  - rewrite !orb_false_r. apply Hpre.
  - intros [Hp|Hs]%orb_true_iff; [by rewrite (Hpre _ Hp)|].
    rewrite (IH Hs). apply orb_true_r.
Qed.

(** [_categorize_error] answers with the category of the first of its
    twelve patterns that occurs in the lower-cased message, and with
    [unknown] when none occurs.  The patterns are looked for as plain
    text, so the pattern [argument .* has incompatible type] only
    matches a message that contains [.*] literally: for any other
    message the category is never [type_mismatch]. *)
Theorem categorize_error_by_first_pattern message :
  (MypyParser._categorize_error message = "unknown" ↔
   Forall (λ pc, contains pc.1 (lower message) = false)
     MypyParser.error_categories)
  ∧ (∀ i pattern category,
       MypyParser.error_categories !! i = Some (pattern, category) →
       contains pattern (lower message) = true →
       (∀ j pc, j < i → MypyParser.error_categories !! j = Some pc →
                contains pc.1 (lower message) = false) →
       MypyParser._categorize_error message = category)
  ∧ (contains ".*" (lower message) = false →
     MypyParser._categorize_error message ≠ "type_mismatch").
Proof.
  unfold MypyParser._categorize_error.
  destruct (list_find _ MypyParser.error_categories) as [[i [pat cat]]|] eqn:E.
  - apply list_find_Some in E as (Hi & Hpat & Hfirst). cbn [fst] in *.
    split_and!.
    + split.
      * intros ->. exfalso. revert Hi. clear Hfirst.
        do 12 (destruct i as [|i]; [by intros [= _]|]). done.
      * intros Hall.
        pose proof (proj1 (Forall_forall _ _) Hall (pat, cat)
                      (list_elem_of_lookup_2 _ _ _ Hi)) as Hno.
        cbn in Hno. congruence.
    + intros i' pattern category Hi' Hpattern Hfirst'.
      destruct (Nat.lt_trichotomy i i') as [Hlt|[->|Hgt]].
      * specialize (Hfirst' i (pat, cat) Hlt Hi). cbn in Hfirst'. congruence.
      * congruence.
      * specialize (Hfirst i' (pattern, category) Hi' Hgt). cbn in Hfirst.
        congruence.
    + intros Hno ->. revert Hi Hpat. clear Hfirst.
      do 5 (destruct i as [|i]; [by intros [= _]|]).
      destruct i as [|i].
      { intros [= <-] Hpat.
        apply (contains_app_r "argument " (".*" +:+ " has incompatible type")),
          contains_app_l in Hpat.
        congruence. }
      do 6 (destruct i as [|i]; [by intros [= _]|]). done.
  - apply list_find_None in E. split_and!.
    + split; [intros _|done].
      eapply Forall_impl; [exact E|]. intros pc Hpc. cbn in Hpc.
      by apply not_true_is_false.
    + intros i pattern category Hi Hpattern _. exfalso.
      by apply (proj1 (Forall_forall _ _) E (pattern, category)
                  (list_elem_of_lookup_2 _ _ _ Hi)).
    + done.
Qed.

End Categories.

(** ** The collection type read off the usage *)

Section UsageType.

(** When the initial value gives the collection fixer no element type (it
    is no list, set or dictionary display, or a list or set display
    without an element whose type can be read off, or an empty
    dictionary), the annotation is decided by the [append] and [add]
    calls on the variable anywhere in the tree: as soon as one of them has
    a first argument whose type can be read off, the answer is a
    [List[...]] over those types -- also for a variable that holds a set
    or a dictionary -- and only without such a call is it the default of
    the display, or nothing. *)
Theorem collection_type_from_usage_is_a_list node tree var_name usage_types :
  (isinstance_any (attr node "value") ["List"; "Set"] = true →
   types_read_off (attr_list (attr node "value") "elts") ∅) →
  (isinstance (attr node "value") "Dict" = true →
   attr_list (attr node "value") "keys" = []) →
  appended_types tree var_name usage_types →
  _infer_collection_type node tree var_name
  = if decide (usage_types = ∅)
    then (if isinstance (attr node "value") "List" then Some "List[Any]"
          else if isinstance (attr node "value") "Dict"
               then Some "Dict[str, Any]"
          else if isinstance (attr node "value") "Set" then Some "Set[Any]"
          else None)
    else Some (list_of usage_types).
Proof.
  intros Hlit Hdict ->%appended_types_unique.
  fold (literal_default (attr node "value")).
  rewrite <- usage_or_default_spec.
  unfold _infer_collection_type.
  destruct (isinstance_any (attr node "value") ["List"; "Set"]) eqn:Hls.
  - rewrite infer_from_literal_spec by done.
    rewrite <- (types_read_off_unique _ _ (Hlit eq_refl)).
    unfold element_type. by rewrite elements_empty.
  - destruct (isinstance (attr node "value") "Dict") eqn:Hd; [|done].
    unfold _infer_dict_types. by rewrite (Hdict eq_refl).
Qed.

End UsageType.

Lemma collection_type_from_usage_is_a_list_witness :
  (isinstance_any (attr seen_assign "value") ["List"; "Set"] = true →
   types_read_off (attr_list (attr seen_assign "value") "elts") ∅)
  ∧ (isinstance (attr seen_assign "value") "Dict" = true →
     attr_list (attr seen_assign "value") "keys" = [])
  ∧ appended_types seen_then_add "seen" {["User"]}
  ∧ _infer_collection_type seen_assign seen_then_add "seen"
    = Some "List[User]".
Proof.
  assert (isinstance_any (attr seen_assign "value") ["List"; "Set"] = true →
          types_read_off (attr_list (attr seen_assign "value") "elts") ∅)
    as H1 by (intros [=]).
  assert (isinstance (attr seen_assign "value") "Dict" = true →
          attr_list (attr seen_assign "value") "keys" = []) as H2
    by (intros [=]).
  assert (appended_types seen_then_add "seen" {["User"]}) as H3.
  { replace ({["User"]} : gset string)
      with (expr_types (appended_args seen_then_add "seen")) by by vm_compute.
    apply appended_types_computed. }
  split; [exact H1|]. split; [exact H2|]. split; [exact H3|].
  rewrite (collection_type_from_usage_is_a_list seen_assign seen_then_add
             "seen" {["User"]} H1 H2 H3).
  by vm_compute.
Defined.
